(** * osquery result tracking: [osquery/core/query.cpp]

    A shallow embedding of the [Query] class (epoch / counter state machine
    and result commit engine) and of the two serializations of a
    [QueryLogItem], followed by the properties established about them.

    Conventions
    - [uint64_t] values are [Z] with the wrap-around written out ([wrap64]).
    - Methods that read the backing store are functions of the store;
      methods that write it run in the state-and-failure monad [M].
    - A failure is either a non-ok [Status] or an uncaught C++ exception
      (the ones [std::stoull] raises).  A failing computation keeps the
      state reached so far: there is no rollback. *)

From stdpp Require Import gmap gmultiset strings list fin_maps sorting.
From Stdlib Require Import ZArith Ascii String.
From Stdlib Require Import DecimalString DecimalN DecimalPos.

Local Open Scope Z_scope.
Local Set Warnings "-register-all,-clear-no-such-hyp".

(* ===================================================================== *)
(** ** Failures, results and the state monad *)
(* ===================================================================== *)

Inductive Failure : Type :=
| StatusError (code : Z) (message : string)  (* a Status that is not ok *)
| Exception (what : string).                 (* an uncaught C++ exception *)

Inductive Result (A : Type) : Type :=
| Ok (a : A)
| Err (e : Failure).
Arguments Ok {A} a.
Arguments Err {A} e.

Global Instance Failure_eq_dec : EqDecision Failure.
Proof. solve_decision. Defined.

Global Instance Result_eq_dec {A} `{EqDecision A} : EqDecision (Result A).
Proof. solve_decision. Defined.

(** [Status]: [Ok tt] is [Status::success()]. *)
Definition Status : Type := Result unit.
Definition success : Status := Ok tt.

Definition is_ok {A} (r : Result A) : bool :=
  match r with Ok _ => true | Err _ => false end.

(** Computations over a state [S] that may fail; the state survives. *)
Definition M (S A : Type) : Type := S → Result A * S.

Global Instance M_ret {S} : MRet (M S) := λ A a s, (Ok a, s).

Global Instance M_bind {S} : MBind (M S) := λ A B k m s,
  match m s with
  | (Ok a, s') => k a s'
  | (Err e, s') => (Err e, s')
  end.

Definition get {S} : M S S := λ s, (Ok s, s).
Definition modify {S} (f : S → S) : M S unit := λ s, (Ok tt, f s).

(** A read that may fail, run at the current state. *)
Definition reading {S A} (f : S → Result A) : M S A := λ s, (f s, s).

(** Run a computation on the first component of a pair state. *)
Definition on_fst {S T A} (m : M S A) : M (S * T) A :=
  λ st, let '(r, s') := m st.1 in (r, (s', st.2)).

(* ===================================================================== *)
(** ** Numbers as text: [std::to_string] and [std::stoull] *)
(* ===================================================================== *)

Definition uint64_modulus : Z := 2 ^ 64.
Definition ULLONG_MAX : Z := uint64_modulus - 1.

(** Arithmetic on [uint64_t] wraps. *)
Definition wrap64 (z : Z) : Z := z mod uint64_modulus.

(** [std::to_string] on an unsigned value: its decimal digits. *)
Definition to_string (n : Z) : string :=
  NilZero.string_of_uint (N.to_uint (Z.to_N n)).

Definition isspace (c : ascii) : bool :=
  let n := N_of_ascii c in
  (n =? 32)%N || ((9 <=? n)%N && (n <=? 13)%N).

Definition digit_of (c : ascii) : option Z :=
  let n := Z.of_N (N_of_ascii c) in
  if (48 <=? n) && (n <=? 57) then Some (n - 48) else None.

Fixpoint skip_spaces (s : string) : string :=
  match s with
  | String c s' => if isspace c then skip_spaces s' else s
  | EmptyString => s
  end.

(** The decimal digits at the head of [s], accumulated into [acc];
    [seen] records whether any digit was consumed. *)
Fixpoint read_digits (s : string) (acc : Z) (seen : bool) : Z * bool :=
  match s with
  | String c s' =>
      match digit_of c with
      | Some d => read_digits s' (10 * acc + d) true
      | None => (acc, seen)
      end
  | EmptyString => (acc, seen)
  end.

(** Whether digits were consumed once the digits of [d] have been. *)
Definition some_digit (d : Decimal.uint) (seen : bool) : bool :=
  match d with Decimal.Nil => seen | _ => true end.

(** [std::stoull(raw)] in base 10, as [strtoull] does it: leading white
    space is skipped, one sign is accepted, the longest run of digits is
    converted and what follows is ignored; a minus sign negates in
    [uint64_t].  No digit at all raises [std::invalid_argument], a
    magnitude above [ULLONG_MAX] raises [std::out_of_range]. *)
Definition stoull (raw : string) : Result Z :=
  let s := skip_spaces raw in
  let '(negative, body) :=
    match s with
    | String "-" s' => (true, s')
    | String "+" s' => (false, s')
    | _ => (false, s)
    end in
  let '(magnitude, seen) := read_digits body 0 false in
  if negb seen then Err (Exception "invalid_argument")
  else if ULLONG_MAX <? magnitude then Err (Exception "out_of_range")
  else Ok (if negative then wrap64 (- magnitude) else magnitude).

(* ===================================================================== *)
(** ** The backing store *)
(* ===================================================================== *)

(** Modelled from the spec: the persisted-state collaborator
    ([osquery/database/database.h] is not under src/).  One logical
    namespace, [kQueries], of string keys and string values with
    [get(key) -> Option<string>], [set(key, value) -> Result<(), Error>] and
    a scan of all keys.  A read of a missing key is the only failing read.
    A write can be refused: the store carries the outcomes of the writes to
    come ([pending], the next one first; once they are used up every write
    is taken), so that any write of a commit may fail, with any error.
    Next to the [table] of current values the store keeps the journal of
    the [writes] it took, oldest first, so that a write is observable even
    when it is overwritten or stores what was there already. *)
Record Database : Type := {
  table : gmap string string;
  writes : list (string * string);
  pending : list (Result unit)
}.

Global Instance Database_eq_dec : EqDecision Database.
Proof. solve_decision. Defined.

(** A store that holds [t], has received no write yet and takes every
    write. *)
Definition holding (t : gmap string string) : Database :=
  {| table := t; writes := []; pending := [] |}.

(** The outcome of the next write. *)
Definition next_write (db : Database) : Status :=
  match pending db with
  | outcome :: _ => outcome
  | [] => success
  end.

(** The store takes its next [n] writes. *)
Definition takes (n : nat) (db : Database) : Prop :=
  Forall (λ outcome, outcome = success) (take n (pending db)).

(** The store after it took the write of [value] under [key]. *)
Definition written (key value : string) (db : Database) : Database :=
  {| table := <[key := value]> (table db);
     writes := writes db ++ [(key, value)];
     pending := tail (pending db) |}.

(** The store after it refused a write. *)
Definition refused (db : Database) : Database :=
  {| table := table db; writes := writes db; pending := tail (pending db) |}.

(** The store [db] with the outcomes [outcomes] for its next writes. *)
Definition with_outcomes (outcomes : list (Result unit)) (db : Database)
  : Database :=
  {| table := table db; writes := writes db; pending := outcomes |}.

Definition kQueries : string := "queries".

(** Modelled from the spec: [getDatabaseValue], the store's [get]. *)
Definition getDatabaseValue (domain key : string) (db : Database)
  : Result string :=
  match table db !! key with
  | Some value => Ok value
  | None => Err (StatusError 1 "key not found")
  end.

(** Modelled from the spec: [setDatabaseValue], the store's [set]; a
    refused write returns the store's error and stores nothing. *)
Definition setDatabaseValue (domain key value : string) : M Database unit :=
  λ db,
    match next_write db with
    | Ok _ => (success, written key value db)
    | Err e => (Err e, refused db)
    end.

(** Modelled from the spec: [scanDatabaseKeys], the store's scan of the
    keys of a namespace. *)
Definition scanDatabaseKeys (domain : string) (db : Database) : list string :=
  (map_to_list (table db)).*1.

(* ===================================================================== *)
(** ** The [Query] handle and its counters *)
(* ===================================================================== *)

Record Query : Type := {
  query_ : string;   (* the scheduled query's text *)
  name_ : string     (* the scheduled query's name *)
}.

Definition getPreviousEpoch (q : Query) (db : Database) : Result Z :=
  let epoch := 0 in
  match getDatabaseValue kQueries (name_ q +:+ "epoch") db with
  | Ok raw => stoull raw
  | Err _ => Ok epoch
  end.

Definition getQueryCounter (q : Query) (all_records new_query : bool)
    (db : Database) : Result Z :=
  let counter := 0 in
  if all_records then Ok counter
  else if new_query then Ok (counter + 1)
  else
    match getDatabaseValue kQueries (name_ q +:+ "counter") db with
    | Ok raw =>
        match stoull raw with
        | Ok n => Ok (wrap64 (n + 1))
        | Err e => Err e
        end
    | Err _ => Ok counter
    end.

(* ===================================================================== *)
(** ** Rows and result collections *)
(* ===================================================================== *)

(** A column value.  The source's variant also has a [double] alternative,
    which the embedding leaves out. *)
Inductive RowDataTyped : Type :=
| TInteger (z : Z)       (* long long *)
| TText (s : string).    (* std::string *)

Global Instance RowDataTyped_eq_dec : EqDecision RowDataTyped.
Proof. solve_decision. Defined.

Global Instance RowDataTyped_countable : Countable RowDataTyped.
Proof.
  refine (inj_countable'
    (λ v, match v with TInteger z => inl z | TText s => inr s end)
    (λ x, match x with inl z => TInteger z | inr s => TText s end) _).
  by intros [].
Defined.

(** [RowTyped] is a [std::map] from column name to value, [QueryDataTyped]
    a vector of rows in the order the engine returned them, and
    [QueryDataSet] a [std::multiset] of rows. *)
Abbreviation RowTyped := (gmap string RowDataTyped).
Abbreviation QueryDataTyped := (list RowTyped).
Abbreviation QueryDataSet := (gmultiset RowTyped).

Record DiffResults : Type := {
  added : QueryDataTyped;
  removed : QueryDataTyped
}.

Global Instance DiffResults_eq_dec : EqDecision DiffResults.
Proof. solve_decision. Defined.

Definition no_results : DiffResults := {| added := []; removed := [] |}.

(** [dr.added.empty() && dr.removed.empty()] *)
Definition diff_is_empty (dr : DiffResults) : bool :=
  match added dr, removed dr with
  | [], [] => true
  | _, _ => false
  end.

(** Modelled from the spec: [diff]
    ([osquery/core/sql/diff_results.cpp] is not under src/).  Each current
    row cancels one equal row of the previous set when there is one and is
    reported as added otherwise; the rows of the previous set that were not
    cancelled are reported as removed.  A row therefore occurs in [removed]
    as often as its multiplicity before exceeds the one after, and in
    [added] as often as the one after exceeds the one before. *)
Fixpoint diff_rows (old : QueryDataSet) (current : QueryDataTyped)
    (acc : QueryDataTyped) : QueryDataSet * QueryDataTyped :=
  match current with
  | [] => (old, reverse acc)
  | i :: rest =>
      if decide (i ∈ old)
      then diff_rows (old ∖ {[+ i +]}) rest acc
      else diff_rows old rest (i :: acc)
  end.

(** Modelled from the spec: [diff], by the loop above. *)
Definition diff (old : QueryDataSet) (current : QueryDataTyped) : DiffResults :=
  let '(leftover, r_added) := diff_rows old current [] in
  {| added := r_added; removed := elements leftover |}.

(* ===================================================================== *)
(** ** JSON documents *)
(* ===================================================================== *)

(** Modelled from the spec: the JSON document builder
    ([osquery/utils/json/json.h] is not under src/), which the specification
    leaves to a library.  A document is a tree; an object keeps its members
    in insertion order, and [add] first removes a member of the same key, as
    the wrapper around rapidjson does. *)
Inductive JSONValue : Type :=
| JNull
| JBool (b : bool)
| JInt (z : Z)
| JString (s : string)
| JArray (items : list JSONValue)
| JObject (members : list (string * JSONValue)).

Abbreviation Members := (list (string * JSONValue)).

Definition getObject : Members := [].
Definition getArray : list JSONValue := [].

Definition remove_member (key : string) (obj : Members) : Members :=
  filter (λ kv, kv.1 ≠ key) obj.

(** Modelled from the spec: [doc.add(key, value, obj)] of the document
    builder, also its [addRef] and [addCopy]. *)
Definition add (key : string) (value : JSONValue) (obj : Members) : Members :=
  remove_member key obj ++ [(key, value)].

(** Modelled from the spec: [doc.push(value, arr)] of the document
    builder. *)
Definition push (value : JSONValue) (arr : list JSONValue) : list JSONValue :=
  arr ++ [value].

(** [obj[key]] when [obj.HasMember(key)]. *)
Fixpoint find_member (key : string) (obj : Members) : option JSONValue :=
  match obj with
  | [] => None
  | (k, v) :: obj' => if decide (k = key) then Some v else find_member key obj'
  end.

(** *** Writing a document as text *)

Definition quote : ascii := "034"%char.
Definition backslash : ascii := "092"%char.

Fixpoint escape (s : string) : string :=
  match s with
  | EmptyString => EmptyString
  | String c s' =>
      if decide (c = quote) then String backslash (String quote (escape s'))
      else if decide (c = backslash)
      then String backslash (String backslash (escape s'))
      else if decide (c = "010"%char)
      then String backslash (String "n" (escape s'))
      else if decide (c = "009"%char)
      then String backslash (String "t" (escape s'))
      else if decide (c = "013"%char)
      then String backslash (String "r" (escape s'))
      else String c (escape s')
  end.

Definition write_string (s : string) : string :=
  String quote (escape s +:+ String quote EmptyString).

Definition write_int (z : Z) : string :=
  NilZero.string_of_int (Z.to_int z).

Fixpoint write (v : JSONValue) : string :=
  match v with
  | JNull => "null"
  | JBool true => "true"
  | JBool false => "false"
  | JInt z => write_int z
  | JString s => write_string s
  | JArray items =>
      let fix go (l : list JSONValue) : string :=
        match l with
        | [] => EmptyString
        | x :: l' =>
            match l' with
            | [] => write x
            | _ => write x +:+ "," +:+ go l'
            end
        end in
      "[" +:+ go items +:+ "]"
  | JObject members =>
      let fix go (l : Members) : string :=
        match l with
        | [] => EmptyString
        | (k, x) :: l' =>
            match l' with
            | [] => write_string k +:+ ":" +:+ write x
            | _ => write_string k +:+ ":" +:+ write x +:+ "," +:+ go l'
            end
        end in
      "{" +:+ go members +:+ "}"
  end.

(** Modelled from the spec: [doc.toString(json)] of the document builder,
    for a document whose root is [root]. *)
Definition toString (root : JSONValue) : Result string := Ok (write root).

(** *** Reading a document from text *)

Fixpoint skip_ws (s : string) : string :=
  match s with
  | String c s' => if isspace c then skip_ws s' else s
  | EmptyString => s
  end.

(** The characters of a string literal after its opening quote, up to and
    without the closing one. *)
Fixpoint parse_chars (s : string) : option (string * string) :=
  match s with
  | EmptyString => None
  | String c s' =>
      if decide (c = quote) then Some (EmptyString, s')
      else if decide (c = backslash) then
        match s' with
        | String e s'' =>
            let unescaped :=
              if decide (e = "n"%char) then Some "010"%char
              else if decide (e = "t"%char) then Some "009"%char
              else if decide (e = "r"%char) then Some "013"%char
              else if decide (e = quote) then Some quote
              else if decide (e = backslash) then Some backslash
              else if decide (e = "/"%char) then Some "/"%char
              else None in
            match unescaped, parse_chars s'' with
            | Some u, Some (body, rest) => Some (String u body, rest)
            | _, _ => None
            end
        | EmptyString => None
        end
      else
        match parse_chars s' with
        | Some (body, rest) => Some (String c body, rest)
        | None => None
        end
  end.

(** Whether the text goes on as a fraction or an exponent, which the
    embedding does not read. *)
Definition continues_number (s : string) : bool :=
  match s with
  | String c _ =>
      bool_decide (c = "."%char) || bool_decide (c = "e"%char)
      || bool_decide (c = "E"%char)
  | EmptyString => false
  end.

Fixpoint drop_digits (s : string) : string :=
  match s with
  | String c s' =>
      match digit_of c with
      | Some _ => drop_digits s'
      | None => s
      end
  | EmptyString => s
  end.

Definition parse_int (s : string) : option (Z * string) :=
  let '(negative, body) :=
    match s with
    | String "-" s' => (true, s')
    | _ => (false, s)
    end in
  let '(magnitude, seen) := read_digits body 0 false in
  let rest := drop_digits body in
  if negb seen || continues_number rest then None
  else Some (if negative then - magnitude else magnitude, rest).

Definition parse_literal (word : string) (v : JSONValue) (s : string)
  : option (JSONValue * string) :=
  if String.prefix word s
  then Some (v, String.substring (String.length word)
                  (String.length s - String.length word) s)
  else None.

Fixpoint parse_value (fuel : nat) (s : string) {struct fuel}
  : option (JSONValue * string) :=
  match fuel with
  | O => None
  | S fuel' =>
      match skip_ws s with
      | String "[" r =>
          match skip_ws r with
          | String "]" r' => Some (JArray [], r')
          | _ =>
              match parse_items fuel' r with
              | Some (items, r') => Some (JArray items, r')
              | None => None
              end
          end
      | String "{" r =>
          match skip_ws r with
          | String "}" r' => Some (JObject [], r')
          | _ =>
              match parse_members fuel' r with
              | Some (members, r') => Some (JObject members, r')
              | None => None
              end
          end
      | String "n" _ as w => parse_literal "null" JNull w
      | String "t" _ as w => parse_literal "true" (JBool true) w
      | String "f" _ as w => parse_literal "false" (JBool false) w
      | String c r as w =>
          if decide (c = quote) then
            match parse_chars r with
            | Some (body, r') => Some (JString body, r')
            | None => None
            end
          else
            match parse_int w with
            | Some (z, r') => Some (JInt z, r')
            | None => None
            end
      | EmptyString => None
      end
  end
with parse_items (fuel : nat) (s : string) {struct fuel}
  : option (list JSONValue * string) :=
  match fuel with
  | O => None
  | S fuel' =>
      match parse_value fuel' s with
      | Some (v, r) =>
          match skip_ws r with
          | String "," r' =>
              match parse_items fuel' r' with
              | Some (vs, r'') => Some (v :: vs, r'')
              | None => None
              end
          | String "]" r' => Some ([v], r')
          | _ => None
          end
      | None => None
      end
  end
with parse_members (fuel : nat) (s : string) {struct fuel}
  : option (Members * string) :=
  match fuel with
  | O => None
  | S fuel' =>
      match skip_ws s with
      | String c r =>
          if decide (c = quote) then
            match parse_chars r with
            | Some (key, r0) =>
                match skip_ws r0 with
                | String ":" r1 =>
                    match parse_value fuel' r1 with
                    | Some (v, r2) =>
                        match skip_ws r2 with
                        | String "," r3 =>
                            match parse_members fuel' r3 with
                            | Some (ms, r4) => Some ((key, v) :: ms, r4)
                            | None => None
                            end
                        | String "}" r3 => Some ([(key, v)], r3)
                        | _ => None
                        end
                    | None => None
                    end
                | _ => None
                end
            | None => None
            end
          else None
      | EmptyString => None
      end
  end.

(** Modelled from the spec: [doc.fromString(text)] of the document
    builder: one value, then nothing but white space.  Numbers with a
    fraction or an exponent and escapes by code point are not read. *)
Definition fromString (text : string) : Result JSONValue :=
  match parse_value (2 * String.length text + 2) text with
  | Some (v, rest) =>
      match skip_ws rest with
      | EmptyString => Ok v
      | _ => Err (StatusError 1 "Cannot parse JSON")
      end
  | None => Err (StatusError 1 "Cannot parse JSON")
  end.

(* ===================================================================== *)
(** ** Rows as JSON *)
(* ===================================================================== *)

(** Modelled from the spec: the JSON coding of rows and result sets
    ([osquery/core/sql/query_data.cpp], [row.cpp] and [diff_results.cpp]
    are not under src/).  A result set is an array of objects, one per row,
    with one member per column in the order of the column names; with
    [asNumeric] an integer column is written as a number, otherwise as a
    string.  Reading back takes a string member as text and a number as an
    integer. *)

(** A [std::map] is walked in the order of its keys. *)
Definition columns (r : RowTyped) : list (string * RowDataTyped) :=
  merge_sort (λ a b, Is_true (String.leb a.1 b.1)) (map_to_list r).

Definition serializeValue (asNumeric : bool) (v : RowDataTyped) : JSONValue :=
  match v with
  | TInteger z => if asNumeric then JInt z else JString (write_int z)
  | TText s => JString s
  end.

(** Modelled from the spec: [serializeRow]. *)
Definition serializeRow (r : RowTyped) (obj : Members) (asNumeric : bool)
  : Result Members :=
  Ok (foldl (λ o kv, add kv.1 (serializeValue asNumeric kv.2) o)
        obj (columns r)).

(** Modelled from the spec: [serializeQueryData]. *)
Fixpoint serializeQueryData (q : QueryDataTyped) (arr : list JSONValue)
    (asNumeric : bool) : Result (list JSONValue) :=
  match q with
  | [] => Ok arr
  | r :: q' =>
      match serializeRow r getObject asNumeric with
      | Ok row_obj =>
          serializeQueryData q' (push (JObject row_obj) arr) asNumeric
      | Err e => Err e
      end
  end.

(** Modelled from the spec: [serializeQueryDataJSON]. *)
Definition serializeQueryDataJSON (q : QueryDataTyped) (asNumeric : bool)
  : Result string :=
  match serializeQueryData q getArray asNumeric with
  | Ok arr => toString (JArray arr)
  | Err e => Err e
  end.

(** Modelled from the spec: [serializeDiffResults]; "removed" goes first,
    then "added". *)
Definition serializeDiffResults (d : DiffResults) (obj : Members)
    (asNumeric : bool) : Result Members :=
  match serializeQueryData (removed d) getArray asNumeric with
  | Ok removed_arr =>
      let obj := add "removed" (JArray removed_arr) obj in
      match serializeQueryData (added d) getArray asNumeric with
      | Ok added_arr => Ok (add "added" (JArray added_arr) obj)
      | Err e => Err e
      end
  | Err e => Err e
  end.

(** Modelled from the spec: [deserializeRow]. *)
Definition deserializeRow (doc : JSONValue) : Result RowTyped :=
  match doc with
  | JObject members =>
      Ok (foldl (λ (r : RowTyped) kv,
                   if decide (kv.1 = EmptyString) then r
                   else match kv.2 with
                        | JString s => <[kv.1 := TText s]> r
                        | JInt z => <[kv.1 := TInteger z]> r
                        | _ => r
                        end)
            ∅ members)
  | _ => Err (StatusError 1 "Row not an object")
  end.

Fixpoint deserializeRows (items : list JSONValue) (qd : QueryDataSet)
  : Result QueryDataSet :=
  match items with
  | [] => Ok qd
  | i :: items' =>
      match deserializeRow i with
      | Ok r => deserializeRows items' (qd ⊎ {[+ r +]})
      | Err e => Err e
      end
  end.

(** Modelled from the spec: [deserializeQueryData]. *)
Definition deserializeQueryData (doc : JSONValue) (qd : QueryDataSet)
  : Result QueryDataSet :=
  match doc with
  | JArray items => deserializeRows items qd
  | _ => Err (StatusError 1 "Result set not an array")
  end.

(** Modelled from the spec: [deserializeQueryDataJSON]; a text that is not
    a JSON array of objects is an error. *)
Definition deserializeQueryDataJSON (json : string) (qd : QueryDataSet)
  : Result QueryDataSet :=
  match fromString json with
  | Ok doc => deserializeQueryData doc qd
  | Err e => Err e
  end.

(* ===================================================================== *)
(** ** Query status *)
(* ===================================================================== *)

Definition getPreviousQueryResults (q : Query) (results : QueryDataSet)
    (db : Database) : Result QueryDataSet :=
  match getDatabaseValue kQueries (name_ q) db with
  | Err e => Err e
  | Ok raw =>
      match deserializeQueryDataJSON raw results with
      | Err e => Err e
      | Ok results' => Ok results'
      end
  end.

Definition getStoredQueryNames (db : Database) : list string :=
  scanDatabaseKeys kQueries db.

Definition isQueryNameInDatabase (q : Query) (db : Database) : bool :=
  bool_decide (name_ q ∈ getStoredQueryNames db).

(** [saveQuery] is [void]: the status of the write is dropped. *)
Definition saveQuery (name query : string) : M Database unit :=
  λ db,
    let '(_, db') := setDatabaseValue kQueries ("query." +:+ name) query db in
    (Ok tt, db').

(** A missing entry leaves the local [query] empty. *)
Definition isNewQuery (q : Query) (db : Database) : bool :=
  let query :=
    match getDatabaseValue kQueries ("query." +:+ name_ q) db with
    | Ok stored => stored
    | Err _ => EmptyString
    end in
  bool_decide (query ≠ query_ q).

(** [previous_epoch], [new_epoch] and [new_query] are reference
    parameters: the first is always assigned, the flags are only ever
    raised, so their incoming values are arguments here and the outgoing
    ones the result. *)
Definition getQueryStatus (q : Query) (epoch : Z) (new_epoch new_query : bool)
  : M Database (Z * bool * bool) :=
  previous_epoch ← reading (getPreviousEpoch q);
  in_database ← reading (λ db, Ok (isQueryNameInDatabase q db));
  if negb in_database then
    (* This is the first encounter of the scheduled query. *)
    saveQuery (name_ q) (query_ q);;
    mret (previous_epoch, true, true)
  else if bool_decide (previous_epoch ≠ epoch) then
    mret (previous_epoch, true, new_query)
  else
    is_new ← reading (λ db, Ok (isNewQuery q db));
    if (is_new : bool) then
      (* This query is 'new' in that the previous results may be invalid. *)
      saveQuery (name_ q) (query_ q);;
      mret (previous_epoch, new_epoch, true)
    else mret (previous_epoch, new_epoch, new_query).

(** [counter] is an output parameter, and it is assigned before the write:
    it holds the new counter also when the write is refused.  The state is
    the store together with the variable that [counter] refers to. *)
Definition incrementCounter (q : Query) (all_records new_query : bool)
  : M (Database * Z) unit :=
  counter ← on_fst (reading (getQueryCounter q all_records new_query));
  modify (λ st, (st.1, counter));;
  on_fst (setDatabaseValue kQueries (name_ q +:+ "counter")
            (to_string counter)).

(* ===================================================================== *)
(** ** Log items *)
(* ===================================================================== *)

Record QueryLogItem : Type := {
  isSnapshot : bool;
  results : DiffResults;
  previous_remaining : DiffResults;
  snapshot_results : QueryDataTyped;
  name : string;
  identifier : string;
  time : Z;
  epoch : Z;
  previous_epoch : Z;
  counter : Z;
  previous_remaining_counter : Z;
  calendar_time : string;
  decorations : gmap string string
}.

Global Instance QueryLogItem_eq_dec : EqDecision QueryLogItem.
Proof. solve_decision. Defined.

(** A default-constructed item.  [isSnapshot] and
    [previous_remaining_counter] have no initializer in the source, so what
    they hold is an argument here. *)
Definition default_item (snapshot0 : bool) (prc0 : Z) : QueryLogItem :=
  {| isSnapshot := snapshot0;
     results := no_results;
     previous_remaining := no_results;
     snapshot_results := [];
     name := EmptyString;
     identifier := EmptyString;
     time := 0;
     epoch := 0;
     previous_epoch := 0;
     counter := 0;
     previous_remaining_counter := prc0;
     calendar_time := EmptyString;
     decorations := ∅ |}.

Definition set_results (dr : DiffResults) (i : QueryLogItem) : QueryLogItem :=
  {| isSnapshot := isSnapshot i; results := dr;
     previous_remaining := previous_remaining i;
     snapshot_results := snapshot_results i; name := name i;
     identifier := identifier i; time := time i; epoch := epoch i;
     previous_epoch := previous_epoch i; counter := counter i;
     previous_remaining_counter := previous_remaining_counter i;
     calendar_time := calendar_time i; decorations := decorations i |}.

(** [item.results.added = std::move(rows)] *)
Definition set_results_added (rows : QueryDataTyped) (i : QueryLogItem)
  : QueryLogItem :=
  set_results {| added := rows; removed := removed (results i) |} i.

Definition set_previous_remaining (dr : DiffResults) (i : QueryLogItem)
  : QueryLogItem :=
  {| isSnapshot := isSnapshot i; results := results i;
     previous_remaining := dr;
     snapshot_results := snapshot_results i; name := name i;
     identifier := identifier i; time := time i; epoch := epoch i;
     previous_epoch := previous_epoch i; counter := counter i;
     previous_remaining_counter := previous_remaining_counter i;
     calendar_time := calendar_time i; decorations := decorations i |}.

Definition set_epoch (e : Z) (i : QueryLogItem) : QueryLogItem :=
  {| isSnapshot := isSnapshot i; results := results i;
     previous_remaining := previous_remaining i;
     snapshot_results := snapshot_results i; name := name i;
     identifier := identifier i; time := time i; epoch := e;
     previous_epoch := previous_epoch i; counter := counter i;
     previous_remaining_counter := previous_remaining_counter i;
     calendar_time := calendar_time i; decorations := decorations i |}.

Definition set_previous_epoch (e : Z) (i : QueryLogItem) : QueryLogItem :=
  {| isSnapshot := isSnapshot i; results := results i;
     previous_remaining := previous_remaining i;
     snapshot_results := snapshot_results i; name := name i;
     identifier := identifier i; time := time i; epoch := epoch i;
     previous_epoch := e; counter := counter i;
     previous_remaining_counter := previous_remaining_counter i;
     calendar_time := calendar_time i; decorations := decorations i |}.

Definition set_counter (c : Z) (i : QueryLogItem) : QueryLogItem :=
  {| isSnapshot := isSnapshot i; results := results i;
     previous_remaining := previous_remaining i;
     snapshot_results := snapshot_results i; name := name i;
     identifier := identifier i; time := time i; epoch := epoch i;
     previous_epoch := previous_epoch i; counter := c;
     previous_remaining_counter := previous_remaining_counter i;
     calendar_time := calendar_time i; decorations := decorations i |}.

Definition set_previous_remaining_counter (c : Z) (i : QueryLogItem)
  : QueryLogItem :=
  {| isSnapshot := isSnapshot i; results := results i;
     previous_remaining := previous_remaining i;
     snapshot_results := snapshot_results i; name := name i;
     identifier := identifier i; time := time i; epoch := epoch i;
     previous_epoch := previous_epoch i; counter := counter i;
     previous_remaining_counter := c;
     calendar_time := calendar_time i; decorations := decorations i |}.

(* ===================================================================== *)
(** ** Committing results *)
(* ===================================================================== *)

(** The state of a commit is the store together with the caller's item,
    which the source receives by reference. *)
Abbreviation Commit := (M (Database * QueryLogItem)).

Definition the_item : Commit QueryLogItem := λ st, (Ok st.2, st).

Definition update_item (f : QueryLogItem → QueryLogItem) : Commit unit :=
  modify (λ st, (st.1, f st.2)).

(** Run [m] with the field of the item that [get] reads and [set] assigns
    passed by reference. *)
Definition by_reference (get : QueryLogItem → Z)
    (set : Z → QueryLogItem → QueryLogItem) (m : M (Database * Z) unit)
  : Commit unit :=
  λ st,
    let '(r, (db', c)) := m (st.1, get st.2) in
    (r, (db', set c st.2)).

Definition query_status (q : Query) : Commit (bool * bool) :=
  item ← the_item;
  '(previous, new_epoch, new_query) ←
    on_fst (getQueryStatus q (epoch item) false false);
  update_item (set_previous_epoch previous);;
  mret (new_epoch, new_query).

Definition addNewEvents (q : Query) (current_qd : QueryDataTyped)
  : Commit unit :=
  '(new_epoch, new_query) ← query_status q;
  (if (new_epoch : bool)
   then on_fst (setDatabaseValue kQueries (name_ q) "[]")
   else mret tt);;
  update_item (set_results_added current_qd);;
  item ← the_item;
  if negb (bool_decide (added (results item) = []))
  then
    by_reference counter set_counter
      (incrementCounter q false (new_epoch || new_query))
  else mret tt.

Definition addNewResults (q : Query) (current_qd : QueryDataTyped)
    (calculate_diff : bool) : Commit unit :=
  '(new_epoch, new_query) ← query_status q;
  (* [target_gd] is the rows to persist, [update_db] whether to. *)
  '(target_gd, update_db) ←
    (if negb new_query && calculate_diff then
       (* Get the rows from the last run of this query name. *)
       previous_qd ← on_fst (reading (getPreviousQueryResults q ∅));
       (* Calculate the differential between previous and current. *)
       target_gd ←
         (if (new_epoch : bool) then
            update_item (set_previous_remaining (diff previous_qd current_qd));;
            update_item (set_results_added current_qd);;
            item ← the_item;
            mret (added (results item))
          else
            update_item (set_results (diff previous_qd current_qd));;
            mret current_qd);
       item ← the_item;
       if negb new_epoch && bool_decide (added (results item) = [])
          && bool_decide (removed (results item) = [])
       then mret (target_gd, false)
       else mret (target_gd, true)
     else
       update_item (set_results_added current_qd);;
       item ← the_item;
       mret (added (results item), true));
  (if (update_db : bool) then
     (* Replace the "previous" query data with the current. *)
     json ← reading (λ _, serializeQueryDataJSON target_gd true);
     on_fst (setDatabaseValue kQueries (name_ q) json);;
     item ← the_item;
     on_fst (setDatabaseValue kQueries (name_ q +:+ "epoch")
               (to_string (epoch item)))
   else mret tt);;
  item ← the_item;
  (if new_epoch
      && negb (bool_decide (added (previous_remaining item) = [])
               && bool_decide (removed (previous_remaining item) = []))
   then
     by_reference previous_remaining_counter set_previous_remaining_counter
       (incrementCounter q false false)
   else mret tt);;
  if update_db || new_epoch || new_query
  then
    by_reference counter set_counter (incrementCounter q new_epoch new_query)
  else mret tt.

(** The overload that takes an epoch: it commits into a local item without
    differencing, and leaves its [counter] output untouched. *)
Definition addNewResults_epoch (q : Query) (qd : QueryDataTyped) (epoch : Z)
    (snapshot0 : bool) (prc0 : Z) : M Database unit :=
  λ db,
    let item := set_epoch epoch (default_item snapshot0 prc0) in
    let '(status, (db', _)) := addNewResults q qd false (db, item) in
    (status, db').

(* ===================================================================== *)
(** ** Serializing a log item *)
(* ===================================================================== *)

Global Instance Result_ret : MRet Result := λ A a, Ok a.

Global Instance Result_bind : MBind Result := λ A B k r,
  match r with
  | Ok a => k a
  | Err e => Err e
  end.

(** A [std::map] is walked in the order of its keys. *)
Definition in_key_order {A} (m : gmap string A) : list (string * A) :=
  merge_sort (λ a b, Is_true (String.leb a.1 b.1)) (map_to_list m).

Section Serialization.

(** The two process-wide switches, read when a document is rendered. *)
Variable FLAGS_logger_numerics : bool.
Variable FLAGS_decorations_top_level : bool.

Definition addLegacyFieldsAndDecorations (is_previous_remaining : bool)
    (item : QueryLogItem) (obj : Members) : Members :=
  (* Apply legacy fields. *)
  let obj := add "name" (JString (name item)) obj in
  let obj := add "hostIdentifier" (JString (identifier item)) obj in
  let obj := add "calendarTime" (JString (calendar_time item)) obj in
  let obj := add "unixTime" (JInt (time item)) obj in
  let obj :=
    if is_previous_remaining then
      let obj := add "epoch" (JInt (previous_epoch item)) obj in
      let obj := add "previous_epoch" (JInt (previous_epoch item)) obj in
      add "counter" (JInt (previous_remaining_counter item)) obj
    else
      let obj := add "epoch" (JInt (epoch item)) obj in
      let obj := add "previous_epoch" (JInt (previous_epoch item)) obj in
      add "counter" (JInt (counter item)) obj in
  (* Apply field indicating if numerics are serialized as numbers. *)
  let obj := add "numerics" (JBool FLAGS_logger_numerics) obj in
  (* Append the decorations. *)
  if bool_decide (decorations item = ∅) then obj
  else if FLAGS_decorations_top_level then
    foldl (λ o kv, add kv.1 (JString kv.2) o) obj
      (in_key_order (decorations item))
  else
    let dec_obj :=
      foldl (λ o kv, add kv.1 (JString kv.2) o) getObject
        (in_key_order (decorations item)) in
    add "decorations" (JObject dec_obj) obj.

(** The state is the root object of [doc]. *)
Definition serializeQueryLogItem (is_previous_remaining : bool)
    (item : QueryLogItem) : M Members unit :=
  let dr := if is_previous_remaining
            then previous_remaining item else results item in
  (if (0 <? List.length (added dr))%nat
      || (0 <? List.length (removed dr))%nat then
     obj ← reading (λ _,
              serializeDiffResults dr getObject FLAGS_logger_numerics);
     modify (add "diffResults" (JObject obj))
   else
     arr ← reading (λ _,
              serializeQueryData (snapshot_results item) getArray
                FLAGS_logger_numerics);
     modify (add "snapshot" (JArray arr));;
     modify (add "action" (JString "snapshot")));;
  modify (addLegacyFieldsAndDecorations is_previous_remaining item).

Definition serializeEvent (is_previous_remaining : bool)
    (item : QueryLogItem) (event_obj : JSONValue) (obj : Members)
  : Members :=
  let obj := addLegacyFieldsAndDecorations is_previous_remaining item obj in
  let columns_obj :=
    (* Yield results as a "columns." map to avoid namespace collisions. *)
    foldl (λ o kv, add kv.1 kv.2 o) getObject
      (match event_obj with JObject ms => ms | _ => [] end) in
  add "columns" (JObject columns_obj) obj.

(** One document per row of an action. *)
Definition push_events (is_previous_remaining : bool) (item : QueryLogItem)
    (action : string * JSONValue) (doc : list JSONValue) : list JSONValue :=
  foldl (λ d row,
           let obj := getObject in
           let obj := serializeEvent is_previous_remaining item row obj in
           let obj := add "action" (JString action.1) obj in
           push (JObject obj) d)
    doc (match action.2 with JArray rows => rows | _ => [] end).

(** The state is the root array of [doc]. *)
Definition _serializeQueryLogItemAsEvents (is_previous_remaining : bool)
    (item : QueryLogItem) : M (list JSONValue) unit :=
  let dr := if is_previous_remaining
            then previous_remaining item else results item in
  temp_doc ←
    (if negb (bool_decide (added dr = []))
        || negb (bool_decide (removed dr = [])) then
       reading (λ _, serializeDiffResults dr getObject FLAGS_logger_numerics)
     else if negb (bool_decide (snapshot_results item = [])) then
       arr ← reading (λ _,
                serializeQueryData (snapshot_results item) getArray
                  FLAGS_logger_numerics);
       mret (add "snapshot" (JArray arr) getObject)
     else
       (* This error case may also be represented in
          serializeQueryLogItem. *)
       (λ doc, (Err (StatusError 1 "No differential or snapshot results"),
                doc)));
  modify (λ doc,
    foldl (λ d action, push_events is_previous_remaining item action d)
      doc (temp_doc : Members)).

Definition serializeQueryLogItemAsEvents (item : QueryLogItem)
  : M (list JSONValue) unit :=
  _serializeQueryLogItemAsEvents true item;;
  _serializeQueryLogItemAsEvents false item.

(** The state is the output string [json]. *)
Definition _serializeQueryLogItemJSON (is_previous_remaining : bool)
    (item : QueryLogItem) : M string unit :=
  λ json,
    match serializeQueryLogItem is_previous_remaining item getObject with
    | (Err e, _) => (Err e, json)
    | (Ok _, doc) =>
        match toString (JObject doc) with
        | Ok text => (success, text)
        | Err e => (Err e, json)
        end
    end.

(** The state is the output vector [json_items]. *)
Definition serializeQueryLogItemJSON (item : QueryLogItem)
  : M (list string) unit :=
  λ json_items,
    let json := EmptyString in
    match _serializeQueryLogItemJSON true item json with
    | (Err e, _) => (Err e, json_items)
    | (Ok _, json) =>
        let json_items :=
          if negb (bool_decide (json = EmptyString))
          then json_items ++ [json] else json_items in
        match _serializeQueryLogItemJSON false item json with
        | (Err e, _) => (Err e, json_items)
        | (Ok _, json) =>
            let json_items :=
              if negb (bool_decide (json = EmptyString))
              then json_items ++ [json] else json_items in
            (success, json_items)
        end
    end.

(** The state is the output vector [items]. *)
Definition serializeQueryLogItemAsEventsJSON (item : QueryLogItem)
  : M (list string) unit :=
  λ items,
    match serializeQueryLogItemAsEvents item getArray with
    | (Err e, _) => (Err e, items)
    | (Ok _, doc) => (success, items ++ map write doc)
    end.

End Serialization.

(* ===================================================================== *)
(** ** Reading a log item back *)
(* ===================================================================== *)

(** Modelled from the spec: the accessors of a JSON value (rapidjson, behind
    [osquery/utils/json/json.h], is not under src/).  Asking an object for a
    member it does not have, or a value for what it does not hold, trips an
    assertion of the library. *)
Definition member (key : string) (obj : Members) : Result JSONValue :=
  match find_member key obj with
  | Some v => Ok v
  | None => Err (Exception "rapidjson: no such member")
  end.

(** Modelled from the spec: [value.GetString()]. *)
Definition GetString (v : JSONValue) : Result string :=
  match v with
  | JString s => Ok s
  | _ => Err (Exception "rapidjson: not a string")
  end.

(** Modelled from the spec: [value.GetUint64()]. *)
Definition GetUint64 (v : JSONValue) : Result Z :=
  match v with
  | JInt z =>
      if (0 <=? z) && (z <=? ULLONG_MAX) then Ok z
      else Err (Exception "rapidjson: not a uint64")
  | _ => Err (Exception "rapidjson: not a uint64")
  end.

(** Modelled from the spec: [deserializeQueryData] into a vector
    ([osquery/core/sql/query_data.cpp] is not under src/): the rows of an
    array are appended one by one, and the rows read before a bad one stay.
    The state is the vector [qd]. *)
Fixpoint deserializeRows_vector (items : list JSONValue)
  : M QueryDataTyped unit :=
  match items with
  | [] => mret tt
  | i :: items' =>
      r ← reading (λ _, deserializeRow i);
      modify (λ qd, qd ++ [r]);;
      deserializeRows_vector items'
  end.

Definition deserializeQueryData_vector (arr : JSONValue)
  : M QueryDataTyped unit :=
  match arr with
  | JArray items => deserializeRows_vector items
  | _ => λ qd, (Err (StatusError 1 EmptyString), qd)
  end.

(** Run a computation on one list of a [DiffResults]. *)
Definition on_removed {A} (m : M QueryDataTyped A) : M DiffResults A :=
  λ dr, let '(r, l) := m (removed dr) in
        (r, {| added := added dr; removed := l |}).

Definition on_added {A} (m : M QueryDataTyped A) : M DiffResults A :=
  λ dr, let '(r, l) := m (added dr) in
        (r, {| added := l; removed := removed dr |}).

(** The state is the output [dr]. *)
Definition deserializeDiffResults (doc : JSONValue) : M DiffResults unit :=
  match doc with
  | JObject members =>
      (match find_member "removed" members with
       | Some v => on_removed (deserializeQueryData_vector v)
       | None => mret tt
       end);;
      (match find_member "added" members with
       | Some v => on_added (deserializeQueryData_vector v)
       | None => mret tt
       end)
  | _ => λ dr, (Err (StatusError 1 EmptyString), dr)
  end.

Definition set_name (s : string) (i : QueryLogItem) : QueryLogItem :=
  {| isSnapshot := isSnapshot i; results := results i;
     previous_remaining := previous_remaining i;
     snapshot_results := snapshot_results i; name := s;
     identifier := identifier i; time := time i; epoch := epoch i;
     previous_epoch := previous_epoch i; counter := counter i;
     previous_remaining_counter := previous_remaining_counter i;
     calendar_time := calendar_time i; decorations := decorations i |}.

Definition set_identifier (s : string) (i : QueryLogItem) : QueryLogItem :=
  {| isSnapshot := isSnapshot i; results := results i;
     previous_remaining := previous_remaining i;
     snapshot_results := snapshot_results i; name := name i;
     identifier := s; time := time i; epoch := epoch i;
     previous_epoch := previous_epoch i; counter := counter i;
     previous_remaining_counter := previous_remaining_counter i;
     calendar_time := calendar_time i; decorations := decorations i |}.

Definition set_calendar_time (s : string) (i : QueryLogItem) : QueryLogItem :=
  {| isSnapshot := isSnapshot i; results := results i;
     previous_remaining := previous_remaining i;
     snapshot_results := snapshot_results i; name := name i;
     identifier := identifier i; time := time i; epoch := epoch i;
     previous_epoch := previous_epoch i; counter := counter i;
     previous_remaining_counter := previous_remaining_counter i;
     calendar_time := s; decorations := decorations i |}.

Definition set_time (t : Z) (i : QueryLogItem) : QueryLogItem :=
  {| isSnapshot := isSnapshot i; results := results i;
     previous_remaining := previous_remaining i;
     snapshot_results := snapshot_results i; name := name i;
     identifier := identifier i; time := t; epoch := epoch i;
     previous_epoch := previous_epoch i; counter := counter i;
     previous_remaining_counter := previous_remaining_counter i;
     calendar_time := calendar_time i; decorations := decorations i |}.

Definition set_decorations (d : gmap string string) (i : QueryLogItem)
  : QueryLogItem :=
  {| isSnapshot := isSnapshot i; results := results i;
     previous_remaining := previous_remaining i;
     snapshot_results := snapshot_results i; name := name i;
     identifier := identifier i; time := time i; epoch := epoch i;
     previous_epoch := previous_epoch i; counter := counter i;
     previous_remaining_counter := previous_remaining_counter i;
     calendar_time := calendar_time i; decorations := d |}.

(** [item.decorations[i.name] = i.value.GetString()] for each member. *)
Fixpoint read_decorations (decs : Members) : M QueryLogItem unit :=
  match decs with
  | [] => mret tt
  | i :: decs' =>
      v ← reading (λ _, GetString i.2);
      modify (λ item, set_decorations (<[i.1 := v]> (decorations item)) item);;
      read_decorations decs'
  end.

(** The state is the output [item]. *)
Definition getLegacyFieldsAndDecorations (doc : Members)
  : M QueryLogItem unit :=
  (match find_member "decorations" doc with
   | Some (JObject decs) => read_decorations decs
   | _ => mret tt
   end);;
  v ← reading (λ _, member "name" doc ≫= GetString);
  modify (set_name v);;
  v ← reading (λ _, member "hostIdentifier" doc ≫= GetString);
  modify (set_identifier v);;
  v ← reading (λ _, member "calendarTime" doc ≫= GetString);
  modify (set_calendar_time v);;
  v ← reading (λ _, member "unixTime" doc ≫= GetUint64);
  modify (set_time v).

(** [QueryLogItem::operator==] and [operator!=]. *)
Definition QueryLogItem_equal (self comp : QueryLogItem) : bool :=
  bool_decide (results comp = results self)
  && bool_decide (name comp = name self).

Definition QueryLogItem_not_equal (self comp : QueryLogItem) : bool :=
  negb (QueryLogItem_equal self comp).

(* ===================================================================== *)
(** ** What the serializations are made of *)
(* ===================================================================== *)

Section Rendering.

Variables (numerics top_level : bool).

(** A row as [serializeRow] renders it into a fresh object. *)
Definition row_document (r : RowTyped) : JSONValue :=
  JObject (foldl (λ o kv, add kv.1 (serializeValue numerics kv.2) o)
             getObject (columns r)).

(** The document of one row in the event form. *)
Definition event_document (is_previous_remaining : bool)
    (item : QueryLogItem) (action : string) (row : JSONValue) : JSONValue :=
  JObject (add "action" (JString action)
             (serializeEvent numerics top_level is_previous_remaining item
                row getObject)).

(** The rows that one pass of the event form explodes. *)
Definition pass_events (is_previous_remaining : bool) (item : QueryLogItem)
  : list JSONValue :=
  let dr := if is_previous_remaining
            then previous_remaining item else results item in
  if diff_is_empty dr then
    map (event_document is_previous_remaining item "snapshot")
      (map row_document (snapshot_results item))
  else
    map (event_document is_previous_remaining item "removed")
      (map row_document (removed dr))
    ++ map (event_document is_previous_remaining item "added")
         (map row_document (added dr)).

End Rendering.

(** The epoch, previous epoch and counter a document carries: those of the
    previous-remaining track or those of the current track. *)
Definition carries_track (is_previous_remaining : bool) (item : QueryLogItem)
    (doc : Members) : Prop :=
  find_member "epoch" doc
  = Some (JInt (if is_previous_remaining
                then previous_epoch item else epoch item))
  ∧ find_member "previous_epoch" doc = Some (JInt (previous_epoch item))
  ∧ find_member "counter" doc
    = Some (JInt (if is_previous_remaining
                  then previous_remaining_counter item else counter item)).

(** Decorations that are flattened into a document replace the members that
    have their names; this keeps them apart from the three above. *)
Definition decorations_apart (top_level : bool) (item : QueryLogItem) : Prop :=
  top_level = true →
  decorations item !! "epoch" = None
  ∧ decorations item !! "previous_epoch" = None
  ∧ decorations item !! "counter" = None.

Definition on_track (is_previous_remaining : bool) (item : QueryLogItem)
    (d : JSONValue) : Prop :=
  ∃ members, d = JObject members
             ∧ carries_track is_previous_remaining item members.

(* ===================================================================== *)
(** ** A counter on record *)
(* ===================================================================== *)

(** A counter is on record for the query and [std::stoull] reads it. *)
Definition counter_on_record (q : Query) (db : Database) : Prop :=
  ∃ raw n,
    table db !! (name_ q +:+ "counter") = Some raw ∧ stoull raw = Ok n.

(* ===================================================================== *)
(** ** The example of the specification *)
(* ===================================================================== *)

(** Query "q1", its rows, and an item as the scheduler hands it over: default
    constructed, with the epoch set. *)
Definition q1 : Query := {| query_ := "select a from t"; name_ := "q1" |}.
Definition row_a1 : RowTyped := {[ "a" := TText "1" ]}.
Definition row_a2 : RowTyped := {[ "a" := TText "2" ]}.
Definition row_a3 : RowTyped := {[ "a" := TText "3" ]}.
Definition item_at (e : Z) : QueryLogItem := set_epoch e (default_item false 0).

(** The store once "q1" has been committed at epoch 1 with no rows. *)
Definition stored_q1 : Database :=
  holding {[ "q1" := "[]"; "q1epoch" := "1"; "q1counter" := "0";
             "query.q1" := "select a from t" ]}.

(** "q1" with its text edited. *)
Definition q1_edited : Query :=
  {| query_ := "select a, b from t"; name_ := "q1" |}.

(** The store and the item after "q1" is first committed, at epoch 1 with
    the single row [{a:"1"}]. *)
Definition first_commit : Result unit * (Database * QueryLogItem) :=
  addNewResults q1 [row_a1] true (holding ∅, item_at 1).

(** The second commit of the example: epoch 1 again, now with the rows
    [{a:"1"}] and [{a:"2"}]. *)
Definition second_commit : Result unit * (Database * QueryLogItem) :=
  addNewResults q1 [row_a1; row_a2] true (first_commit.2.1, item_at 1).

(** The text of the result set [[{a:"1"}]]. *)
Definition one_row_json : string :=
  write (JArray [JObject [("a", JString "1")]]).

(** "q1", on record at epoch 1 with the row [{a:"1"}], is committed at
    epoch 2 with the rows [{a:"1"}] and [{a:"3"}]. *)
Definition epoch_change : Result unit * (Database * QueryLogItem) :=
  addNewResults q1 [row_a1; row_a3] true (first_commit.2.1, item_at 2).

(** The item an unchanged poll of "q1" hands back: nothing in the primary
    result, nothing in [previous_remaining], no snapshot rows. *)
Definition unchanged_poll : Result unit * (Database * QueryLogItem) :=
  addNewResults q1 [row_a1] true (first_commit.2.1, item_at 1).

(** "q1" is first met by [addNewEvents], with no rows: a result set is on
    record afterwards, and no counter.  The commit that follows opens
    epoch 2 with the row [{a:"1"}]. *)
Definition no_counter_yet : Database :=
  (addNewEvents q1 [] (holding ∅, item_at 1)).2.1.

Definition first_flush : Result unit * (Database * QueryLogItem) :=
  addNewResults q1 [row_a1] true (no_counter_yet, item_at 2).

(** "q1" is on record at epoch 5 with the row [{a:"1"}], and is committed
    at epoch 3 with the rows [{a:"1"}] and [{a:"3"}]. *)
Definition earlier_epoch : Result unit * (Database * QueryLogItem) :=
  addNewResults q1 [row_a1; row_a3] true
    (holding {[ "q1" := one_row_json; "q1epoch" := "5"; "q1counter" := "4";
                "query.q1" := "select a from t" ]},
     item_at 3).

(** Items with decorations that take the names of members of a document:
    the item of the epoch change with "epoch" and "counter", the item of an
    unchanged poll with "snapshot" and "action". *)
Definition masked_track : QueryLogItem :=
  set_decorations {[ "epoch" := "none"; "counter" := "none" ]}
    epoch_change.2.2.

Definition masked_snapshot : QueryLogItem :=
  set_decorations {[ "snapshot" := "none"; "action" := "none" ]}
    unchanged_poll.2.2.

(* ===================================================================== *)
(** ** The writes of a commit, and further stores and items *)
(* ===================================================================== *)

(** What [getQueryStatus] finds for a commit of [item]: whether it stores
    the query text (the name is not on record, or the epoch is the one on
    record and the text is not), and whether the commit opens an epoch (the
    name is not on record, or the epoch is not the one on record). *)
Definition stores_text (q : Query) (item : QueryLogItem) (db : Database)
  : bool :=
  negb (isQueryNameInDatabase q db)
  || (bool_decide (getPreviousEpoch q db = Ok (epoch item))
      && isNewQuery q db).

Definition opens_epoch (q : Query) (item : QueryLogItem) (db : Database)
  : bool :=
  negb (isQueryNameInDatabase q db)
  || bool_decide (getPreviousEpoch q db ≠ Ok (epoch item)).

(** The text, the flushed counter and the counter among the writes of a
    commit on [db] that handed back [item']. *)
Definition text_written (q : Query) (item : QueryLogItem) (db : Database)
  : bool :=
  stores_text q item db && bool_decide (next_write db = success).

Definition flush_written (q : Query) (item : QueryLogItem) (db : Database)
    (item' : QueryLogItem) : option Z :=
  if opens_epoch q item db && negb (diff_is_empty (previous_remaining item'))
  then Some (previous_remaining_counter item') else None.

(** The store after the writes of [l], oldest first. *)
Definition replay (l : list (string * string)) (db : Database) : Database :=
  foldl (λ d kv, written kv.1 kv.2 d) db l.

(** The writes of a commit that writes: the query text when it is stored,
    the result set and the epoch, the counter of the rows flushed from the
    previous epoch when there is one, and the counter. *)
Definition commit_writes (q : Query) (item : QueryLogItem) (json : string)
    (text : bool) (flush : option Z) (c : Z) : list (string * string) :=
  (if text then [("query." +:+ name_ q, query_ q)] else [])
  ++ [(name_ q, json); (name_ q +:+ "epoch", to_string (epoch item))]
  ++ match flush with
     | Some c' => [(name_ q +:+ "counter", to_string c')]
     | None => []
     end
  ++ [(name_ q +:+ "counter", to_string c)].

(** Stores on which "q1" is on record at epoch 1 with something that cannot
    be read: the epoch, the result set, the counter. *)
Definition unreadable_epoch_db : Database :=
  holding {[ "q1" := "[]"; "q1epoch" := "one" ]}.

Definition unreadable_results_db : Database :=
  holding {[ "q1" := "oops"; "q1epoch" := "1";
             "query.q1" := "select a from t" ]}.

Definition unreadable_counter_db : Database :=
  holding {[ "q1" := "[]"; "q1epoch" := "1"; "q1counter" := "many";
             "query.q1" := "select a from t" ]}.

(** A store whose result set for "q1" cannot be read, with a counter that
    can. *)
Definition stale_db : Database :=
  holding {[ "q1" := "oops"; "q1epoch" := "1"; "q1counter" := "7";
             "query.q1" := "select a from t" ]}.

(** The number of rows that one pass of the event form reports. *)
Definition rows_reported (is_previous_remaining : bool) (item : QueryLogItem)
  : nat :=
  let dr := if is_previous_remaining
            then previous_remaining item else results item in
  if diff_is_empty dr then List.length (snapshot_results item)
  else (List.length (removed dr) + List.length (added dr))%nat.

(** A document of the event form: it names its action and carries the
    columns of one row of the item that the action reports. *)
Definition event_of (numerics : bool) (item : QueryLogItem) (d : JSONValue)
  : Prop :=
  ∃ members action r,
    d = JObject members
    ∧ find_member "action" members = Some (JString action)
    ∧ find_member "columns" members = Some (row_document numerics r)
    ∧ ((action = "removed"
        ∧ r ∈ removed (previous_remaining item) ++ removed (results item))
       ∨ (action = "added"
          ∧ r ∈ added (previous_remaining item) ++ added (results item))
       ∨ (action = "snapshot" ∧ r ∈ snapshot_results item)).

(** An item for "q1" that reports one added row and carries two
    decorations, one of them named as a legacy field. *)
Definition decorated_item : QueryLogItem :=
  set_decorations {[ "name" := "spoofed"; "site" := "lab" ]}
    (set_name "q1" (set_results_added [row_a1] (item_at 1))).

(** The fields of an item that say what it is about, as opposed to the
    results and counters that a commit fills in. *)
Definition same_subject (item item' : QueryLogItem) : Prop :=
  isSnapshot item' = isSnapshot item
  ∧ snapshot_results item' = snapshot_results item
  ∧ name item' = name item
  ∧ identifier item' = identifier item
  ∧ time item' = time item
  ∧ epoch item' = epoch item
  ∧ calendar_time item' = calendar_time item
  ∧ decorations item' = decorations item.

Arguments getPreviousEpoch : simpl never.
Arguments getQueryCounter : simpl never.
Arguments getQueryStatus : simpl never.
Arguments getPreviousQueryResults : simpl never.
Arguments serializeQueryDataJSON : simpl never.
Arguments diff : simpl never.
Arguments to_string : simpl never.
Arguments next_write : simpl never.
Arguments saveQuery : simpl never.

Ltac run_commit :=
  unfold addNewResults, query_status, by_reference, incrementCounter,
    the_item, update_item, on_fst, reading, modify, setDatabaseValue, mbind,
    M_bind, mret, M_ret;
  simpl.

(** The term that a computation which does not reduce waits for. *)
Ltac stuck_on t :=
  lazymatch t with
  | match ?x with _ => _ end => stuck_on x
  | (match ?x with _ => _ end) _ => stuck_on x
  | negb ?b => stuck_on b
  | ?b && _ => stuck_on b
  | ?b || _ => stuck_on b
  | _ => constr:(t)
  end.

(** One step along a commit whose run is the left-hand side of the goal:
    the outcomes of what it waits for, which is a write, a read of the
    counter or of the result set on record, a test for rows, or the
    serialization of the rows. *)
Ltac walk :=
  lazymatch goal with
  | |- ?run = _ → _ =>
      let x := stuck_on run in
      lazymatch x with
      | next_write ?d =>
          let Hw := fresh "Hw" in
          destruct (next_write d) as [[]|?] eqn:Hw; simpl
      | getQueryCounter ?q ?a ?n ?d =>
          let c := fresh "c" in
          let Hc := fresh "Hc" in
          destruct (getQueryCounter q a n d) as [c|?] eqn:Hc; simpl
      | getPreviousQueryResults ?q ?r ?d =>
          let previous_qd := fresh "previous_qd" in
          let Hres := fresh "Hres" in
          destruct (getPreviousQueryResults q r d) as [previous_qd|?]
            eqn:Hres; simpl
      | serializeQueryDataJSON ?rows ?numeric =>
          lazymatch goal with
          | H : serializeQueryDataJSON rows numeric = _ |- _ =>
              rewrite H; simpl
          end
      | bool_decide (?rows = []) =>
          let Hrows := fresh "Hrows" in
          destruct rows eqn:Hrows; simpl
      | _ => is_var x; destruct x; simpl
      end
  end.

(* ===================================================================== *)
(** * Properties *)
(* ===================================================================== *)

(** ** Keys of the store *)

Lemma append_inj_l (s t u : string) : s +:+ t = s +:+ u → t = u.
Proof.
  induction s as [|c s IH]; simpl; [done|].
  intros H. injection H as H. by apply IH.
Qed.

Lemma append_empty_r (s : string) : s +:+ EmptyString = s.
Proof.
  induction s as [|c s IH]; [done|].
  change (String c (s +:+ EmptyString) = String c s). by rewrite IH.
Qed.

Lemma append_suffix_neq (s t : string) : t ≠ EmptyString → s ≠ s +:+ t.
Proof.
  intros Ht H. apply Ht. apply (append_inj_l s).
  rewrite append_empty_r. by symmetry.
Qed.

Lemma name_neq_epoch_key (n : string) : n ≠ n +:+ "epoch".
Proof. by apply append_suffix_neq. Qed.

Lemma name_neq_counter_key (n : string) : n ≠ n +:+ "counter".
Proof. by apply append_suffix_neq. Qed.

Lemma epoch_key_neq_counter_key (n : string) :
  n +:+ "epoch" ≠ n +:+ "counter".
Proof. intros H. by apply append_inj_l in H. Qed.

(** The four keys of a query are distinct. *)
Lemma length_append (s t : string) :
  String.length (s +:+ t) = (String.length s + String.length t)%nat.
Proof.
  induction s as [|c s IH]; [done|].
  change (String.length (String c (s +:+ t))
          = S (String.length s + String.length t)).
  simpl. by rewrite IH.
Qed.

Lemma text_key_neq_name (n : string) : "query." +:+ n ≠ n.
Proof.
  intros H. apply (f_equal String.length) in H.
  rewrite length_append in H. simpl in H. lia.
Qed.

Lemma text_key_neq_epoch_key (n : string) : "query." +:+ n ≠ n +:+ "epoch".
Proof.
  intros H. apply (f_equal String.length) in H.
  rewrite !length_append in H. simpl in H. lia.
Qed.

Lemma text_key_neq_counter_key (n : string) :
  "query." +:+ n ≠ n +:+ "counter".
Proof.
  intros H. apply (f_equal String.length) in H.
  rewrite !length_append in H. simpl in H. lia.
Qed.

(** A name is "in the database" exactly when a result set is stored under
    it. *)
Lemma isQueryNameInDatabase_lookup (q : Query) (db : Database) :
  isQueryNameInDatabase q db = true ↔ is_Some (table db !! name_ q).
Proof.
  unfold isQueryNameInDatabase, getStoredQueryNames, scanDatabaseKeys.
  rewrite bool_decide_eq_true, list_elem_of_fmap. split.
  - intros [[k v] [-> Hkv]]. apply elem_of_map_to_list in Hkv. by exists v.
  - intros [v Hv]. exists (name_ q, v). split; [done|].
    by apply elem_of_map_to_list.
Qed.

Lemma isQueryNameInDatabase_absent (q : Query) (db : Database) :
  isQueryNameInDatabase q db = false ↔ table db !! name_ q = None.
Proof.
  rewrite <- not_true_iff_false, isQueryNameInDatabase_lookup.
  by rewrite eq_None_not_Some.
Qed.

(** The query text on record, empty when there is none. *)
Lemma isNewQuery_lookup (q : Query) (db : Database) :
  isNewQuery q db = true
  ↔ default EmptyString (table db !! ("query." +:+ name_ q)) ≠ query_ q.
Proof.
  unfold isNewQuery, getDatabaseValue. rewrite bool_decide_eq_true.
  by destruct (table db !! _).
Qed.

(** ** The differencing engine

    [diff] meets the contract it is specified by: a row is added as often
    as its multiplicity among the current rows exceeds the one in the
    previous set, and removed as often as the latter exceeds the former. *)

Lemma diff_rows_multisets (old : QueryDataSet) (current acc : QueryDataTyped) :
  (diff_rows old current acc).1 = old ∖ list_to_set_disj current
  ∧ list_to_set_disj (diff_rows old current acc).2
    =@{QueryDataSet} list_to_set_disj acc ⊎ (list_to_set_disj current ∖ old).
Proof.
  revert old acc. induction current as [|i rest IH]; intros old acc; simpl.
  - split; [multiset_solver|].
    rewrite reverse_Permutation. multiset_solver.
  - case_decide as Hin.
    + destruct (IH (old ∖ {[+ i +]}) acc) as [-> ->].
      split; multiset_solver.
    + destruct (IH old (i :: acc)) as [-> ->]. simpl.
      split; multiset_solver.
Qed.

Lemma elements_as_multiset (X : QueryDataSet) :
  list_to_set_disj (elements X) = X.
Proof.
  induction X as [|x X IH] using gmultiset_ind.
  - by rewrite gmultiset_elements_empty.
  - rewrite gmultiset_elements_disj_union, gmultiset_elements_singleton.
    simpl. by rewrite IH.
Qed.

Lemma diff_multisets (old : QueryDataSet) (current : QueryDataTyped) :
  list_to_set_disj (added (diff old current))
  =@{QueryDataSet} list_to_set_disj current ∖ old
  ∧ list_to_set_disj (removed (diff old current))
    =@{QueryDataSet} old ∖ list_to_set_disj current.
Proof.
  unfold diff.
  pose proof (diff_rows_multisets old current []) as [Hold Hadded].
  destruct (diff_rows old current []) as [leftover r_added]. simpl in *.
  split.
  - rewrite Hadded. multiset_solver.
  - by rewrite elements_as_multiset, Hold.
Qed.

Lemma diff_multiplicity (old : QueryDataSet) (current : QueryDataTyped)
    (r : RowTyped) :
  let before := multiplicity r old in
  let after := multiplicity r (list_to_set_disj current : QueryDataSet) in
  multiplicity r (list_to_set_disj (added (diff old current)) : QueryDataSet)
  = (after - before)%nat
  ∧ multiplicity r
      (list_to_set_disj (removed (diff old current)) : QueryDataSet)
    = (before - after)%nat.
Proof.
  destruct (diff_multisets old current) as [-> ->].
  by rewrite !multiplicity_difference.
Qed.

Lemma empty_as_multiset (rows : QueryDataTyped) :
  list_to_set_disj rows =@{QueryDataSet} ∅ → rows = [].
Proof.
  destruct rows as [|r rows]; [done|]. simpl. intros Hempty.
  assert (r ∈@{QueryDataSet} ∅) as Hr by (rewrite <- Hempty; multiset_solver).
  multiset_solver.
Qed.

(** Rows that are exactly the previous set differ from it in nothing. *)
Lemma diff_same (rows : QueryDataTyped) :
  diff (list_to_set_disj rows) rows = no_results.
Proof.
  destruct (diff_multisets (list_to_set_disj rows) rows) as [Hadded Hremoved].
  destruct (diff (list_to_set_disj rows) rows) as [r_added r_removed].
  simpl in *. unfold no_results. f_equal; apply empty_as_multiset.
  - rewrite Hadded. multiset_solver.
  - rewrite Hremoved. multiset_solver.
Qed.

(** ** [std::stoull] stays within [uint64_t] *)

Lemma read_digits_nonneg (s : string) (acc : Z) (seen : bool) :
  0 ≤ acc → 0 ≤ (read_digits s acc seen).1.
Proof.
  revert acc seen. induction s as [|c s IH]; intros acc seen Hacc; simpl.
  - done.
  - destruct (digit_of c) as [d|] eqn:Hd; [|done].
    apply IH. unfold digit_of in Hd.
    destruct (_ && _) eqn:Hc; [|done].
    apply andb_prop in Hc as [H1 H2]. injection Hd as <-. lia.
Qed.

Lemma wrap64_range (z : Z) : 0 ≤ wrap64 z ≤ ULLONG_MAX.
Proof.
  unfold wrap64, ULLONG_MAX, uint64_modulus.
  pose proof (Z.mod_pos_bound z (2 ^ 64)). lia.
Qed.

Lemma stoull_range (raw : string) (n : Z) :
  stoull raw = Ok n → 0 ≤ n ≤ ULLONG_MAX.
Proof.
  unfold stoull.
  destruct (match skip_spaces raw with
            | String "-" s' => (true, s')
            | String "+" s' => (false, s')
            | _ => (false, skip_spaces raw)
            end) as [negative body].
  pose proof (read_digits_nonneg body 0 false) as Hpos.
  destruct (read_digits body 0 false) as [magnitude seen]. simpl in Hpos.
  destruct (negb seen); [done|].
  destruct (ULLONG_MAX <? magnitude) eqn:Hmax; [done|].
  apply Z.ltb_ge in Hmax.
  destruct negative; intros [= <-]; [apply wrap64_range | lia].
Qed.

(** ** What [std::to_string] writes, [std::stoull] reads back *)

Lemma read_digits_acc (d : Decimal.uint) (acc : positive) (seen : bool) :
  read_digits (NilEmpty.string_of_uint d) (Z.pos acc) seen
  = (Z.pos (Pos.of_uint_acc d acc), some_digit d seen).
Proof.
  revert acc seen.
  induction d as [|d IH|d IH|d IH|d IH|d IH|d IH|d IH|d IH|d IH|d IH];
    intros acc seen; [done|..];
    cbn [NilEmpty.string_of_uint read_digits Pos.of_uint_acc some_digit];
    match goal with
    | |- context [digit_of ?c] =>
        change (digit_of c) with (Some (Z.of_N (N_of_ascii c) - 48))
    end;
    cbn [N_of_ascii N_of_digits Z.of_N];
    match goal with
    | |- read_digits _ ?a true = (Z.pos (Pos.of_uint_acc _ ?p), _) =>
        replace a with (Z.pos p) by lia
    end;
    rewrite IH; by destruct d.
Qed.

Lemma read_digits_of_uint (d : Decimal.uint) (seen : bool) :
  read_digits (NilEmpty.string_of_uint d) 0 seen
  = (Z.of_N (Pos.of_uint d), some_digit d seen).
Proof.
  revert seen.
  induction d as [|d IH|d IH|d IH|d IH|d IH|d IH|d IH|d IH|d IH|d IH];
    intros seen; [done| |..].
  { cbn [NilEmpty.string_of_uint read_digits Pos.of_uint some_digit].
    change (digit_of "0") with (Some 0). cbv beta iota.
    change (10 * 0 + 0) with 0. rewrite IH. by destruct d. }
  all: cbn [NilEmpty.string_of_uint read_digits Pos.of_uint some_digit];
    match goal with
    | |- context [digit_of ?c] =>
        change (digit_of c) with (Some (Z.of_N (N_of_ascii c) - 48))
    end;
    cbn [N_of_ascii N_of_digits Z.of_N];
    match goal with
    | |- read_digits _ ?a true = (Z.pos (Pos.of_uint_acc _ ?p), _) =>
        replace a with (Z.pos p) by lia
    end;
    rewrite read_digits_acc; by destruct d.
Qed.

Lemma stoull_to_string (n : Z) :
  0 ≤ n ≤ ULLONG_MAX → stoull (to_string n) = Ok n.
Proof.
  intros Hn. unfold to_string.
  set (d := N.to_uint (Z.to_N n)).
  assert (d ≠ Decimal.Nil) as Hd.
  { unfold d, N.to_uint. destruct (Z.to_N n); [done|].
    apply DecimalPos.Unsigned.to_uint_nonnil. }
  assert (Z.of_N (Pos.of_uint d) = n) as Hvalue.
  { unfold d. change (Pos.of_uint (N.to_uint (Z.to_N n)))
      with (N.of_uint (N.to_uint (Z.to_N n))).
    rewrite DecimalN.Unsigned.of_to. lia. }
  assert (NilZero.string_of_uint d = NilEmpty.string_of_uint d) as ->
    by by destruct d.
  unfold stoull.
  assert (skip_spaces (NilEmpty.string_of_uint d) = NilEmpty.string_of_uint d)
    as -> by by destruct d.
  assert (match NilEmpty.string_of_uint d with
          | String "-" s' => (true, s')
          | String "+" s' => (false, s')
          | _ => (false, NilEmpty.string_of_uint d)
          end = (false, NilEmpty.string_of_uint d)) as -> by by destruct d.
  rewrite read_digits_of_uint, Hvalue.
  assert (some_digit d false = true) as -> by by destruct d.
  simpl. destruct (ULLONG_MAX <? n) eqn:Hmax; [|done].
  apply Z.ltb_lt in Hmax. lia.
Qed.


(** A stored value that does not start with a number makes [std::stoull]
    raise, and the exception leaves [getQueryCounter]. *)
Example getQueryCounter_raises :
  getQueryCounter {| query_ := "select 1"; name_ := "q1" |} false false
    (holding {[ "q1counter" := "abc" ]})
  = Err (Exception "invalid_argument").
Proof. by vm_compute. Qed.

(* ===================================================================== *)
(** ** The counter *)
(* ===================================================================== *)

(** C1, as stated, fails.  With no counter on record and neither flag set,
    [getQueryCounter] returns 0: the 1 is only added to a counter that was
    read. *)
Lemma getQueryCounter_absent_not_one :
  table (holding ∅) !! (name_ q1 +:+ "counter") = None
  ∧ getQueryCounter q1 false false (holding ∅) = Ok 0
  ∧ getQueryCounter q1 false false (holding ∅) ≠ Ok 1.
Proof. by vm_compute. Qed.

(** C1, amended.  [getQueryCounter] returns 0 when [all_records] is set,
    whatever is on record; 1 when [all_records] is not set and [new_query]
    is; otherwise one more, in [uint64_t], than the counter on record when
    [std::stoull] reads one, and 0 when no counter is on record. *)
Theorem getQueryCounter_cases (q : Query) (db : Database) :
  (∀ new_query, getQueryCounter q true new_query db = Ok 0)
  ∧ getQueryCounter q false true db = Ok 1
  ∧ (table db !! (name_ q +:+ "counter") = None →
     getQueryCounter q false false db = Ok 0)
  ∧ (∀ raw n,
       table db !! (name_ q +:+ "counter") = Some raw → stoull raw = Ok n →
       getQueryCounter q false false db = Ok (wrap64 (n + 1))).
Proof.
  unfold getQueryCounter, getDatabaseValue. repeat split.
  - intros H. by rewrite H.
  - intros raw n Hraw Hn. by rewrite Hraw, Hn.
Qed.

Lemma getQueryCounter_cases_witness :
  getQueryCounter q1 true false (holding {[ "q1counter" := "41" ]}) = Ok 0
  ∧ getQueryCounter q1 false true (holding {[ "q1counter" := "41" ]}) = Ok 1
  ∧ getQueryCounter q1 false false (holding ∅) = Ok 0
  ∧ getQueryCounter q1 false false (holding {[ "q1counter" := "41" ]})
    = Ok (wrap64 (41 + 1)).
Proof.
  pose proof (getQueryCounter_cases q1 (holding {[ "q1counter" := "41" ]}))
    as (Hall & Hnew & _ & Hnext).
  pose proof (getQueryCounter_cases q1 (holding ∅)) as (_ & _ & Hnone & _).
  split; [apply Hall|]. split; [apply Hnew|].
  split; [apply Hnone; reflexivity|].
  apply (Hnext "41"); reflexivity.
Defined.

(* ===================================================================== *)
(** ** The status of a query *)
(* ===================================================================== *)

(** [saveQuery] always returns; the store holds the text afterwards when
    it took the write. *)
Lemma saveQuery_run (name query : string) (db : Database) :
  saveQuery name query db = (Ok tt, (saveQuery name query db).2).
Proof.
  unfold saveQuery, setDatabaseValue. by destruct (next_write db).
Qed.

Lemma saveQuery_taken (name query : string) (db : Database) :
  next_write db = success →
  (saveQuery name query db).2 = written ("query." +:+ name) query db.
Proof. intros H. unfold saveQuery, setDatabaseValue. by rewrite H. Qed.

Lemma saveQuery_refused (name query : string) (db : Database) (e : Failure) :
  next_write db = Err e → (saveQuery name query db).2 = refused db.
Proof. intros H. unfold saveQuery, setDatabaseValue. by rewrite H. Qed.

Lemma saveQuery_store (name query : string) (db : Database) :
  (saveQuery name query db).2
  = match next_write db with
    | Ok _ => written ("query." +:+ name) query db
    | Err _ => refused db
    end.
Proof. unfold saveQuery, setDatabaseValue. by destruct (next_write db). Qed.

Section QueryStatus.

Variables (q : Query) (current_epoch : Z) (db : Database).

(** The epoch on record, as [getPreviousEpoch] reads it. *)
Variable previous : Z.
Hypothesis previous_read : getPreviousEpoch q db = Ok previous.

Lemma getQueryStatus_first_encounter (new_epoch new_query : bool) :
  table db !! name_ q = None →
  getQueryStatus q current_epoch new_epoch new_query db
  = (Ok (previous, true, true), (saveQuery (name_ q) (query_ q) db).2).
Proof.
  intros Hnone. apply isQueryNameInDatabase_absent in Hnone.
  unfold getQueryStatus, mbind, M_bind, reading.
  rewrite previous_read, Hnone. simpl. by rewrite saveQuery_run.
Qed.

Lemma getQueryStatus_epoch_differs (new_epoch new_query : bool) :
  is_Some (table db !! name_ q) → previous ≠ current_epoch →
  getQueryStatus q current_epoch new_epoch new_query db
  = (Ok (previous, true, new_query), db).
Proof.
  intros Hin Hne. apply isQueryNameInDatabase_lookup in Hin.
  unfold getQueryStatus, mbind, M_bind, reading.
  rewrite previous_read, Hin. simpl. by rewrite bool_decide_eq_true_2.
Qed.

Lemma getQueryStatus_query_differs (new_epoch new_query : bool) :
  is_Some (table db !! name_ q) → previous = current_epoch →
  default EmptyString (table db !! ("query." +:+ name_ q)) ≠ query_ q →
  getQueryStatus q current_epoch new_epoch new_query db
  = (Ok (previous, new_epoch, true), (saveQuery (name_ q) (query_ q) db).2).
Proof.
  intros Hin Heq Hnew. apply isQueryNameInDatabase_lookup in Hin.
  apply isNewQuery_lookup in Hnew.
  unfold getQueryStatus, mbind, M_bind, reading.
  rewrite previous_read, Hin. simpl.
  rewrite bool_decide_eq_false_2 by (intros ?; done).
  rewrite Hnew. by rewrite saveQuery_run.
Qed.

Lemma getQueryStatus_unchanged (new_epoch new_query : bool) :
  is_Some (table db !! name_ q) → previous = current_epoch →
  default EmptyString (table db !! ("query." +:+ name_ q)) = query_ q →
  getQueryStatus q current_epoch new_epoch new_query db
  = (Ok (previous, new_epoch, new_query), db).
Proof.
  intros Hin Heq Hsame. apply isQueryNameInDatabase_lookup in Hin.
  assert (isNewQuery q db = false) as Hold.
  { apply not_true_iff_false. rewrite isNewQuery_lookup. by intros []. }
  unfold getQueryStatus, mbind, M_bind, reading.
  rewrite previous_read, Hin. simpl.
  rewrite bool_decide_eq_false_2 by (intros ?; done).
  by rewrite Hold.
Qed.

End QueryStatus.

(** C8.  A call of [getQueryStatus] whose flags come in as [new_epoch] and
    [new_query] (both false at every call site):
    - when nothing is stored under the name, it raises both flags and
      stores the query text;
    - otherwise, when the epoch on record differs from the current one, it
      raises [new_epoch] only and writes nothing;
    - otherwise, when the query text on record differs from the configured
      one, it raises [new_query] and stores the new text;
    - otherwise it leaves both flags as they came and writes nothing.
    Storing the text is [saveQuery], which drops the status of the write:
    the store holds the text afterwards when it took the write, and is
    left as it was when it refused it; the flags are the same either way. *)
Theorem getQueryStatus_rules (q : Query) (current_epoch previous : Z)
    (new_epoch new_query : bool) (db : Database)
    (Hprevious : getPreviousEpoch q db = Ok previous) :
  let run := getQueryStatus q current_epoch new_epoch new_query db in
  let text_key := "query." +:+ name_ q in
  let saved := (saveQuery (name_ q) (query_ q) db).2 in
  (table db !! name_ q = None → run = (Ok (previous, true, true), saved))
  ∧ (is_Some (table db !! name_ q) → previous ≠ current_epoch →
     run = (Ok (previous, true, new_query), db))
  ∧ (is_Some (table db !! name_ q) → previous = current_epoch →
     default EmptyString (table db !! text_key) ≠ query_ q →
     run = (Ok (previous, new_epoch, true), saved))
  ∧ (is_Some (table db !! name_ q) → previous = current_epoch →
     default EmptyString (table db !! text_key) = query_ q →
     run = (Ok (previous, new_epoch, new_query), db))
  ∧ saved = match next_write db with
            | Ok _ => written text_key (query_ q) db
            | Err _ => refused db
            end.
Proof.
  simpl. split_and!.
  - by apply getQueryStatus_first_encounter.
  - by apply getQueryStatus_epoch_differs.
  - by apply getQueryStatus_query_differs.
  - by apply getQueryStatus_unchanged.
  - apply saveQuery_store.
Qed.

Lemma getQueryStatus_rules_witness :
  getQueryStatus q1 1 false false (holding ∅)
  = (Ok (0, true, true), written "query.q1" "select a from t" (holding ∅))
  ∧ getQueryStatus q1 2 false false stored_q1
    = (Ok (1, true, false), stored_q1)
  ∧ getQueryStatus q1_edited 1 false false stored_q1
    = (Ok (1, false, true),
       written "query.q1" "select a, b from t" stored_q1)
  ∧ getQueryStatus q1 1 false false stored_q1
    = (Ok (1, false, false), stored_q1).
Proof.
  pose proof (getQueryStatus_rules q1 1 0 false false (holding ∅) eq_refl)
    as (Hfirst & _).
  pose proof (getQueryStatus_rules q1 2 1 false false stored_q1 eq_refl)
    as (_ & Hepoch & _).
  pose proof (getQueryStatus_rules q1_edited 1 1 false false stored_q1 eq_refl)
    as (_ & _ & Hquery & _).
  pose proof (getQueryStatus_rules q1 1 1 false false stored_q1 eq_refl)
    as (_ & _ & _ & Hsame).
  split; [apply Hfirst; reflexivity|].
  split; [apply Hepoch; [by eexists | discriminate]|].
  split; [apply Hquery; [by eexists | reflexivity | discriminate]|].
  apply Hsame; [by eexists | reflexivity | reflexivity].
Defined.

(** C9.  Once a result set is stored under the name, one call of
    [getQueryStatus] (flags coming in false) never raises both flags; and
    when the epoch on record differs from the current one it raises
    [new_epoch] alone and leaves the store, journal included, as it was, so
    a query text that changed at the same time is neither flagged nor
    stored. *)
Theorem getQueryStatus_epoch_first (q : Query) (current_epoch previous : Z)
    (db : Database)
    (Hstored : is_Some (table db !! name_ q))
    (Hprevious : getPreviousEpoch q db = Ok previous) :
  ∃ new_epoch new_query db',
    getQueryStatus q current_epoch false false db
    = (Ok (previous, new_epoch, new_query), db')
    ∧ ¬ (new_epoch = true ∧ new_query = true)
    ∧ (previous ≠ current_epoch →
       new_epoch = true ∧ new_query = false ∧ db' = db).
Proof.
  destruct (decide (previous = current_epoch)) as [Heq|Hne].
  - destruct (decide (default EmptyString
                        (table db !! ("query." +:+ name_ q))
                      = query_ q)) as [Hsame|Hnew].
    + eexists _, _, _. split.
      * by apply getQueryStatus_unchanged.
      * split; [by intros [? ?] | done].
    + eexists _, _, _. split.
      * by apply getQueryStatus_query_differs.
      * split; [by intros [? ?] | done].
  - eexists _, _, _. split.
    + by apply getQueryStatus_epoch_differs.
    + split; [by intros [? ?] | done].
Qed.

Lemma getQueryStatus_epoch_first_witness :
  ∃ new_epoch new_query db',
    getQueryStatus q1_edited 2 false false stored_q1
    = (Ok (1, new_epoch, new_query), db')
    ∧ ¬ (new_epoch = true ∧ new_query = true)
    ∧ (1 ≠ 2 →
       new_epoch = true ∧ new_query = false ∧ db' = stored_q1).
Proof.
  apply (getQueryStatus_epoch_first q1_edited 2 1 stored_q1).
  - by eexists.
  - reflexivity.
Defined.

(* ===================================================================== *)
(** ** Committing polled results *)
(* ===================================================================== *)

Lemma serializeQueryData_ok (rows : QueryDataTyped) (arr : list JSONValue)
    (asNumeric : bool) :
  ∃ arr', serializeQueryData rows arr asNumeric = Ok arr'.
Proof.
  revert arr. induction rows as [|r rows IH]; intros arr; simpl; eauto.
Qed.

Lemma serializeQueryDataJSON_ok (rows : QueryDataTyped) (asNumeric : bool) :
  ∃ json, serializeQueryDataJSON rows asNumeric = Ok json.
Proof.
  unfold serializeQueryDataJSON, toString.
  destruct (serializeQueryData_ok rows getArray asNumeric) as [arr ->]. eauto.
Qed.

(** A result set can only be read back for a name that is in the store. *)
Lemma getPreviousQueryResults_stored (q : Query) (db : Database)
    (previous_qd : QueryDataSet) :
  getPreviousQueryResults q ∅ db = Ok previous_qd →
  is_Some (table db !! name_ q).
Proof.
  unfold getPreviousQueryResults, getDatabaseValue.
  destruct (table db !! name_ q); [by eexists | done].
Qed.

Lemma diff_is_empty_true (dr : DiffResults) :
  diff_is_empty dr = true ↔ added dr = [] ∧ removed dr = [].
Proof.
  unfold diff_is_empty.
  destruct (added dr), (removed dr); split; try done; by intros [? ?].
Qed.

(** C3.  A commit with [calculate_diff] set, for a query whose text is the
    one on record, at the epoch on record, and whose rows differ in nothing
    from the result set on record, succeeds without any write to the store:
    the store, journal of writes included, is the one it started from, so
    the result set, the epoch and the counter on record are untouched.  The
    item comes back with an empty primary differential, and with the counter
    it came with. *)
Theorem addNewResults_unchanged_poll (q : Query) (current : QueryDataTyped)
    (item : QueryLogItem) (db : Database) (previous_qd : QueryDataSet)
    (Hepoch : getPreviousEpoch q db = Ok (epoch item))
    (Htext : default EmptyString (table db !! ("query." +:+ name_ q))
             = query_ q)
    (Hprevious : getPreviousQueryResults q ∅ db = Ok previous_qd)
    (Hsame : diff_is_empty (diff previous_qd current) = true) :
  ∃ item',
    addNewResults q current true (db, item) = (success, (db, item'))
    ∧ results item' = diff previous_qd current
    ∧ added (results item') = [] ∧ removed (results item') = []
    ∧ counter item' = counter item.
Proof.
  pose proof (getPreviousQueryResults_stored _ _ _ Hprevious) as Hin.
  pose proof (getQueryStatus_unchanged q (epoch item) db (epoch item)
                Hepoch false false Hin eq_refl Htext) as Hstatus.
  apply diff_is_empty_true in Hsame as [Hadded Hremoved].
  eexists. split.
  - run_commit. rewrite Hstatus. simpl. rewrite Hprevious. simpl.
    rewrite Hadded, Hremoved. simpl. reflexivity.
  - by simpl.
Qed.

Lemma addNewResults_unchanged_poll_witness :
  ∃ item',
    addNewResults q1 [row_a1] true (first_commit.2.1, item_at 1)
    = (success, (first_commit.2.1, item'))
    ∧ results item' = diff {[+ row_a1 +]} [row_a1]
    ∧ added (results item') = [] ∧ removed (results item') = []
    ∧ counter item' = counter (item_at 1).
Proof.
  apply (addNewResults_unchanged_poll q1 [row_a1] (item_at 1)
           first_commit.2.1 {[+ row_a1 +]}).
  - compute_done.
  - compute_done.
  - compute_done.
  - compute_done.
Defined.

(* ===================================================================== *)
(** ** Writes that the store may refuse *)
(* ===================================================================== *)

Lemma takes_next (n : nat) (db : Database) :
  takes (S n) db → next_write db = success.
Proof.
  unfold takes, next_write. destruct (pending db) as [|o l]; [done|].
  simpl. by intros [? _]%Forall_cons.
Qed.

Lemma takes_written (n : nat) (key value : string) (db : Database) :
  takes (S n) db → takes n (written key value db).
Proof.
  unfold takes. simpl. destruct (pending db) as [|o l]; simpl.
  - intros _. rewrite take_nil. constructor.
  - by intros [_ ?]%Forall_cons.
Qed.

Lemma takes_refused (n : nat) (db : Database) :
  takes (S n) db → takes n (refused db).
Proof. apply (takes_written n EmptyString EmptyString). Qed.

Lemma takes_holding (n : nat) (t : gmap string string) : takes n (holding t).
Proof. unfold takes. simpl. rewrite take_nil. constructor. Qed.

(** A refusal is one of the outcomes the store came with. *)
Lemma next_write_pending (db : Database) (e : Failure) :
  next_write db = Err e → Err e ∈ pending db.
Proof.
  unfold next_write. destruct (pending db) as [|o l]; [done|].
  intros ->. apply list_elem_of_here.
Qed.

Lemma elem_of_tail {A} (x : A) (l : list A) : x ∈ tail l → x ∈ l.
Proof. destruct l; [done|]. simpl. apply list_elem_of_further. Qed.

Lemma next_write_take (db : Database) (e : Failure) :
  next_write db = Err e → Err e ∈ take 1 (pending db).
Proof.
  unfold next_write. destruct (pending db) as [|o l]; [done|].
  intros ->. apply list_elem_of_here.
Qed.

Lemma elem_of_take_tail {A} (x : A) (n : nat) (l : list A) :
  x ∈ take n (tail l) → x ∈ take (S n) l.
Proof.
  destruct l; simpl; [by rewrite take_nil|]. apply list_elem_of_further.
Qed.

Lemma elem_of_take_le {A} (x : A) (m n : nat) (l : list A) :
  x ∈ take m l → (m ≤ n)%nat → x ∈ take n l.
Proof.
  intros Hx Hle. replace n with (m + (n - m))%nat by lia.
  rewrite <- take_take_drop. apply elem_of_app. by left.
Qed.

(** A store that takes its next [n] writes refuses none of them. *)
Lemma takes_no_refusal (n : nat) (db : Database) (e : Failure) :
  takes n db → Err e ∉ take n (pending db).
Proof.
  unfold takes. rewrite Forall_forall. intros Hall Hin.
  by specialize (Hall _ Hin).
Qed.

(** What the store will take, seen from the writes a commit made. *)
Ltac taken :=
  repeat match goal with
    | Ht : takes (S ?n) ?d |- _ =>
        lazymatch goal with
        | _ : next_write d = success |- _ => fail
        | _ => pose proof (takes_next n d Ht)
        end
    | Ht : takes (S ?n) ?d, Hw : context [written ?k ?v ?d] |- _ =>
        lazymatch goal with
        | _ : takes n (written k v d) |- _ => fail
        | _ => pose proof (takes_written n k v d Ht)
        end
    | Ht : takes (S ?n) ?d, Hw : context [refused ?d] |- _ =>
        lazymatch goal with
        | _ : takes n (refused d) |- _ => fail
        | _ => pose proof (takes_refused n d Ht)
        end
    end;
  unfold success in *.

(** The failure of a refused write is among the outcomes of the store the
    commit began with. *)
Ltac refusal :=
  match goal with
  | Hw : next_write _ = Err ?e |- Err ?e ∈ pending _ =>
      apply next_write_pending in Hw; simpl in Hw;
      repeat apply elem_of_tail in Hw; exact Hw
  end.

(** The failure of a refused write is among the first outcomes of the
    store the commit began with. *)
Ltac refusal_within :=
  match goal with
  | Hw : next_write _ = Err ?e |- Err ?e ∈ take _ (pending _) =>
      apply next_write_take in Hw; cbn [pending written refused] in Hw;
      repeat apply elem_of_take_tail in Hw;
      apply (elem_of_take_le _ _ _ _ Hw); lia
  end.

Lemma getQueryStatus_raises (q : Query) (current_epoch : Z)
    (new_epoch new_query : bool) (db : Database) (e : Failure) :
  getPreviousEpoch q db = Err e →
  getQueryStatus q current_epoch new_epoch new_query db = (Err e, db).
Proof.
  intros H. unfold getQueryStatus, mbind, M_bind, reading. by rewrite H.
Qed.

Lemma getQueryCounter_written (q : Query) (db : Database) (key value : string)
    (all_records new_query : bool) :
  key ≠ name_ q +:+ "counter" →
  getQueryCounter q all_records new_query (written key value db)
  = getQueryCounter q all_records new_query db.
Proof.
  intros Hkey. unfold getQueryCounter, getDatabaseValue. simpl.
  by rewrite lookup_insert_ne by done.
Qed.

Lemma getQueryCounter_refused (q : Query) (db : Database)
    (all_records new_query : bool) :
  getQueryCounter q all_records new_query (refused db)
  = getQueryCounter q all_records new_query db.
Proof. done. Qed.

Lemma getQueryCounter_range (q : Query) (all_records new_query : bool)
    (db : Database) (c : Z) :
  getQueryCounter q all_records new_query db = Ok c → 0 ≤ c ≤ ULLONG_MAX.
Proof.
  unfold getQueryCounter, getDatabaseValue.
  destruct all_records; [by intros [= <-]|].
  destruct new_query; [by intros [= <-]|].
  destruct (table db !! _) as [raw|]; [|by intros [= <-]].
  destruct (stoull raw); [|done]. intros [= <-]. apply wrap64_range.
Qed.

(** The cases of [getQueryStatus] at the head of a commit of [item] for [q]
    on [db]: the epoch on record cannot be read; the name is not on record;
    the epoch on record is another one; the query text on record is another
    one; nothing changed.  Where the query text is stored, the store takes
    the write or refuses it. *)
Ltac by_status q item db :=
  destruct (getPreviousEpoch q db) as [previous|err] eqn:Hprev;
  [ destruct (table db !! name_ q) as [stored|] eqn:Hname;
    [ assert (is_Some (table db !! name_ q)) as Hin by (by rewrite Hname);
      destruct (decide (previous = epoch item)) as [Heq|Hdiffers];
      [ destruct (decide (default EmptyString
                            (table db !! ("query." +:+ name_ q))
                          = query_ q)) as [Hsame|Hnew];
        [ rewrite (getQueryStatus_unchanged q (epoch item) db previous
                     Hprev false false Hin Heq Hsame)
        | rewrite (getQueryStatus_query_differs q (epoch item) db previous
                     Hprev false false Hin Heq Hnew), saveQuery_store;
          destruct (next_write db) as [[]|?] eqn:Htext ]
      | rewrite (getQueryStatus_epoch_differs q (epoch item) db previous
                   Hprev false false Hin Hdiffers) ]
    | rewrite (getQueryStatus_first_encounter q (epoch item) db previous
                 Hprev false false Hname), saveQuery_store;
      destruct (next_write db) as [[]|?] eqn:Htext ]
  | rewrite (getQueryStatus_raises _ _ _ _ _ _ Hprev) ];
  simpl.

(** The counter read of a commit is a read of the store it began with as
    long as no counter was written. *)
Ltac original_counter H :=
  repeat first
    [ rewrite getQueryCounter_refused in H
    | rewrite getQueryCounter_written in H
        by first [ apply name_neq_counter_key
                 | apply epoch_key_neq_counter_key
                 | apply text_key_neq_counter_key ] ].

(** C4.  A commit with [calculate_diff] set, for a name that has a result
    set on record (so the query is not new) and at an epoch other than the
    one on record: the item's [previous_remaining] is the differential of
    the result set on record against the current rows and its primary
    result has all the current rows as [added] (and what it had as
    [removed]), whatever happens to the writes; when the store takes the
    two writes, the result set on record becomes the serialization of all
    the current rows and the epoch on record the new epoch, also when a
    counter write is refused afterwards or the counter on record cannot be
    read.  When the store refuses the write of the result set the commit
    returns that failure and the table is as it was, the epoch included.
    The commit succeeds when the store takes its writes, four at most, and
    the counter on record can be read; a failure it returns is that of the
    counter read or of a refused write. *)
Theorem addNewResults_flushes_previous_epoch (q : Query)
    (current : QueryDataTyped) (item : QueryLogItem) (db : Database)
    (previous : Z) (previous_qd : QueryDataSet)
    (Hprevious : getPreviousEpoch q db = Ok previous)
    (Hdiffers : previous ≠ epoch item)
    (Hresults : getPreviousQueryResults q ∅ db = Ok previous_qd) :
  ∃ status db' item' json,
    addNewResults q current true (db, item) = (status, (db', item'))
    ∧ previous_remaining item' = diff previous_qd current
    ∧ added (results item') = current
    ∧ removed (results item') = removed (results item)
    ∧ serializeQueryDataJSON current true = Ok json
    ∧ (takes 2 db →
       table db' !! name_ q = Some json
       ∧ table db' !! (name_ q +:+ "epoch") = Some (to_string (epoch item)))
    ∧ (∀ e, next_write db = Err e → status = Err e ∧ table db' = table db)
    ∧ (takes 4 db → (∀ e, getQueryCounter q false false db ≠ Err e) →
       status = success)
    ∧ (∀ e, status = Err e →
         getQueryCounter q false false db = Err e ∨ Err e ∈ pending db).
Proof.
  destruct (serializeQueryDataJSON_ok current true) as [json Hjson].
  pose proof (getPreviousQueryResults_stored _ _ _ Hresults) as Hin.
  pose proof (name_neq_epoch_key (name_ q)) as Hne.
  pose proof (name_neq_counter_key (name_ q)) as Hnc.
  pose proof (epoch_key_neq_counter_key (name_ q)) as Hec.
  destruct (addNewResults q current true (db, item))
    as [status [db' item']] eqn:Hrun.
  exists status, db', item', json. split; [done|].
  revert Hrun. run_commit.
  rewrite (getQueryStatus_epoch_differs q (epoch item) db previous
             Hprevious false false Hin Hdiffers).
  simpl. rewrite Hresults. simpl. rewrite Hjson. simpl.
  repeat walk; intros [= <- <- <-]; simpl;
    (split_and!; [done | done | done | done | | | |]);
    try (intros Htakes; taken; first [ congruence | split;
         rewrite ?lookup_insert_ne by done; by rewrite lookup_insert_eq ]);
    try (intros e' He'; split; congruence);
    try (intros Htakes Hreads; taken; first [ done | congruence
         | original_counter Hc; by apply Hreads in Hc ]);
    try (intros e' [= <-]; first [ right; refusal
                                  | left; by original_counter Hc ]);
    try done.
Qed.

Lemma addNewResults_flushes_previous_epoch_witness :
  ∃ status db' item' json,
    addNewResults q1 [row_a1; row_a3] true (first_commit.2.1, item_at 2)
    = (status, (db', item'))
    ∧ previous_remaining item' = diff {[+ row_a1 +]} [row_a1; row_a3]
    ∧ added (results item') = [row_a1; row_a3]
    ∧ removed (results item') = removed (results (item_at 2))
    ∧ serializeQueryDataJSON [row_a1; row_a3] true = Ok json
    ∧ (takes 2 first_commit.2.1 →
       table db' !! name_ q1 = Some json
       ∧ table db' !! (name_ q1 +:+ "epoch")
         = Some (to_string (epoch (item_at 2))))
    ∧ (∀ e, next_write first_commit.2.1 = Err e →
         status = Err e ∧ table db' = table first_commit.2.1)
    ∧ (takes 4 first_commit.2.1 →
       (∀ e, getQueryCounter q1 false false first_commit.2.1 ≠ Err e) →
       status = success)
    ∧ (∀ e, status = Err e →
         getQueryCounter q1 false false first_commit.2.1 = Err e
         ∨ Err e ∈ pending first_commit.2.1).
Proof.
  apply (addNewResults_flushes_previous_epoch q1 [row_a1; row_a3] (item_at 2)
           first_commit.2.1 1 {[+ row_a1 +]}).
  - compute_done.
  - discriminate.
  - compute_done.
Defined.

(** A store that refuses the write of the epoch: the commit that opens
    epoch 2 returns the store's failure, with the new result set on record
    under the epoch of the old one, and no counter written. *)
Example epoch_write_refused :
  let db := with_outcomes [success; Err (StatusError 1 "no space")]
              first_commit.2.1 in
  let run := addNewResults q1 [row_a1; row_a3] true (db, item_at 2) in
  run.1 = Err (StatusError 1 "no space")
  ∧ serializeQueryDataJSON [row_a1; row_a3] true
    = Ok (default EmptyString (table run.2.1 !! "q1"))
  ∧ table run.2.1 !! "q1epoch" = Some "1"
  ∧ table run.2.1 !! "q1counter" = table db !! "q1counter"
  ∧ previous_remaining run.2.2 = {| added := [row_a3]; removed := [] |}.
Proof. simpl. split_and!; compute_done. Qed.

(** C10, as stated, fails.  "q1" is first met by [addNewEvents] without
    rows, which leaves a result set on record and no counter; the commit
    that then opens epoch 2 with a row has rows to flush, and the write for
    them stores 0, the counter that [getQueryCounter] returns when none is
    on record, not one more than a persisted counter that defaults to 0. *)
Lemma flush_counter_without_record :
  table no_counter_yet !! "q1counter" = None
  ∧ first_flush.1 = success
  ∧ diff_is_empty (previous_remaining first_flush.2.2) = false
  ∧ previous_remaining_counter first_flush.2.2 = 0
  ∧ counter first_flush.2.2 = 0
  ∧ drop 2 (writes first_flush.2.1)
    = [("q1", one_row_json); ("q1epoch", "2");
       ("q1counter", "0"); ("q1counter", "0")].
Proof. split_and!; compute_done. Qed.

(** C10, amended.  A commit that opens a new epoch for a known query and
    finds rows to flush from the previous one writes the counter key twice,
    one write after the other: first the counter [c] that
    [getQueryCounter] reads for the flushed rows, which the item gets as
    [previous_remaining_counter] (one more than the counter on record when
    there is one, and 0 when there is none), then 0, which the item gets as
    [counter] because [new_epoch] is passed as [all_records].  When the
    store takes the four writes the commit succeeds, the journal gains
    exactly the result set, the epoch and these two counter writes, in that
    order, and the counter on record ends as "0".  When it refuses one, the
    commit returns that failure and the journal has gained the writes
    before it only. *)
Theorem addNewResults_counter_written_twice (q : Query)
    (current : QueryDataTyped) (item : QueryLogItem) (db : Database)
    (previous : Z) (previous_qd : QueryDataSet) (c : Z)
    (Hprevious : getPreviousEpoch q db = Ok previous)
    (Hdiffers : previous ≠ epoch item)
    (Hresults : getPreviousQueryResults q ∅ db = Ok previous_qd)
    (Hremaining : diff_is_empty (diff previous_qd current) = false)
    (Hcounter : getQueryCounter q false false db = Ok c) :
  ∃ status db' item' json,
    addNewResults q current true (db, item) = (status, (db', item'))
    ∧ serializeQueryDataJSON current true = Ok json
    ∧ previous_remaining item' = diff previous_qd current
    ∧ (table db !! (name_ q +:+ "counter") = None → c = 0)
    ∧ (∀ raw n, table db !! (name_ q +:+ "counter") = Some raw →
         stoull raw = Ok n →
         c = wrap64 (n + 1) ∧ (n < ULLONG_MAX → c = n + 1))
    ∧ let four :=
        [(name_ q, json);
         (name_ q +:+ "epoch", to_string (epoch item));
         (name_ q +:+ "counter", to_string c);
         (name_ q +:+ "counter", "0")] in
      (takes 4 db →
       status = success
       ∧ previous_remaining_counter item' = c
       ∧ counter item' = 0
       ∧ writes db' = writes db ++ four
       ∧ table db' !! (name_ q +:+ "counter") = Some "0")
      ∧ (∀ e, status = Err e →
           Err e ∈ pending db
           ∧ ∃ k, (k < 4)%nat ∧ writes db' = writes db ++ take k four).
Proof.
  destruct (serializeQueryDataJSON_ok current true) as [json Hjson].
  pose proof (getPreviousQueryResults_stored _ _ _ Hresults) as Hin.
  assert (table db !! (name_ q +:+ "counter") = None → c = 0) as Habsent.
  { revert Hcounter. unfold getQueryCounter, getDatabaseValue.
    intros Hc Hnone. rewrite Hnone in Hc. by injection Hc. }
  assert (∀ raw n, table db !! (name_ q +:+ "counter") = Some raw →
            stoull raw = Ok n →
            c = wrap64 (n + 1) ∧ (n < ULLONG_MAX → c = n + 1)) as Hnext.
  { intros raw n Hraw Hn. revert Hcounter.
    unfold getQueryCounter, getDatabaseValue. rewrite Hraw, Hn.
    intros [= <-]. split; [done|]. intros Hmax.
    pose proof (stoull_range _ _ Hn) as Hrange.
    unfold wrap64, ULLONG_MAX, uint64_modulus in *.
    apply Z.mod_small. lia. }
  destruct (addNewResults q current true (db, item))
    as [status [db' item']] eqn:Hrun.
  exists status, db', item', json. split; [done|].
  revert Hrun. run_commit.
  rewrite (getQueryStatus_epoch_differs q (epoch item) db previous
             Hprevious false false Hin Hdiffers).
  simpl. rewrite Hresults. simpl. rewrite Hjson. simpl.
  repeat walk;
    try (exfalso; unfold diff_is_empty in Hremaining;
         rewrite Hrows, ?Hrows0 in Hremaining; done);
    try (original_counter Hc; rewrite Hcounter in Hc;
         first [ discriminate Hc | injection Hc as -> ]);
    intros [= <- <- <-]; simpl;
    (split_and!; [done | done | done | done | | ]);
    try (intros Htakes; taken; first [ congruence | split_and!;
         [done | done | done | by rewrite <- ?app_assoc
         | by rewrite lookup_insert_eq ] ]);
    try (intros e' [= <-]; split; [refusal|];
         first [ exists 0%nat; split; [lia|]; by rewrite app_nil_r
               | exists 1%nat; split; [lia|]; done
               | exists 2%nat; split; [lia|]; by rewrite <- ?app_assoc
               | exists 3%nat; split; [lia|]; by rewrite <- ?app_assoc ]);
    try done.
Qed.

Lemma addNewResults_counter_written_twice_witness :
  ∃ status db' item' json,
    addNewResults q1 [row_a1; row_a3] true (first_commit.2.1, item_at 2)
    = (status, (db', item'))
    ∧ serializeQueryDataJSON [row_a1; row_a3] true = Ok json
    ∧ previous_remaining item' = diff {[+ row_a1 +]} [row_a1; row_a3]
    ∧ (table first_commit.2.1 !! (name_ q1 +:+ "counter") = None → 1 = 0)
    ∧ (∀ raw n,
         table first_commit.2.1 !! (name_ q1 +:+ "counter") = Some raw →
         stoull raw = Ok n →
         1 = wrap64 (n + 1) ∧ (n < ULLONG_MAX → 1 = n + 1))
    ∧ let four :=
        [(name_ q1, json);
         (name_ q1 +:+ "epoch", to_string (epoch (item_at 2)));
         (name_ q1 +:+ "counter", to_string 1);
         (name_ q1 +:+ "counter", "0")] in
      (takes 4 first_commit.2.1 →
       status = success
       ∧ previous_remaining_counter item' = 1
       ∧ counter item' = 0
       ∧ writes db' = writes first_commit.2.1 ++ four
       ∧ table db' !! (name_ q1 +:+ "counter") = Some "0")
      ∧ (∀ e, status = Err e →
           Err e ∈ pending first_commit.2.1
           ∧ ∃ k, (k < 4)%nat
                  ∧ writes db' = writes first_commit.2.1 ++ take k four).
Proof.
  apply (addNewResults_counter_written_twice q1 [row_a1; row_a3] (item_at 2)
           first_commit.2.1 1 {[+ row_a1 +]} 1).
  - compute_done.
  - discriminate.
  - compute_done.
  - compute_done.
  - compute_done.
Defined.

(* ===================================================================== *)
(** ** Counter 0 *)
(* ===================================================================== *)

Lemma getQueryCounter_next (q : Query) (db : Database) (raw : string) (n : Z) :
  table db !! (name_ q +:+ "counter") = Some raw →
  stoull raw = Ok n → n < ULLONG_MAX →
  getQueryCounter q false false db = Ok (n + 1) ∧ 1 ≤ n + 1.
Proof.
  intros Hraw Hn Hmax. pose proof (stoull_range _ _ Hn) as Hrange.
  unfold getQueryCounter, getDatabaseValue. rewrite Hraw, Hn. split; [|lia].
  f_equal. unfold wrap64, ULLONG_MAX, uint64_modulus in *.
  apply Z.mod_small. lia.
Qed.

(** *** A commit leaves a counter that can be read

    Whatever the store held, a commit that succeeds either wrote nothing or
    ended by writing the counter, as the digits of a [uint64_t]. *)

Lemma written_counter_on_record (q : Query) (db : Database) (c : Z) :
  0 ≤ c ≤ ULLONG_MAX →
  counter_on_record q (written (name_ q +:+ "counter") (to_string c) db).
Proof.
  intros Hc. exists (to_string c), c. split.
  - simpl. apply lookup_insert_eq.
  - by apply stoull_to_string.
Qed.

Lemma addNewResults_records_counter (q : Query) (current : QueryDataTyped)
    (calculate_diff : bool) (item : QueryLogItem) (db db' : Database)
    (item' : QueryLogItem) :
  addNewResults q current calculate_diff (db, item)
  = (success, (db', item')) →
  db' = db ∨ counter_on_record q db'.
Proof.
  destruct (serializeQueryDataJSON_ok current true) as [json Hjson].
  run_commit. by_status q item db; repeat walk; try done;
    intros [= <- <-];
    first [ by left
          | right; apply written_counter_on_record;
            first [ by eapply getQueryCounter_range | by vm_compute ] ].
Qed.

(** C5, as stated, fails.  The commit that opens epoch 2 hands back an item
    whose counter is 0 and whose primary result has both current rows as
    added; the document of its current pass carries counter 0 together with
    that non-empty [diffResults]. *)
Lemma epoch_change_counter_zero_with_rows :
  epoch_change.1 = success
  ∧ counter epoch_change.2.2 = 0
  ∧ added (results epoch_change.2.2) = [row_a1; row_a3]
  ∧ diff_is_empty (results epoch_change.2.2) = false
  ∧ ∃ doc,
      serializeQueryLogItem false false false epoch_change.2.2 getObject
      = (success, doc)
      ∧ find_member "counter" doc = Some (JInt 0)
      ∧ find_member "diffResults" doc
        = Some (JObject
                  [("removed", JArray []);
                   ("added", JArray [JObject [("a", JString "1")];
                                     JObject [("a", JString "3")]])]).
Proof.
  split; [compute_done|]. split; [compute_done|]. split; [compute_done|].
  split; [compute_done|].
  eexists. split; [vm_compute; reflexivity|].
  split; vm_compute; reflexivity.
Qed.

(** C5, amended.  Take a commit that succeeds on a freshly constructed item
    (no primary result and no [previous_remaining] yet), against a store in
    which every name that has a result set on record also has a counter on
    record that [std::stoull] reads as less than [ULLONG_MAX].  If the item
    comes back with counter 0, then either its primary differential is empty,
    or the commit opened an epoch (nothing was on record under the name, or
    the epoch on record was another one) and the primary result is all the
    current rows as added with nothing removed: the snapshot that starts the
    epoch.  And a [previous_remaining] that is not empty never comes with
    counter 0. *)
Theorem addNewResults_counter_zero (q : Query) (current : QueryDataTyped)
    (calculate_diff : bool) (item : QueryLogItem) (db db' : Database)
    (item' : QueryLogItem)
    (Hfresh_results : results item = no_results)
    (Hfresh_remaining : previous_remaining item = no_results)
    (Hcounter : is_Some (table db !! name_ q) →
       ∃ raw n, table db !! (name_ q +:+ "counter") = Some raw
                ∧ stoull raw = Ok n ∧ n < ULLONG_MAX)
    (Hrun : addNewResults q current calculate_diff (db, item)
            = (success, (db', item'))) :
  (counter item' = 0 →
     diff_is_empty (results item') = true
     ∨ ((table db !! name_ q = None ∨ previous_epoch item' ≠ epoch item')
        ∧ results item' = {| added := current; removed := [] |}))
  ∧ (diff_is_empty (previous_remaining item') = false →
     1 ≤ previous_remaining_counter item').
Proof.
  destruct (serializeQueryDataJSON_ok current true) as [json Hjson].
  assert (∀ d c, is_Some (table db !! name_ q) →
            getQueryCounter q false false d = Ok c →
            getQueryCounter q false false d
            = getQueryCounter q false false db →
            1 ≤ c) as Hnext.
  { intros d c Hin Hc Hd. rewrite Hd in Hc.
    destruct (Hcounter Hin) as (raw & n & Hraw & Hn & Hmax).
    destruct (getQueryCounter_next q db raw n Hraw Hn Hmax) as [Hnext Hpos].
    rewrite Hnext in Hc. by injection Hc as <-. }
  revert Hrun. run_commit.
  by_status q item db; repeat walk; try done;
    intros [= <- <-]; simpl;
    rewrite ?Hfresh_results, ?Hfresh_remaining in *; simpl;
    try discriminate;
    repeat match goal with
      | Hc : getQueryCounter q false false _ = Ok ?c |- _ =>
          apply Hnext in Hc;
          [| done
           | by rewrite ?getQueryCounter_refused, ?getQueryCounter_written
               by first [ apply name_neq_counter_key
                        | apply epoch_key_neq_counter_key
                        | apply text_key_neq_counter_key ] ]
      | Hc : getQueryCounter q _ _ _ = Ok _ |- _ =>
          unfold getQueryCounter in Hc; simpl in Hc; injection Hc as <-
      end.
  all: split; [intros Hzero | intros Hflush];
    first [ lia
          | done
          | by left; apply diff_is_empty_true
          | by right; split; [first [by left | by right]|]
          | exfalso; unfold diff_is_empty in Hflush;
            rewrite ?Hrows, ?Hrows0 in Hflush; done ].
Qed.

Lemma addNewResults_counter_zero_witness :
  (counter epoch_change.2.2 = 0 →
     diff_is_empty (results epoch_change.2.2) = true
     ∨ ((table first_commit.2.1 !! name_ q1 = None
         ∨ previous_epoch epoch_change.2.2 ≠ epoch epoch_change.2.2)
        ∧ results epoch_change.2.2
          = {| added := [row_a1; row_a3]; removed := [] |}))
  ∧ (diff_is_empty (previous_remaining epoch_change.2.2) = false →
     1 ≤ previous_remaining_counter epoch_change.2.2).
Proof.
  apply (addNewResults_counter_zero q1 [row_a1; row_a3] true (item_at 2)
           first_commit.2.1 epoch_change.2.1 epoch_change.2.2).
  - reflexivity.
  - reflexivity.
  - intros _. exists "0", 0. split; [compute_done|].
    split; [reflexivity | reflexivity].
  - compute_done.
Defined.

(* ===================================================================== *)
(** ** The example, step by step *)
(* ===================================================================== *)

(** C2, as stated, fails.  The first commit of "q1" gives counter 0, not 1;
    the document of its current pass has no "action" member and no
    "snapshot" member; and the second commit gives counter 1, not 2. *)
Lemma example_q1_not_as_stated :
  ¬ (counter first_commit.2.2 = 1
     ∧ (∃ doc rows,
          serializeQueryLogItem false false false first_commit.2.2 getObject
          = (success, doc)
          ∧ find_member "action" doc = Some (JString "snapshot")
          ∧ find_member "snapshot" doc = Some (JArray rows)
          ∧ List.length rows = 1%nat)
     ∧ counter second_commit.2.2 = 2).
Proof.
  intros (Hfirst & _ & _).
  assert (counter first_commit.2.2 = 0) as Hzero by compute_done.
  rewrite Hzero in Hfirst. discriminate.
Qed.

(** C2, amended.  The first commit of "q1", at epoch 1 with the row
    [{a:"1"}] and nothing on record, finds both [new_epoch] and [new_query],
    stores the query text, puts the result set [[{a:"1"}]] on record and
    gives counter 0; the document of its current pass carries the row under
    [diffResults] as added, with counter 0 and without any "action" or
    "snapshot" member.  The second commit, at epoch 1 with the rows
    [{a:"1"}] and [{a:"2"}], gives the differential with [{a:"2"}] added and
    nothing removed, and counter 1. *)
Theorem example_q1 :
  getQueryStatus q1 1 false false (holding ∅)
  = (Ok (0, true, true), written "query.q1" (query_ q1) (holding ∅))
  ∧ first_commit.1 = success
  ∧ table first_commit.2.1 !! "q1" = Some one_row_json
  ∧ getPreviousQueryResults q1 ∅ first_commit.2.1 = Ok {[+ row_a1 +]}
  ∧ results first_commit.2.2 = {| added := [row_a1]; removed := [] |}
  ∧ counter first_commit.2.2 = 0
  ∧ (∀ numerics top_level, ∃ doc,
       serializeQueryLogItem numerics top_level false first_commit.2.2
         getObject
       = (success, doc)
       ∧ find_member "diffResults" doc
         = Some (JObject [("removed", JArray []);
                          ("added", JArray [JObject [("a", JString "1")]])])
       ∧ find_member "counter" doc = Some (JInt 0)
       ∧ find_member "action" doc = None
       ∧ find_member "snapshot" doc = None)
  ∧ second_commit.1 = success
  ∧ results second_commit.2.2 = {| added := [row_a2]; removed := [] |}
  ∧ counter second_commit.2.2 = 1.
Proof.
  split; [compute_done|]. split; [compute_done|]. split; [compute_done|].
  split; [compute_done|]. split; [compute_done|]. split; [compute_done|].
  split.
  { intros [] []; eexists; (split; [vm_compute; reflexivity|]);
      repeat split; vm_compute; reflexivity. }
  split; [compute_done|]. split; compute_done.
Qed.

(* ===================================================================== *)
(** ** Members of a document *)
(* ===================================================================== *)

Lemma find_member_app (key : string) (l1 l2 : Members) :
  find_member key (l1 ++ l2)
  = match find_member key l1 with
    | Some v => Some v
    | None => find_member key l2
    end.
Proof.
  induction l1 as [|[k v] l1 IH]; simpl; [done|]. by case_decide.
Qed.

Lemma find_member_remove_eq (key : string) (obj : Members) :
  find_member key (remove_member key obj) = None.
Proof.
  unfold remove_member. induction obj as [|[k v] obj IH]; [done|].
  rewrite filter_cons. simpl. case_decide; [|done].
  simpl. by case_decide.
Qed.

Lemma find_member_remove_ne (key other : string) (obj : Members) :
  key ≠ other →
  find_member key (remove_member other obj) = find_member key obj.
Proof.
  intros Hne. unfold remove_member.
  induction obj as [|[k v] obj IH]; [done|].
  rewrite filter_cons. simpl. case_decide as Hk; simpl.
  - case_decide; [done | apply IH].
  - simpl in Hk. case_decide; [congruence | apply IH].
Qed.

Lemma find_member_add_eq (key : string) (v : JSONValue) (obj : Members) :
  find_member key (add key v obj) = Some v.
Proof.
  unfold add. rewrite find_member_app, find_member_remove_eq. simpl.
  by case_decide.
Qed.

Lemma find_member_add_ne (key other : string) (v : JSONValue) (obj : Members) :
  key ≠ other → find_member key (add other v obj) = find_member key obj.
Proof.
  intros Hne. unfold add.
  rewrite find_member_app, find_member_remove_ne by done.
  destruct (find_member key obj); [done|]. simpl. by case_decide.
Qed.

(** Adding members under other keys leaves a member as it is. *)
Lemma find_member_foldl_add {A} (key : string) (f : A → JSONValue)
    (l : list (string * A)) (obj : Members) :
  Forall (λ kv, kv.1 ≠ key) l →
  find_member key (foldl (λ o kv, add kv.1 (f kv.2) o) obj l)
  = find_member key obj.
Proof.
  intros Hl. revert obj.
  induction Hl as [|[k a] l Hk Hl IH]; intros obj; simpl; [done|].
  rewrite IH. apply find_member_add_ne. simpl in Hk. congruence.
Qed.

Lemma in_key_order_lookup {A} (m : gmap string A) (kv : string * A) :
  kv ∈ in_key_order m → m !! kv.1 = Some kv.2.
Proof.
  unfold in_key_order. rewrite merge_sort_Permutation.
  destruct kv as [k a]. apply elem_of_map_to_list.
Qed.

Lemma in_key_order_other {A} (m : gmap string A) (key : string) :
  m !! key = None → Forall (λ kv, kv.1 ≠ key) (in_key_order m).
Proof.
  intros Hnone. apply Forall_forall. intros kv Hkv Heq.
  apply in_key_order_lookup in Hkv. rewrite Heq in Hkv. congruence.
Qed.

(** A written object is never the empty text. *)
Lemma write_object_nonempty (members : Members) :
  write (JObject members) ≠ EmptyString.
Proof. done. Qed.

(* ===================================================================== *)
(** ** The two serializations *)
(* ===================================================================== *)

Section SerializationProperties.

Variables (numerics top_level : bool).

Lemma serializeQueryData_rows (rows : QueryDataTyped) (arr : list JSONValue) :
  serializeQueryData rows arr numerics
  = Ok (arr ++ map (row_document numerics) rows).
Proof.
  revert arr. induction rows as [|r rows IH]; intros arr; simpl.
  - by rewrite app_nil_r.
  - rewrite IH. unfold push. by rewrite <- app_assoc.
Qed.

Lemma serializeDiffResults_members (dr : DiffResults) :
  serializeDiffResults dr getObject numerics
  = Ok [("removed", JArray (map (row_document numerics) (removed dr)));
        ("added", JArray (map (row_document numerics) (added dr)))].
Proof.
  unfold serializeDiffResults. by rewrite !serializeQueryData_rows.
Qed.

Lemma has_rows_not_empty (dr : DiffResults) :
  diff_is_empty dr = false →
  (0 <? List.length (added dr))%nat || (0 <? List.length (removed dr))%nat
  = true
  ∧ negb (bool_decide (added dr = [])) || negb (bool_decide (removed dr = []))
    = true.
Proof.
  unfold diff_is_empty. by destruct (added dr), (removed dr).
Qed.

Lemma has_rows_empty (dr : DiffResults) :
  diff_is_empty dr = true →
  (0 <? List.length (added dr))%nat || (0 <? List.length (removed dr))%nat
  = false
  ∧ negb (bool_decide (added dr = [])) || negb (bool_decide (removed dr = []))
    = false.
Proof.
  unfold diff_is_empty. by destruct (added dr), (removed dr).
Qed.

Lemma addLegacyFieldsAndDecorations_track (is_previous_remaining : bool)
    (item : QueryLogItem) (obj : Members) :
  decorations_apart top_level item →
  carries_track is_previous_remaining item
    (addLegacyFieldsAndDecorations numerics top_level is_previous_remaining
       item obj).
Proof.
  intros Hapart. unfold addLegacyFieldsAndDecorations.
  set (fields :=
         add "numerics" (JBool numerics)
           (if is_previous_remaining then _ else _)).
  assert (carries_track is_previous_remaining item fields) as Hfields.
  { unfold fields, carries_track.
    destruct is_previous_remaining;
      rewrite ?find_member_add_ne by done;
      (split; [|split]);
      rewrite ?find_member_add_ne by done; apply find_member_add_eq. }
  destruct (bool_decide (decorations item = ∅)); [done|].
  destruct Hfields as (He & Hp & Hc).
  destruct top_level.
  - destruct (Hapart eq_refl) as (Hde & Hdp & Hdc).
    unfold carries_track.
    by rewrite !find_member_foldl_add by by apply in_key_order_other.
  - unfold carries_track. by rewrite !find_member_add_ne by done.
Qed.

(** One pass of the legacy form never fails. *)
Lemma serializeQueryLogItem_run (is_previous_remaining : bool)
    (item : QueryLogItem) (doc0 : Members) :
  ∃ doc,
    serializeQueryLogItem numerics top_level is_previous_remaining item doc0
    = (success, doc)
    ∧ (decorations_apart top_level item →
       carries_track is_previous_remaining item doc).
Proof.
  unfold serializeQueryLogItem, mbind, M_bind, reading, modify.
  destruct (_ || _); simpl.
  - rewrite serializeDiffResults_members. simpl. eexists. split; [done|].
    apply addLegacyFieldsAndDecorations_track.
  - rewrite serializeQueryData_rows. simpl. eexists. split; [done|].
    apply addLegacyFieldsAndDecorations_track.
Qed.

(** The legacy form always yields two entries, whatever
    [previous_remaining] holds. *)
Lemma serializeQueryLogItemJSON_run (item : QueryLogItem)
    (json_items : list string) :
  ∃ previous_doc current_doc,
    serializeQueryLogItem numerics top_level true item getObject
    = (success, previous_doc)
    ∧ serializeQueryLogItem numerics top_level false item getObject
      = (success, current_doc)
    ∧ serializeQueryLogItemJSON numerics top_level item json_items
      = (success,
         json_items
         ++ [write (JObject previous_doc); write (JObject current_doc)]).
Proof.
  destruct (serializeQueryLogItem_run true item getObject)
    as (previous_doc & Hprevious & _).
  destruct (serializeQueryLogItem_run false item getObject)
    as (current_doc & Hcurrent & _).
  exists previous_doc, current_doc. split; [done|]. split; [done|].
  unfold serializeQueryLogItemJSON, _serializeQueryLogItemJSON, toString.
  rewrite Hprevious, Hcurrent. simpl.
  by rewrite <- app_assoc.
Qed.

Lemma push_events_rows (is_previous_remaining : bool) (item : QueryLogItem)
    (action : string) (rows doc : list JSONValue) :
  push_events numerics top_level is_previous_remaining item
    (action, JArray rows) doc
  = doc
    ++ map (event_document numerics top_level is_previous_remaining item
              action) rows.
Proof.
  unfold push_events. simpl. revert doc.
  induction rows as [|row rows IH]; intros doc; simpl.
  - by rewrite app_nil_r.
  - rewrite IH. unfold push. by rewrite <- app_assoc.
Qed.

Lemma event_documents_track (is_previous_remaining : bool)
    (item : QueryLogItem) (action : string) (rows : list JSONValue) :
  decorations_apart top_level item →
  Forall (on_track is_previous_remaining item)
    (map (event_document numerics top_level is_previous_remaining item action)
       rows).
Proof.
  intros Hapart. apply Forall_forall. intros d Hd.
  apply list_elem_of_fmap in Hd as (row & -> & _).
  eexists. split; [reflexivity|].
  pose proof (addLegacyFieldsAndDecorations_track is_previous_remaining item
                getObject Hapart) as (He & Hp & Hc).
  unfold carries_track, serializeEvent.
  by rewrite !find_member_add_ne by done.
Qed.

Lemma pass_events_track (is_previous_remaining : bool) (item : QueryLogItem) :
  decorations_apart top_level item →
  Forall (on_track is_previous_remaining item)
    (pass_events numerics top_level is_previous_remaining item).
Proof.
  intros Hapart. unfold pass_events. destruct (diff_is_empty _).
  - by apply event_documents_track.
  - apply Forall_app. split; by apply event_documents_track.
Qed.

Lemma _serializeQueryLogItemAsEvents_run (is_previous_remaining : bool)
    (item : QueryLogItem) (doc : list JSONValue) :
  let dr := if is_previous_remaining
            then previous_remaining item else results item in
  _serializeQueryLogItemAsEvents numerics top_level is_previous_remaining
    item doc
  = if diff_is_empty dr && bool_decide (snapshot_results item = [])
    then (Err (StatusError 1 "No differential or snapshot results"), doc)
    else (success,
          doc ++ pass_events numerics top_level is_previous_remaining item).
Proof.
  intros dr.
  unfold _serializeQueryLogItemAsEvents, pass_events, mbind, M_bind, mret,
    M_ret, reading, modify.
  fold dr. destruct (diff_is_empty dr) eqn:Hempty.
  - destruct (has_rows_empty dr Hempty) as [_ ->]. simpl.
    destruct (bool_decide (snapshot_results item = [])); simpl; [done|].
    rewrite serializeQueryData_rows. simpl.
    by rewrite push_events_rows.
  - destruct (has_rows_not_empty dr Hempty) as [_ ->]. simpl.
    rewrite serializeDiffResults_members. simpl.
    by rewrite !push_events_rows, <- app_assoc.
Qed.

Lemma pass_events_nonempty (is_previous_remaining : bool)
    (item : QueryLogItem) :
  let dr := if is_previous_remaining
            then previous_remaining item else results item in
  diff_is_empty dr && bool_decide (snapshot_results item = []) = false →
  pass_events numerics top_level is_previous_remaining item ≠ [].
Proof.
  intros dr. unfold pass_events. fold dr. unfold diff_is_empty.
  destruct (added dr) as [|r1 l1] eqn:Ha,
           (removed dr) as [|r2 l2] eqn:Hr; simpl; try done.
  destruct (snapshot_results item); [|done].
  by rewrite bool_decide_eq_true_2.
Qed.

End SerializationProperties.

(** C6, as stated, fails.  The item of an unchanged poll has neither
    differential nor snapshot content, and the current pass of the legacy
    form does not fail on it: it yields a document with an empty "snapshot"
    and the action "snapshot", and the legacy form as a whole succeeds. *)
Lemma legacy_pass_without_content_succeeds :
  unchanged_poll.1 = success
  ∧ diff_is_empty (results unchanged_poll.2.2) = true
  ∧ snapshot_results unchanged_poll.2.2 = []
  ∧ (∃ doc,
       serializeQueryLogItem false false false unchanged_poll.2.2 getObject
       = (success, doc)
       ∧ find_member "snapshot" doc = Some (JArray [])
       ∧ find_member "action" doc = Some (JString "snapshot"))
  ∧ (serializeQueryLogItemJSON false false unchanged_poll.2.2 []).1 = success.
Proof.
  split; [compute_done|]. split; [compute_done|]. split; [compute_done|].
  split.
  { exists (serializeQueryLogItem false false false unchanged_poll.2.2
              getObject).2.
    repeat split; vm_compute; reflexivity. }
  vm_compute; reflexivity.
Qed.

(** C6, amended.  For every item, the current pass of the event form fails
    with "No differential or snapshot results" exactly when the primary
    differential is empty and there are no snapshot rows, and otherwise
    appends one event per row; the current pass of the legacy form never
    fails, and when the primary differential is empty it renders the
    snapshot rows, however few, under "snapshot" with the action
    "snapshot", unless decorations are flattened to the top level of the
    document and one of them takes the name "snapshot" or "action", which
    then replaces that member.  When [previous_remaining] is not empty its
    pass succeeds in the event form and the legacy form appends exactly two
    entries. *)
Theorem current_pass_without_content (numerics top_level : bool)
    (item : QueryLogItem) :
  (∀ doc,
     _serializeQueryLogItemAsEvents numerics top_level false item doc
     = if diff_is_empty (results item)
          && bool_decide (snapshot_results item = [])
       then (Err (StatusError 1 "No differential or snapshot results"), doc)
       else (success, doc ++ pass_events numerics top_level false item))
  ∧ (∃ doc,
       serializeQueryLogItem numerics top_level false item getObject
       = (success, doc)
       ∧ (diff_is_empty (results item) = true →
          (top_level = true →
           decorations item !! "snapshot" = None
           ∧ decorations item !! "action" = None) →
          find_member "snapshot" doc
          = Some (JArray (map (row_document numerics) (snapshot_results item)))
          ∧ find_member "action" doc = Some (JString "snapshot")))
  ∧ (diff_is_empty (previous_remaining item) = false →
     (∀ doc,
        _serializeQueryLogItemAsEvents numerics top_level true item doc
        = (success, doc ++ pass_events numerics top_level true item))
     ∧ (∀ json_items, ∃ previous_text current_text,
          serializeQueryLogItemJSON numerics top_level item json_items
          = (success, json_items ++ [previous_text; current_text]))).
Proof.
  split; [|split].
  - intros doc.
    apply (_serializeQueryLogItemAsEvents_run numerics top_level false item).
  - unfold serializeQueryLogItem, mbind, M_bind, reading, modify.
    destruct (diff_is_empty (results item)) eqn:Hempty.
    + destruct (has_rows_empty (results item) Hempty) as [-> _]. simpl.
      rewrite serializeQueryData_rows. simpl. eexists. split; [done|].
      intros _ Hapart. unfold addLegacyFieldsAndDecorations.
      destruct (bool_decide (decorations item = ∅));
        [by rewrite !find_member_add_ne by done|].
      destruct top_level.
      * destruct (Hapart eq_refl) as [Hsnapshot Haction].
        rewrite !find_member_foldl_add by by apply in_key_order_other.
        by rewrite !find_member_add_ne by done.
      * by rewrite !find_member_add_ne by done.
    + destruct (has_rows_not_empty (results item) Hempty) as [-> _]. simpl.
      rewrite serializeDiffResults_members. simpl. eexists. by split.
  - intros Hremaining. split.
    + intros doc.
      pose proof (_serializeQueryLogItemAsEvents_run numerics top_level true
                    item doc) as Hrun.
      simpl in Hrun. by rewrite Hremaining in Hrun.
    + intros json_items.
      destruct (serializeQueryLogItemJSON_run numerics top_level item
                  json_items)
        as (previous_doc & current_doc & _ & _ & Hrun).
      eauto.
Qed.

Lemma current_pass_without_content_witness :
  (_serializeQueryLogItemAsEvents false false false unchanged_poll.2.2 getArray
   = (Err (StatusError 1 "No differential or snapshot results"), getArray)
   ∧ ∃ doc,
       serializeQueryLogItem false false false unchanged_poll.2.2 getObject
       = (success, doc)
       ∧ find_member "snapshot" doc = Some (JArray [])
       ∧ find_member "action" doc = Some (JString "snapshot"))
  ∧ ∃ previous_text current_text,
      serializeQueryLogItemJSON false false epoch_change.2.2 []
      = (success, [] ++ [previous_text; current_text]).
Proof.
  destruct (current_pass_without_content false false unchanged_poll.2.2)
    as (Hevents & (doc & Hdoc & Hsnapshot) & _).
  destruct (current_pass_without_content false false epoch_change.2.2)
    as (_ & _ & Hremaining).
  split; [split|].
  - apply (Hevents getArray).
  - exists doc. split; [exact Hdoc|].
    apply Hsnapshot; [compute_done | discriminate].
  - apply Hremaining. compute_done.
Defined.

(** With decorations flattened to the top level, a decoration named
    "snapshot" or "action" takes the place of that member: the document of
    the current pass then holds the decorations, not the snapshot rows. *)
Example flattened_decorations_replace_snapshot :
  diff_is_empty (results masked_snapshot) = true
  ∧ ∃ doc,
      serializeQueryLogItem false true false masked_snapshot getObject
      = (success, doc)
      ∧ find_member "snapshot" doc = Some (JString "none")
      ∧ find_member "action" doc = Some (JString "none").
Proof.
  split; [compute_done|].
  exists (serializeQueryLogItem false true false masked_snapshot
            getObject).2.
  split_and!; vm_compute; reflexivity.
Qed.

(** The pass over an empty [previous_remaining] is not skipped, although
    [serializeQueryLogItemJSON] tests for an empty text and is documented to
    yield one entry in that case.  At the item the first commit of "q1"
    hands back (one added row, an empty [previous_remaining], no snapshot
    rows) the legacy form yields two entries, the first an empty "snapshot",
    and the event form fails as a whole although the primary result has a
    row to report. *)
Example empty_previous_remaining_not_skipped :
  diff_is_empty (previous_remaining first_commit.2.2) = true
  ∧ diff_is_empty (results first_commit.2.2) = false
  ∧ snapshot_results first_commit.2.2 = []
  ∧ (∃ previous_doc current_doc,
       serializeQueryLogItem false false true first_commit.2.2 getObject
       = (success, previous_doc)
       ∧ find_member "snapshot" previous_doc = Some (JArray [])
       ∧ find_member "action" previous_doc = Some (JString "snapshot")
       ∧ serializeQueryLogItemJSON false false first_commit.2.2 []
         = (success,
            [write (JObject previous_doc); write (JObject current_doc)]))
  ∧ _serializeQueryLogItemAsEvents false false true first_commit.2.2 getArray
    = (Err (StatusError 1 "No differential or snapshot results"), [])
  ∧ serializeQueryLogItemAsEventsJSON false false first_commit.2.2 []
    = (Err (StatusError 1 "No differential or snapshot results"), []).
Proof.
  split; [compute_done|]. split; [compute_done|]. split; [compute_done|].
  split.
  { exists (serializeQueryLogItem false false true first_commit.2.2
              getObject).2,
           (serializeQueryLogItem false false false first_commit.2.2
              getObject).2.
    repeat split; vm_compute; reflexivity. }
  split; vm_compute; reflexivity.
Qed.

(** C7, as stated, fails.  The commit of "q1" at epoch 3 on a store that
    has it on record at epoch 5 opens a new epoch, since the two epochs
    differ, and has a row to flush.  The legacy form then yields the
    document of the previous epoch, which carries epoch 5, before the
    document of the current one, which carries epoch 3: read in order, the
    epoch goes backward. *)
Lemma epoch_goes_backward :
  earlier_epoch.1 = success
  ∧ diff_is_empty (previous_remaining earlier_epoch.2.2) = false
  ∧ ∃ previous_doc current_doc,
      serializeQueryLogItemJSON false false earlier_epoch.2.2 []
      = (success, [write (JObject previous_doc); write (JObject current_doc)])
      ∧ find_member "epoch" previous_doc = Some (JInt 5)
      ∧ find_member "epoch" current_doc = Some (JInt 3).
Proof.
  split; [compute_done|]. split; [compute_done|].
  exists (serializeQueryLogItem false false true earlier_epoch.2.2
            getObject).2,
         (serializeQueryLogItem false false false earlier_epoch.2.2
            getObject).2.
  split_and!; vm_compute; reflexivity.
Qed.

(** Nor do the documents always carry the epoch and the counter: flattened
    to the top level, decorations named "epoch" and "counter" replace these
    members in the document of the previous epoch. *)
Example flattened_decorations_replace_track :
  diff_is_empty (previous_remaining masked_track) = false
  ∧ previous_epoch masked_track = 1
  ∧ ∃ previous_doc,
      serializeQueryLogItem false true true masked_track getObject
      = (success, previous_doc)
      ∧ find_member "epoch" previous_doc = Some (JString "none")
      ∧ find_member "counter" previous_doc = Some (JString "none").
Proof.
  split; [compute_done|]. split; [compute_done|].
  exists (serializeQueryLogItem false true true masked_track getObject).2.
  split_and!; vm_compute; reflexivity.
Qed.

(** C7, amended.  For an item whose [previous_remaining] is not empty, both
    forms put the documents of the previous-remaining pass before those of
    the current pass, whatever the decorations.
    - The legacy form succeeds and appends exactly two entries: first the
      document of the previous-remaining pass, then the document of the
      current pass.
    - The event form first appends the events of the previous-remaining
      pass, at least one.  When the current pass has rows to report it then
      appends the events of that pass and succeeds; when it has none it
      fails, and no event of the current pass has been put anywhere.
    Unless decorations are flattened to the top level under the names of
    the epoch and counter members, each document of the previous-remaining
    pass carries [previous_epoch], as "epoch" and as "previous_epoch", and
    [previous_remaining_counter], and each document of the current pass
    carries [epoch] and [counter].  So the epoch read from the documents in
    order goes from [previous_epoch] to [epoch]; nothing here makes the
    first the smaller one. *)
Theorem previous_epoch_documents_first (numerics top_level : bool)
    (item : QueryLogItem)
    (Hremaining : diff_is_empty (previous_remaining item) = false) :
  (∀ json_items, ∃ previous_doc current_doc,
      serializeQueryLogItemJSON numerics top_level item json_items
      = (success,
         json_items
         ++ [write (JObject previous_doc); write (JObject current_doc)])
      ∧ serializeQueryLogItem numerics top_level true item getObject
        = (success, previous_doc)
      ∧ serializeQueryLogItem numerics top_level false item getObject
        = (success, current_doc)
      ∧ (decorations_apart top_level item →
         carries_track true item previous_doc
         ∧ carries_track false item current_doc))
  ∧ (∀ doc,
      let previous_docs := pass_events numerics top_level true item in
      let current_docs := pass_events numerics top_level false item in
      _serializeQueryLogItemAsEvents numerics top_level true item doc
      = (success, doc ++ previous_docs)
      ∧ previous_docs ≠ []
      ∧ (decorations_apart top_level item →
         Forall (on_track true item) previous_docs
         ∧ Forall (on_track false item) current_docs)
      ∧ ((serializeQueryLogItemAsEvents numerics top_level item doc
          = (success, doc ++ previous_docs ++ current_docs)
          ∧ current_docs ≠ [])
         ∨ (diff_is_empty (results item) = true
            ∧ snapshot_results item = []
            ∧ serializeQueryLogItemAsEvents numerics top_level item doc
              = (Err (StatusError 1 "No differential or snapshot results"),
                 doc ++ previous_docs)))).
Proof.
  split.
  - intros json_items.
    destruct (serializeQueryLogItemJSON_run numerics top_level item json_items)
      as (previous_doc & current_doc & Hprevious & Hcurrent & Hrun).
    exists previous_doc, current_doc.
    destruct (serializeQueryLogItem_run numerics top_level true item getObject)
      as (d1 & Hd1 & Htrack1).
    destruct (serializeQueryLogItem_run numerics top_level false item getObject)
      as (d2 & Hd2 & Htrack2).
    rewrite Hprevious in Hd1. rewrite Hcurrent in Hd2.
    injection Hd1 as <-. injection Hd2 as <-.
    split; [done|]. split; [done|]. split; [done|].
    intros Hdecorations. split; [by apply Htrack1 | by apply Htrack2].
  - intros doc previous_docs current_docs.
    pose proof (_serializeQueryLogItemAsEvents_run numerics top_level true item
                  doc) as Hfirst.
    simpl in Hfirst. rewrite Hremaining in Hfirst. simpl in Hfirst.
    split; [done|]. split.
    { apply pass_events_nonempty. simpl. by rewrite Hremaining. }
    split.
    { intros Hdecorations. split; by apply pass_events_track. }
    unfold serializeQueryLogItemAsEvents, mbind, M_bind. rewrite Hfirst.
    rewrite _serializeQueryLogItemAsEvents_run. simpl.
    destruct (diff_is_empty (results item)
              && bool_decide (snapshot_results item = [])) eqn:Hnone.
    + right. apply andb_prop in Hnone as [Hempty Hsnapshot].
      by apply bool_decide_eq_true in Hsnapshot.
    + left. split; [by rewrite <- app_assoc|].
      by apply pass_events_nonempty.
Qed.

Lemma previous_epoch_documents_first_witness :
  (∀ json_items, ∃ previous_doc current_doc,
      serializeQueryLogItemJSON false true epoch_change.2.2 json_items
      = (success,
         json_items
         ++ [write (JObject previous_doc); write (JObject current_doc)])
      ∧ serializeQueryLogItem false true true epoch_change.2.2 getObject
        = (success, previous_doc)
      ∧ serializeQueryLogItem false true false epoch_change.2.2 getObject
        = (success, current_doc)
      ∧ (decorations_apart true epoch_change.2.2 →
         carries_track true epoch_change.2.2 previous_doc
         ∧ carries_track false epoch_change.2.2 current_doc))
  ∧ (∀ doc,
      let previous_docs := pass_events false true true epoch_change.2.2 in
      let current_docs := pass_events false true false epoch_change.2.2 in
      _serializeQueryLogItemAsEvents false true true epoch_change.2.2 doc
      = (success, doc ++ previous_docs)
      ∧ previous_docs ≠ []
      ∧ (decorations_apart true epoch_change.2.2 →
         Forall (on_track true epoch_change.2.2) previous_docs
         ∧ Forall (on_track false epoch_change.2.2) current_docs)
      ∧ ((serializeQueryLogItemAsEvents false true epoch_change.2.2 doc
          = (success, doc ++ previous_docs ++ current_docs)
          ∧ current_docs ≠ [])
         ∨ (diff_is_empty (results epoch_change.2.2) = true
            ∧ snapshot_results epoch_change.2.2 = []
            ∧ serializeQueryLogItemAsEvents false true epoch_change.2.2 doc
              = (Err (StatusError 1 "No differential or snapshot results"),
                 doc ++ previous_docs)))).
Proof.
  apply (previous_epoch_documents_first false true epoch_change.2.2).
  compute_done.
Defined.

(* ===================================================================== *)
(** ** What a commit leaves in the store *)
(* ===================================================================== *)

(** Replaying writes extends the journal by them, and the table holds the
    last value written under each key. *)
Lemma writes_replay (l : list (string * string)) (db : Database) :
  writes (replay l db) = writes db ++ l.
Proof.
  revert db. induction l as [|[k v] l IH]; intros db.
  - simpl. by rewrite app_nil_r.
  - change (replay ((k, v) :: l) db) with (replay l (written k v db)).
    rewrite IH. simpl. by rewrite <- app_assoc.
Qed.

Lemma lookup_replay_other (l : list (string * string)) (db : Database)
    (key : string) :
  key ∉ l.*1 → table (replay l db) !! key = table db !! key.
Proof.
  revert db. induction l as [|[k v] l IH]; intros db Hkey; [done|].
  change (replay ((k, v) :: l) db) with (replay l (written k v db)).
  rewrite IH by set_solver.
  simpl. apply lookup_insert_ne. set_solver.
Qed.

Lemma lookup_replay_last (l : list (string * string)) (db : Database)
    (key value : string) :
  table (replay (l ++ [(key, value)]) db) !! key = Some value.
Proof.
  unfold replay. rewrite foldl_app. simpl. apply lookup_insert_eq.
Qed.

(** What [getQueryStatus] finds, case by case. *)
Lemma status_first (q : Query) (item : QueryLogItem) (db : Database) :
  table db !! name_ q = None →
  stores_text q item db = true ∧ opens_epoch q item db = true.
Proof.
  intros Hnone%isQueryNameInDatabase_absent.
  unfold stores_text, opens_epoch. by rewrite Hnone.
Qed.

Lemma status_epoch (q : Query) (item : QueryLogItem) (db : Database)
    (previous : Z) :
  is_Some (table db !! name_ q) → getPreviousEpoch q db = Ok previous →
  previous ≠ epoch item →
  stores_text q item db = false ∧ opens_epoch q item db = true.
Proof.
  intros Hin%isQueryNameInDatabase_lookup Hprev Hdiffers.
  unfold stores_text, opens_epoch. rewrite Hin, Hprev. simpl.
  rewrite bool_decide_eq_false_2 by congruence.
  by rewrite bool_decide_eq_true_2 by congruence.
Qed.

Lemma status_text (q : Query) (item : QueryLogItem) (db : Database)
    (previous : Z) :
  is_Some (table db !! name_ q) → getPreviousEpoch q db = Ok previous →
  previous = epoch item →
  default EmptyString (table db !! ("query." +:+ name_ q)) ≠ query_ q →
  stores_text q item db = true ∧ opens_epoch q item db = false.
Proof.
  intros Hin%isQueryNameInDatabase_lookup Hprev -> Hnew%isNewQuery_lookup.
  unfold stores_text, opens_epoch. rewrite Hin, Hprev, Hnew. simpl.
  rewrite bool_decide_eq_true_2 by done.
  by rewrite bool_decide_eq_false_2 by (intros ?; done).
Qed.

Lemma status_same (q : Query) (item : QueryLogItem) (db : Database)
    (previous : Z) :
  is_Some (table db !! name_ q) → getPreviousEpoch q db = Ok previous →
  previous = epoch item →
  default EmptyString (table db !! ("query." +:+ name_ q)) = query_ q →
  stores_text q item db = false ∧ opens_epoch q item db = false.
Proof.
  intros Hin%isQueryNameInDatabase_lookup Hprev -> Hsame.
  assert (isNewQuery q db = false) as Hold.
  { apply not_true_iff_false. rewrite isNewQuery_lookup. by intros []. }
  unfold stores_text, opens_epoch. rewrite Hin, Hprev, Hold. simpl.
  rewrite bool_decide_eq_true_2 by done.
  by rewrite bool_decide_eq_false_2 by (intros ?; done).
Qed.

(** In a case of [by_status], what the status found. *)
Ltac status_found q item db :=
  let Hstores := fresh "Hstores" in
  let Hopens := fresh "Hopens" in
  first
    [ destruct (status_first q item db ltac:(eassumption))
        as [Hstores Hopens]
    | destruct (status_epoch q item db _ ltac:(eassumption)
                  ltac:(eassumption) ltac:(eassumption))
        as [Hstores Hopens]
    | destruct (status_text q item db _ ltac:(eassumption)
                  ltac:(eassumption) ltac:(eassumption) ltac:(eassumption))
        as [Hstores Hopens]
    | destruct (status_same q item db _ ltac:(eassumption)
                  ltac:(eassumption) ltac:(eassumption) ltac:(eassumption))
        as [Hstores Hopens] ];
  rewrite ?Hstores, ?Hopens.

(** The rows that the walk of a commit found or did not find. *)
Ltac rows_found :=
  unfold diff_is_empty;
  repeat match goal with
    | H : added _ = _ |- _ => progress rewrite H
    | H : removed _ = _ |- _ => progress rewrite H
    end.

(** Close a path of a successful commit that made writes. *)
Ltac wrote q item db :=
  right; unfold text_written, flush_written; status_found q item db;
  repeat match goal with
    | H : next_write db = _ |- _ => progress rewrite H
    end;
  rewrite ?bool_decide_eq_true_2 by done;
  rewrite ?bool_decide_eq_false_2 by done;
  simpl; rows_found; simpl;
  first [ exists db; split; [by left|]; split; [reflexivity|]
        | exists (refused db); split; [by right|]; split; [reflexivity|] ];
  first [ by eapply getQueryCounter_range | by vm_compute ].

(** Every path through a successful commit: it returns the store as it
    was, which takes an empty differential within the epoch on record, or
    its writes are those of [commit_writes], made after the store took or
    refused the query text. *)
Lemma addNewResults_success_writes (q : Query) (current : QueryDataTyped)
    (calculate_diff : bool) (item : QueryLogItem) (db db' : Database)
    (item' : QueryLogItem) :
  addNewResults q current calculate_diff (db, item)
  = (success, (db', item')) →
  ∃ json,
    serializeQueryDataJSON current true = Ok json
    ∧ ((db' = db ∧ calculate_diff = true ∧ is_Some (table db !! name_ q)
        ∧ getPreviousEpoch q db = Ok (epoch item))
       ∨ ∃ db0,
           (db0 = db ∨ db0 = refused db)
           ∧ db' = replay (commit_writes q item json (text_written q item db)
                             (flush_written q item db item') (counter item'))
                     db0
           ∧ 0 ≤ counter item' ≤ ULLONG_MAX).
Proof.
  destruct (serializeQueryDataJSON_ok current true) as [json Hjson].
  run_commit. by_status q item db; repeat walk; try done;
    intros [= <- <-]; exists json; (split; [done|]);
    first [ left; split_and!; [done | done | by eexists | congruence]
          | wrote q item db ].
Qed.

Lemma commit_writes_keys (q : Query) (item : QueryLogItem) (json : string)
    (text : bool) (flush : option Z) (c : Z) (key : string) :
  key ∈ (commit_writes q item json text flush c).*1 →
  key ∈ [name_ q; name_ q +:+ "epoch"; name_ q +:+ "counter";
         "query." +:+ name_ q].
Proof. unfold commit_writes. destruct text, flush; simpl; set_solver. Qed.

Lemma commit_writes_lookups (q : Query) (item : QueryLogItem) (json : string)
    (text : bool) (flush : option Z) (c : Z) (db : Database) :
  let db' := replay (commit_writes q item json text flush c) db in
  table db' !! name_ q = Some json
  ∧ table db' !! (name_ q +:+ "epoch") = Some (to_string (epoch item))
  ∧ table db' !! (name_ q +:+ "counter") = Some (to_string c)
  ∧ (text = true → table db' !! ("query." +:+ name_ q) = Some (query_ q)).
Proof.
  pose proof (name_neq_epoch_key (name_ q)).
  pose proof (name_neq_counter_key (name_ q)).
  pose proof (epoch_key_neq_counter_key (name_ q)).
  pose proof (text_key_neq_name (name_ q)).
  pose proof (text_key_neq_epoch_key (name_ q)).
  pose proof (text_key_neq_counter_key (name_ q)).
  unfold commit_writes, replay.
  destruct text, flush; simpl; repeat split; try done;
    rewrite ?lookup_insert_eq; try done;
    by rewrite !lookup_insert_ne, ?lookup_insert_eq by done.
Qed.

Lemma lookup_replay_is_Some (l : list (string * string)) (db : Database)
    (key : string) :
  is_Some (table db !! key) → is_Some (table (replay l db) !! key).
Proof.
  revert db. induction l as [|[k v] l IH]; intros db Hkey; [done|].
  change (replay ((k, v) :: l) db) with (replay l (written k v db)).
  apply IH. simpl. rewrite lookup_insert. by case_decide.
Qed.

(** An epoch written as the digits of a [uint64_t] is read back. *)
Lemma getPreviousEpoch_on_record (q : Query) (db : Database) (e : Z) :
  table db !! (name_ q +:+ "epoch") = Some (to_string e) →
  0 ≤ e ≤ ULLONG_MAX → getPreviousEpoch q db = Ok e.
Proof.
  intros He Hrange. unfold getPreviousEpoch, getDatabaseValue.
  rewrite He. by apply stoull_to_string.
Qed.

(** X1.  The writes of a successful [addNewResults], in the order they are
    made.  Either the commit writes nothing, or its writes are exactly: the
    query text, when [getQueryStatus] stores it (the name is not on record,
    or the epoch is the one on record and the text is not) and the store
    takes it; then the result set; then the epoch of the item; then the
    counter of the rows flushed from the previous epoch, when the commit
    opens an epoch and the item comes back with a [previous_remaining] that
    is not empty; then the counter of the item.  When it returns, the store
    holds that result set, that epoch and that counter under the name, the
    name followed by "epoch" and the name followed by "counter". *)
Theorem addNewResults_writes_together (q : Query) (current : QueryDataTyped)
    (calculate_diff : bool) (item : QueryLogItem) (db db' : Database)
    (item' : QueryLogItem)
    (Hrun : addNewResults q current calculate_diff (db, item)
            = (success, (db', item'))) :
  ∃ json,
    serializeQueryDataJSON current true = Ok json
    ∧ (writes db' = writes db
       ∨ (writes db'
          = writes db
            ++ commit_writes q item json (text_written q item db)
                 (flush_written q item db item') (counter item')
          ∧ table db' !! name_ q = Some json
          ∧ table db' !! (name_ q +:+ "epoch")
            = Some (to_string (epoch item))
          ∧ table db' !! (name_ q +:+ "counter")
            = Some (to_string (counter item')))).
Proof.
  destruct (addNewResults_success_writes _ _ _ _ _ _ _ Hrun)
    as (json & Hjson & [(-> & _) | (db0 & Hdb0 & -> & _)]);
    exists json; (split; [done|]); [by left|].
  right. split.
  - rewrite writes_replay. by destruct Hdb0 as [->| ->].
  - by destruct (commit_writes_lookups q item json (text_written q item db)
                   (flush_written q item db item') (counter item') db0)
      as (? & ? & ? & _).
Qed.

Lemma addNewResults_writes_together_witness :
  ∃ json,
    serializeQueryDataJSON [row_a1; row_a3] true = Ok json
    ∧ (writes epoch_change.2.1 = writes first_commit.2.1
       ∨ (writes epoch_change.2.1
          = writes first_commit.2.1
            ++ commit_writes q1 (item_at 2) json
                 (text_written q1 (item_at 2) first_commit.2.1)
                 (flush_written q1 (item_at 2) first_commit.2.1
                    epoch_change.2.2)
                 (counter epoch_change.2.2)
          ∧ table epoch_change.2.1 !! name_ q1 = Some json
          ∧ table epoch_change.2.1 !! (name_ q1 +:+ "epoch")
            = Some (to_string (epoch (item_at 2)))
          ∧ table epoch_change.2.1 !! (name_ q1 +:+ "counter")
            = Some (to_string (counter epoch_change.2.2)))).
Proof.
  apply (addNewResults_writes_together q1 [row_a1; row_a3] true (item_at 2)
           first_commit.2.1 epoch_change.2.1 epoch_change.2.2).
  compute_done.
Defined.

(** X2.  A successful [addNewResults] touches four keys at most: the name,
    the name followed by "epoch", the name followed by "counter", and
    "query." followed by the name.  Every other key holds what it held, and
    no key is ever removed. *)
Theorem addNewResults_other_keys (q : Query) (current : QueryDataTyped)
    (calculate_diff : bool) (item : QueryLogItem) (db db' : Database)
    (item' : QueryLogItem)
    (Hrun : addNewResults q current calculate_diff (db, item)
            = (success, (db', item'))) :
  (∀ key,
     key ∉ [name_ q; name_ q +:+ "epoch"; name_ q +:+ "counter";
            "query." +:+ name_ q] →
     table db' !! key = table db !! key)
  ∧ (∀ key, is_Some (table db !! key) → is_Some (table db' !! key)).
Proof.
  destruct (addNewResults_success_writes _ _ _ _ _ _ _ Hrun)
    as (json & Hjson & [(-> & _) | (db0 & Hdb0 & -> & _)]); [done|].
  assert (table db0 = table db) as Htable by (by destruct Hdb0 as [->| ->]).
  split.
  - intros key Hkey. rewrite lookup_replay_other; [by rewrite Htable|].
    intros Hin. by apply Hkey, (commit_writes_keys q item json _ _ _ _ Hin).
  - intros key Hsome. apply lookup_replay_is_Some. by rewrite Htable.
Qed.

Lemma addNewResults_other_keys_witness :
  (∀ key,
     key ∉ [name_ q1; name_ q1 +:+ "epoch"; name_ q1 +:+ "counter";
            "query." +:+ name_ q1] →
     table epoch_change.2.1 !! key = table first_commit.2.1 !! key)
  ∧ (∀ key, is_Some (table first_commit.2.1 !! key) →
            is_Some (table epoch_change.2.1 !! key)).
Proof.
  apply (addNewResults_other_keys q1 [row_a1; row_a3] true (item_at 2)
           first_commit.2.1 epoch_change.2.1 epoch_change.2.2).
  compute_done.
Defined.

(** X3.  After a successful [addNewResults] with an epoch that fits a
    [uint64_t], the epoch on record reads back as the epoch of the item, the
    name is in the database, and a [getQueryStatus] at the same epoch
    neither raises nor reports a new epoch. *)
Theorem addNewResults_next_status (q : Query) (current : QueryDataTyped)
    (calculate_diff : bool) (item : QueryLogItem) (db db' : Database)
    (item' : QueryLogItem)
    (Hepoch : 0 ≤ epoch item ≤ ULLONG_MAX)
    (Hrun : addNewResults q current calculate_diff (db, item)
            = (success, (db', item'))) :
  getPreviousEpoch q db' = Ok (epoch item)
  ∧ isQueryNameInDatabase q db' = true
  ∧ ∃ new_query db'',
      getQueryStatus q (epoch item) false false db'
      = (Ok (epoch item, false, new_query), db'').
Proof.
  assert (getPreviousEpoch q db' = Ok (epoch item)
          ∧ is_Some (table db' !! name_ q)) as [Hprevious Hin].
  { destruct (addNewResults_success_writes _ _ _ _ _ _ _ Hrun)
      as (json & Hjson & [(-> & _ & ? & ?) | (db0 & Hdb0 & -> & _)]);
      [done|].
    destruct (commit_writes_lookups q item json (text_written q item db)
                (flush_written q item db item') (counter item') db0)
      as (Hname & He & _).
    split; [by apply getPreviousEpoch_on_record | by rewrite Hname]. }
  split; [done|]. split; [by apply isQueryNameInDatabase_lookup|].
  destruct (decide (default EmptyString (table db' !! ("query." +:+ name_ q))
                    = query_ q)) as [Hsame|Hnew].
  - eexists _, _. by apply getQueryStatus_unchanged.
  - eexists _, _. by apply getQueryStatus_query_differs.
Qed.

Lemma addNewResults_next_status_witness :
  getPreviousEpoch q1 epoch_change.2.1 = Ok (epoch (item_at 2))
  ∧ isQueryNameInDatabase q1 epoch_change.2.1 = true
  ∧ ∃ new_query db'',
      getQueryStatus q1 (epoch (item_at 2)) false false epoch_change.2.1
      = (Ok (epoch (item_at 2), false, new_query), db'').
Proof.
  apply (addNewResults_next_status q1 [row_a1; row_a3] true (item_at 2)
           first_commit.2.1 epoch_change.2.1 epoch_change.2.2).
  - by vm_compute.
  - compute_done.
Defined.

(* ===================================================================== *)
(** ** When a commit fails, and what the status remembers *)
(* ===================================================================== *)

(** A counter read fails only on a counter on record that [std::stoull]
    does not read. *)
Lemma getQueryCounter_failure (q : Query) (all_records new_query : bool)
    (db : Database) (e : Failure) :
  getQueryCounter q all_records new_query db = Err e →
  ∃ raw, table db !! (name_ q +:+ "counter") = Some raw
         ∧ stoull raw = Err e.
Proof.
  unfold getQueryCounter, getDatabaseValue.
  destruct all_records; [done|]. destruct new_query; [done|].
  destruct (table db !! _) as [raw|]; [|done].
  destruct (stoull raw) eqn:Hraw; [done|]. intros [= <-]. by exists raw.
Qed.

(** Where a counter read of a commit fails, the counter it met is the one
    the store held when the commit began: no write before the read is to
    the counter's key, and a counter the commit wrote is read back. *)
Ltac counter_cause :=
  match goal with
  | Hc : getQueryCounter _ _ _ _ = Err ?e
    |- ∃ raw, _ !! _ = Some raw ∧ stoull raw = Err ?e =>
      original_counter Hc; by apply getQueryCounter_failure in Hc
  end.

(** Every path through a failing commit ends at a read that fails, at the
    serialization, or at a write that the store refuses; a commit writes
    five times at most. *)
Lemma addNewResults_failure (q : Query) (current : QueryDataTyped)
    (calculate_diff : bool) (item : QueryLogItem) (db : Database)
    (e : Failure) (st : Database * QueryLogItem) :
  addNewResults q current calculate_diff (db, item) = (Err e, st) →
  getPreviousEpoch q db = Err e
  ∨ (calculate_diff = true ∧ is_Some (table db !! name_ q)
     ∧ getPreviousQueryResults q ∅ db = Err e)
  ∨ serializeQueryDataJSON current true = Err e
  ∨ (∃ raw, table db !! (name_ q +:+ "counter") = Some raw
            ∧ stoull raw = Err e)
  ∨ Err e ∈ take 5 (pending db).
Proof.
  destruct (serializeQueryDataJSON current true) as [json|failure] eqn:Hjson;
    run_commit; by_status q item db; repeat walk; try done;
    intros [= <- <-];
    first [ by left
          | by right; left; split_and!; [done | by eexists | done]
          | by right; right; left
          | right; right; right; left; counter_cause
          | right; right; right; right; refusal_within ].
Qed.

(** X4.  A commit that fails returns the failure it met, and there are
    five places where it can meet one: the epoch on record is not read by
    [std::stoull] ([getPreviousEpoch] raises); a differential is asked for,
    the name is on record and the result set on record cannot be read back;
    the serialization of the current rows fails; the counter on record is
    not read by [std::stoull]; or the store refuses one of the writes of the
    commit, of which there are five at most. *)
Theorem addNewResults_failure_causes (q : Query) (current : QueryDataTyped)
    (calculate_diff : bool) (item : QueryLogItem) (db : Database)
    (e : Failure) (st : Database * QueryLogItem)
    (Hrun : addNewResults q current calculate_diff (db, item) = (Err e, st)) :
  getPreviousEpoch q db = Err e
  ∨ (calculate_diff = true ∧ is_Some (table db !! name_ q)
     ∧ getPreviousQueryResults q ∅ db = Err e)
  ∨ serializeQueryDataJSON current true = Err e
  ∨ (∃ raw, table db !! (name_ q +:+ "counter") = Some raw
            ∧ stoull raw = Err e)
  ∨ Err e ∈ take 5 (pending db).
Proof. by eapply addNewResults_failure. Qed.

Lemma addNewResults_failure_causes_witness :
  let db := with_outcomes [success; Err (StatusError 1 "no space")]
              first_commit.2.1 in
  let run := addNewResults q1 [row_a1; row_a3] true (db, item_at 2) in
  ∃ e, run.1 = Err e
    ∧ (getPreviousEpoch q1 db = Err e
       ∨ (true = true ∧ is_Some (table db !! name_ q1)
          ∧ getPreviousQueryResults q1 ∅ db = Err e)
       ∨ serializeQueryDataJSON [row_a1; row_a3] true = Err e
       ∨ (∃ raw, table db !! (name_ q1 +:+ "counter") = Some raw
                 ∧ stoull raw = Err e)
       ∨ Err e ∈ take 5 (pending db)).
Proof.
  intros db run. exists (StatusError 1 "no space"). split; [compute_done|].
  apply (addNewResults_failure_causes q1 [row_a1; row_a3] true (item_at 2)
           db _ run.2).
  compute_done.
Defined.

(** A counter on record that cannot be read fails the commit as well. *)
Example counter_on_record_unreadable :
  ∃ e raw,
    (addNewResults q1 [row_a1] true (unreadable_counter_db, item_at 1)).1
    = Err e
    ∧ table unreadable_counter_db !! "q1counter" = Some raw
    ∧ stoull raw = Err e.
Proof. exists (Exception "invalid_argument"), "many". compute_done. Qed.

(** X5.  When the epoch on record cannot be read, [addNewResults] and
    [addNewEvents] both end with the failure that [getPreviousEpoch] raised
    and leave the store and the item exactly as they were: nothing is
    written, not even the query text. *)
Theorem commit_unreadable_epoch (q : Query) (current : QueryDataTyped)
    (calculate_diff : bool) (item : QueryLogItem) (db : Database)
    (e : Failure)
    (Hepoch : getPreviousEpoch q db = Err e) :
  addNewResults q current calculate_diff (db, item) = (Err e, (db, item))
  ∧ addNewEvents q current (db, item) = (Err e, (db, item)).
Proof.
  split.
  - run_commit. by rewrite (getQueryStatus_raises _ _ _ _ _ _ Hepoch).
  - unfold addNewEvents, query_status, mbind, M_bind, the_item, on_fst.
    simpl. by rewrite (getQueryStatus_raises _ _ _ _ _ _ Hepoch).
Qed.

Lemma commit_unreadable_epoch_witness :
  addNewResults q1 [row_a1] true (unreadable_epoch_db, item_at 1)
  = (Err (Exception "invalid_argument"), (unreadable_epoch_db, item_at 1))
  ∧ addNewEvents q1 [row_a1] (unreadable_epoch_db, item_at 1)
    = (Err (Exception "invalid_argument"), (unreadable_epoch_db, item_at 1)).
Proof.
  apply (commit_unreadable_epoch q1 [row_a1] true (item_at 1)
           unreadable_epoch_db).
  compute_done.
Defined.

(** X6.  A result set on record that cannot be read back blocks the
    differential commit: when the name is on record, and either the epoch
    changed or the query text is the one on record, [addNewResults] with
    [calculate_diff] returns the read error, has set only [previous_epoch]
    in the item, and leaves the store as it was, so the next such commit
    fails in the same way. *)
Theorem addNewResults_unreadable_results (q : Query)
    (current : QueryDataTyped) (item : QueryLogItem) (db : Database)
    (previous : Z) (e : Failure)
    (Hepoch : getPreviousEpoch q db = Ok previous)
    (Hin : is_Some (table db !! name_ q))
    (Hresults : getPreviousQueryResults q ∅ db = Err e)
    (Hold : previous ≠ epoch item ∨ isNewQuery q db = false) :
  addNewResults q current true (db, item)
  = (Err e, (db, set_previous_epoch previous item)).
Proof.
  run_commit.
  destruct (decide (previous = epoch item)) as [Heq|Hdiffers].
  - destruct Hold as [?|Hsame]; [done|].
    destruct (decide (default EmptyString
                        (table db !! ("query." +:+ name_ q)) = query_ q))
      as [Htext|Htext].
    2:{ apply isNewQuery_lookup in Htext. congruence. }
    rewrite (getQueryStatus_unchanged q (epoch item) db previous
               Hepoch false false Hin Heq Htext).
    simpl. by rewrite Hresults.
  - rewrite (getQueryStatus_epoch_differs q (epoch item) db previous
               Hepoch false false Hin Hdiffers).
    simpl. by rewrite Hresults.
Qed.

Lemma addNewResults_unreadable_results_witness :
  ∃ e, addNewResults q1 [row_a1] true (unreadable_results_db, item_at 1)
       = (Err e, (unreadable_results_db, set_previous_epoch 1 (item_at 1))).
Proof.
  eexists.
  apply (addNewResults_unreadable_results q1 [row_a1] (item_at 1)
           unreadable_results_db 1).
  - compute_done.
  - compute_done.
  - vm_compute. reflexivity.
  - right. compute_done.
Defined.

(** X7.  The overload [addNewResults(qd, epoch, counter)] commits without
    a differential.  When the epoch on record can be read and the counter on
    record, if any, can be read, the only failure it can return is that of a
    write the store refused, one of its first four; so it succeeds on a
    store that takes four writes, whatever is stored under the name.  When
    it succeeds it leaves the given rows as the result set and the given
    epoch on record. *)
Theorem addNewResults_epoch_stores (q : Query) (qd : QueryDataTyped)
    (e : Z) (snapshot0 : bool) (prc0 : Z) (db : Database)
    (Hepoch : ∃ previous, getPreviousEpoch q db = Ok previous)
    (Hcounter : ∀ raw, table db !! (name_ q +:+ "counter") = Some raw →
                       ∃ n, stoull raw = Ok n) :
  ∃ json status db',
    serializeQueryDataJSON qd true = Ok json
    ∧ addNewResults_epoch q qd e snapshot0 prc0 db = (status, db')
    ∧ (status = success →
       table db' !! name_ q = Some json
       ∧ table db' !! (name_ q +:+ "epoch") = Some (to_string e))
    ∧ (∀ f, status = Err f → Err f ∈ take 4 (pending db))
    ∧ (takes 4 db → status = success).
Proof.
  destruct (serializeQueryDataJSON_ok qd true) as [json Hjson].
  pose proof (name_neq_epoch_key (name_ q)) as Hne.
  pose proof (name_neq_counter_key (name_ q)) as Hnc.
  pose proof (epoch_key_neq_counter_key (name_ q)) as Hec.
  unfold addNewResults_epoch. cbv zeta.
  remember (set_epoch e (default_item snapshot0 prc0)) as item eqn:Hitem.
  destruct (addNewResults q qd false (db, item))
    as [status [db' item']] eqn:Hrun.
  exists json, status, db'. split; [done|]. split; [done|].
  assert ((status = success →
           table db' !! name_ q = Some json
           ∧ table db' !! (name_ q +:+ "epoch") = Some (to_string e))
          ∧ (∀ f, status = Err f → Err f ∈ take 4 (pending db)))
    as [Hstored Hrefused].
  { revert Hrun. run_commit.
    by_status q item db; subst item; simpl;
      repeat walk; intros [= <- <- <-];
      (split;
       [ intros Hsuccess; try done; simpl;
         split; rewrite ?lookup_insert_ne by done; by rewrite lookup_insert_eq
       | intros f Hf; try done; injection Hf as <- ]);
      first [ refusal_within
            | destruct Hepoch; congruence
            | original_counter Hc;
              apply getQueryCounter_failure in Hc as (raw & Hraw & Hstoull);
              destruct (Hcounter raw Hraw); congruence
            | done ]. }
  split; [done|]. split; [done|].
  intros Htakes. destruct status as [[]|f]; [done|].
  by destruct (takes_no_refusal 4 db f Htakes (Hrefused f eq_refl)).
Qed.

Lemma addNewResults_epoch_stores_witness :
  ∃ json status db',
    serializeQueryDataJSON [row_a1] true = Ok json
    ∧ addNewResults_epoch q1 [row_a1] 2 false 0 stale_db = (status, db')
    ∧ (status = success →
       table db' !! name_ q1 = Some json
       ∧ table db' !! (name_ q1 +:+ "epoch") = Some (to_string 2))
    ∧ (∀ f, status = Err f → Err f ∈ take 4 (pending stale_db))
    ∧ (takes 4 stale_db → status = success).
Proof.
  apply (addNewResults_epoch_stores q1 [row_a1] 2 false 0 stale_db).
  - exists 1. compute_done.
  - intros raw Hraw. exists 7.
    assert (raw = "7") as -> by (vm_compute in Hraw; congruence).
    compute_done.
Defined.

(** X8.  Counters written by [incrementCounter] are read back by it.
    After a call that succeeded and left [c] in its [counter] argument,
    whatever its flags, a call with both flags false leaves [c + 1] in
    [uint64_t] arithmetic (0 after 2^64 - 1) in its argument, whatever the
    argument held, and writes it under the counter's key; when the store
    refuses that write the call returns the store's failure, the argument
    being assigned all the same. *)
Theorem incrementCounter_consecutive (q : Query)
    (all_records new_query : bool) (db db' : Database) (c0 c c1 : Z)
    (Hrun : incrementCounter q all_records new_query (db, c0)
            = (success, (db', c))) :
  incrementCounter q false false (db', c1)
  = match next_write db' with
    | Ok _ =>
        (success,
         (written (name_ q +:+ "counter") (to_string (wrap64 (c + 1))) db',
          wrap64 (c + 1)))
    | Err f => (Err f, (refused db', wrap64 (c + 1)))
    end.
Proof.
  revert Hrun.
  unfold incrementCounter, on_fst, reading, modify, setDatabaseValue,
    mbind, M_bind, mret, M_ret.
  simpl.
  destruct (getQueryCounter q all_records new_query db) as [c'|] eqn:Hc;
    [|done].
  simpl. destruct (next_write db) as [[]|]; [|done].
  intros [= <- <-].
  pose proof (getQueryCounter_range _ _ _ _ _ Hc) as Hrange.
  assert (getQueryCounter q false false
            (written (name_ q +:+ "counter") (to_string c') db)
          = Ok (wrap64 (c' + 1))) as ->.
  { unfold getQueryCounter, getDatabaseValue. simpl.
    rewrite lookup_insert_eq. by rewrite stoull_to_string. }
  simpl. by destruct (next_write _) as [[]|].
Qed.

Lemma incrementCounter_consecutive_witness :
  let db' := written "q1counter" "1" (holding ∅) in
  incrementCounter q1 false false (db', 9)
  = match next_write db' with
    | Ok _ =>
        (success,
         (written (name_ q1 +:+ "counter") (to_string (wrap64 (1 + 1))) db',
          wrap64 (1 + 1)))
    | Err f => (Err f, (refused db', wrap64 (1 + 1)))
    end.
Proof.
  intros db'.
  apply (incrementCounter_consecutive q1 false true (holding ∅) db' 7 1 9).
  reflexivity.
Defined.

(** A write under another key leaves the epoch on record as it is. *)
Lemma getPreviousEpoch_written (q : Query) (db : Database)
    (key value : string) :
  key ≠ name_ q +:+ "epoch" →
  getPreviousEpoch q (written key value db) = getPreviousEpoch q db.
Proof.
  intros Hkey. unfold getPreviousEpoch, getDatabaseValue. simpl.
  by rewrite lookup_insert_ne by done.
Qed.

Lemma getPreviousEpoch_refused (q : Query) (db : Database) :
  getPreviousEpoch q (refused db) = getPreviousEpoch q db.
Proof. done. Qed.

(** X9.  An edited query is reported once when its text is stored.  When
    the name is on record, the epoch is unchanged and the text on record
    differs, [getQueryStatus] raises [new_query] and writes the text.  When
    the store takes that write, a second call on the resulting store raises
    no flag and writes nothing.  When the store refuses it, which
    [saveQuery] does not report, the table is as it was and a second call
    raises [new_query] again. *)
Theorem getQueryStatus_reports_edit_once (q : Query) (e : Z) (db : Database)
    (Hepoch : getPreviousEpoch q db = Ok e)
    (Hin : is_Some (table db !! name_ q))
    (Hedited : isNewQuery q db = true) :
  ∃ db',
    getQueryStatus q e false false db = (Ok (e, false, true), db')
    ∧ (next_write db = success →
       isNewQuery q db' = false
       ∧ getQueryStatus q e false false db' = (Ok (e, false, false), db'))
    ∧ (∀ f, next_write db = Err f →
         table db' = table db
         ∧ isNewQuery q db' = true
         ∧ ∃ db'', getQueryStatus q e false false db'
                   = (Ok (e, false, true), db'')).
Proof.
  pose proof Hedited as Hdiffers. apply isNewQuery_lookup in Hdiffers.
  exists (saveQuery (name_ q) (query_ q) db).2.
  split; [by apply getQueryStatus_query_differs|].
  split.
  - intros Htaken. rewrite (saveQuery_taken _ _ _ Htaken).
    assert (default EmptyString
              (table (written ("query." +:+ name_ q) (query_ q) db)
               !! ("query." +:+ name_ q)) = query_ q) as Htext.
    { simpl. by rewrite lookup_insert_eq. }
    split.
    + apply not_true_iff_false. rewrite isNewQuery_lookup. by intros [].
    + apply getQueryStatus_unchanged; [| |done|done].
      * rewrite getPreviousEpoch_written; [done|].
        apply text_key_neq_epoch_key.
      * simpl. rewrite lookup_insert_ne; [done|]. apply text_key_neq_name.
  - intros f Hrefused. rewrite (saveQuery_refused _ _ _ _ Hrefused).
    split; [done|]. split; [done|].
    eexists. by apply getQueryStatus_query_differs.
Qed.

Lemma getQueryStatus_reports_edit_once_witness :
  ∃ db',
    getQueryStatus q1_edited 1 false false stored_q1
    = (Ok (1, false, true), db')
    ∧ (next_write stored_q1 = success →
       isNewQuery q1_edited db' = false
       ∧ getQueryStatus q1_edited 1 false false db'
         = (Ok (1, false, false), db'))
    ∧ (∀ f, next_write stored_q1 = Err f →
         table db' = table stored_q1
         ∧ isNewQuery q1_edited db' = true
         ∧ ∃ db'', getQueryStatus q1_edited 1 false false db'
                   = (Ok (1, false, true), db'')).
Proof.
  apply (getQueryStatus_reports_edit_once q1_edited 1 stored_q1);
    compute_done.
Defined.

(** X10.  A first encounter is reported until a result set is stored.
    When the name is not in the database, [getQueryStatus] raises both flags
    and writes the query text; since it writes nothing under the name
    itself, a second call raises both flags again and the name is still not
    in the database.  The table is as the first call left it when the text
    is on record after the first call, as it is when the store took that
    write; no call touches another key than that of the text. *)
Theorem getQueryStatus_first_encounter_again (q : Query) (e : Z)
    (db : Database) (previous : Z)
    (Hepoch : getPreviousEpoch q db = Ok previous)
    (Hnew : isQueryNameInDatabase q db = false) :
  ∃ db' db'',
    getQueryStatus q e false false db = (Ok (previous, true, true), db')
    ∧ getQueryStatus q e false false db' = (Ok (previous, true, true), db'')
    ∧ isQueryNameInDatabase q db'' = false
    ∧ (table db' !! ("query." +:+ name_ q) = Some (query_ q) →
       table db'' = table db')
    ∧ (next_write db = success →
       table db' !! ("query." +:+ name_ q) = Some (query_ q))
    ∧ (∀ key, key ≠ "query." +:+ name_ q →
         table db'' !! key = table db !! key).
Proof.
  apply isQueryNameInDatabase_absent in Hnew.
  pose proof (text_key_neq_name (name_ q)) as Htn.
  pose proof (text_key_neq_epoch_key (name_ q)) as Hte.
  set (db' := (saveQuery (name_ q) (query_ q) db).2).
  assert (table db' !! name_ q = None) as Hnew'.
  { unfold db'. rewrite saveQuery_store.
    destruct (next_write db) as [[]|]; simpl; [|done].
    by rewrite lookup_insert_ne. }
  assert (getPreviousEpoch q db' = Ok previous) as Hepoch'.
  { unfold db'. rewrite saveQuery_store.
    destruct (next_write db) as [[]|];
      by rewrite ?getPreviousEpoch_written, ?getPreviousEpoch_refused. }
  exists db', (saveQuery (name_ q) (query_ q) db').2.
  split; [by apply getQueryStatus_first_encounter|].
  split; [by apply getQueryStatus_first_encounter|].
  split_and!.
  - apply isQueryNameInDatabase_absent. rewrite saveQuery_store.
    destruct (next_write db') as [[]|]; simpl; [|done].
    by rewrite lookup_insert_ne.
  - intros Htext. rewrite saveQuery_store.
    destruct (next_write db') as [[]|]; simpl; [|done].
    by apply insert_id.
  - intros Htaken. unfold db'. rewrite (saveQuery_taken _ _ _ Htaken).
    simpl. apply lookup_insert_eq.
  - intros key Hkey. unfold db'. rewrite !saveQuery_store.
    destruct (next_write db) as [[]|]; simpl;
      destruct (next_write _) as [[]|]; simpl;
      by rewrite ?lookup_insert_ne.
Qed.

Lemma getQueryStatus_first_encounter_again_witness :
  ∃ db' db'',
    getQueryStatus q1 1 false false (holding ∅)
    = (Ok (0, true, true), db')
    ∧ getQueryStatus q1 1 false false db' = (Ok (0, true, true), db'')
    ∧ isQueryNameInDatabase q1 db'' = false
    ∧ (table db' !! ("query." +:+ name_ q1) = Some (query_ q1) →
       table db'' = table db')
    ∧ (next_write (holding ∅) = success →
       table db' !! ("query." +:+ name_ q1) = Some (query_ q1))
    ∧ (∀ key, key ≠ "query." +:+ name_ q1 →
         table db'' !! key = table (holding ∅) !! key).
Proof.
  apply (getQueryStatus_first_encounter_again q1 1 (holding ∅) 0);
    compute_done.
Defined.

(* ===================================================================== *)
(** ** Event queries *)
(* ===================================================================== *)

Ltac run_events :=
  unfold addNewEvents, query_status, by_reference, incrementCounter,
    the_item, update_item, on_fst, reading, modify, setDatabaseValue,
    mbind, M_bind, mret, M_ret;
  simpl.

(** The stored names are the keys of the table, names of queries or not. *)
Lemma getStoredQueryNames_lookup (key : string) (db : Database) :
  key ∈ getStoredQueryNames db ↔ is_Some (table db !! key).
Proof.
  unfold getStoredQueryNames, scanDatabaseKeys.
  rewrite list_elem_of_fmap. split.
  - intros [[k v] [-> Hkv]]. apply elem_of_map_to_list in Hkv. by exists v.
  - intros [v Hv]. exists (key, v). split; [done|].
    by apply elem_of_map_to_list.
Qed.

(** X11.  [addNewEvents] never stores the rows it is given nor the epoch.
    Whatever it returns, the key of the epoch holds what it held, the result
    set under the name is either what it was or the empty array "[]", and
    apart from the name, the counter and the query text no key changes. *)
Theorem addNewEvents_stores_no_rows (q : Query) (current : QueryDataTyped)
    (item : QueryLogItem) (db : Database) (r : Status) (db' : Database)
    (item' : QueryLogItem)
    (Hrun : addNewEvents q current (db, item) = (r, (db', item'))) :
  table db' !! (name_ q +:+ "epoch") = table db !! (name_ q +:+ "epoch")
  ∧ (table db' !! name_ q = table db !! name_ q
     ∨ table db' !! name_ q = Some "[]")
  ∧ ∀ key,
      key ∉ [name_ q; name_ q +:+ "counter"; "query." +:+ name_ q] →
      table db' !! key = table db !! key.
Proof.
  pose proof (name_neq_epoch_key (name_ q)) as Hne.
  pose proof (name_neq_counter_key (name_ q)) as Hnc.
  pose proof (epoch_key_neq_counter_key (name_ q)) as Hec.
  pose proof (text_key_neq_name (name_ q)) as Htn.
  pose proof (text_key_neq_epoch_key (name_ q)) as Hte.
  revert Hrun. run_events.
  by_status q item db; repeat walk; intros [= <- <- <-]; simpl;
    (split_and!;
     [ by rewrite ?lookup_insert_ne by done
     | first [ left; by rewrite ?lookup_insert_ne by done
             | right; rewrite ?lookup_insert_ne by done;
               apply lookup_insert_eq ]
     | intros key Hkey; rewrite !not_elem_of_cons in Hkey;
       destruct Hkey as (? & ? & ? & _);
       by rewrite ?lookup_insert_ne by done ]).
Qed.

Lemma addNewEvents_stores_no_rows_witness :
  let run := addNewEvents q1 [row_a1; row_a2] (holding ∅, item_at 1) in
  table run.2.1 !! (name_ q1 +:+ "epoch")
  = table (holding ∅) !! (name_ q1 +:+ "epoch")
  ∧ (table run.2.1 !! name_ q1 = table (holding ∅) !! name_ q1
     ∨ table run.2.1 !! name_ q1 = Some "[]")
  ∧ ∀ key,
      key ∉ [name_ q1; name_ q1 +:+ "counter"; "query." +:+ name_ q1] →
      table run.2.1 !! key = table (holding ∅) !! key.
Proof.
  intros run.
  apply (addNewEvents_stores_no_rows q1 [row_a1; row_a2] (item_at 1)
           (holding ∅) run.1 run.2.1 run.2.2).
  compute_done.
Defined.

(** X12.  An event query whose epoch differs from the one on record gets
    counter 1 on every call that has rows.  The only failure such a call
    can return is that of a write the store refused, one of its first
    three; so it succeeds on a store that takes three writes.  When it
    succeeds it has reset the stored result set to "[]" and recorded
    counter 1, which is the item's counter.  Whatever it returns it does
    not record the epoch: the epoch on record still differs afterwards, so
    the next call is in the same situation. *)
Theorem addNewEvents_other_epoch_counter_one (q : Query)
    (current : QueryDataTyped) (item : QueryLogItem) (db : Database)
    (previous : Z)
    (Hepoch : getPreviousEpoch q db = Ok previous)
    (Hdiffers : previous ≠ epoch item)
    (Hrows : current ≠ []) :
  ∃ r db' item',
    addNewEvents q current (db, item) = (r, (db', item'))
    ∧ getPreviousEpoch q db' = Ok previous
    ∧ (r = success →
       counter item' = 1
       ∧ table db' !! name_ q = Some "[]"
       ∧ table db' !! (name_ q +:+ "counter") = Some (to_string 1))
    ∧ (∀ f, r = Err f → Err f ∈ take 3 (pending db))
    ∧ (takes 3 db → r = success).
Proof.
  pose proof (name_neq_epoch_key (name_ q)) as Hne.
  pose proof (name_neq_counter_key (name_ q)) as Hnc.
  pose proof (epoch_key_neq_counter_key (name_ q)) as Hec.
  pose proof (text_key_neq_epoch_key (name_ q)) as Hte.
  rename previous into recorded, Hdiffers into Hother.
  destruct (addNewEvents q current (db, item)) as [r [db' item']] eqn:Hrun.
  exists r, db', item'. split; [done|].
  assert (getPreviousEpoch q db' = Ok recorded
          ∧ (r = success →
             counter item' = 1
             ∧ table db' !! name_ q = Some "[]"
             ∧ table db' !! (name_ q +:+ "counter") = Some (to_string 1))
          ∧ (∀ f, r = Err f → Err f ∈ take 3 (pending db)))
    as (Hrecord & Hstored & Hrefused).
  { revert Hrun. run_events.
    by_status q item db; try congruence;
      (assert (previous = recorded) as -> by congruence);
      repeat walk; try done; intros [= <- <- <-];
      (split_and!;
       [ by repeat first [ rewrite getPreviousEpoch_refused
                         | rewrite getPreviousEpoch_written by done ]
       | intros Hsuccess;
         first [ done
               | simpl; split_and!; [done| |];
                 rewrite ?lookup_insert_ne by done; apply lookup_insert_eq ]
       | intros f Hf;
         first [ done | injection Hf as <-; refusal_within ] ]). }
  split; [done|]. split; [done|]. split; [done|].
  intros Htakes. destruct r as [[]|f]; [done|].
  by destruct (takes_no_refusal 3 db f Htakes (Hrefused f eq_refl)).
Qed.

Lemma addNewEvents_other_epoch_counter_one_witness :
  ∃ r db' item',
    addNewEvents q1 [row_a1] (stored_q1, item_at 5) = (r, (db', item'))
    ∧ getPreviousEpoch q1 db' = Ok 1
    ∧ (r = success →
       counter item' = 1
       ∧ table db' !! name_ q1 = Some "[]"
       ∧ table db' !! (name_ q1 +:+ "counter") = Some (to_string 1))
    ∧ (∀ f, r = Err f → Err f ∈ take 3 (pending stored_q1))
    ∧ (takes 3 stored_q1 → r = success).
Proof.
  apply (addNewEvents_other_epoch_counter_one q1 [row_a1] (item_at 5)
           stored_q1 1).
  - compute_done.
  - by vm_compute.
  - done.
Defined.

(** X13.  An event query polled within the epoch on record, with the
    query text on record and a counter on record that [std::stoull] reads as
    [n]: a call without rows succeeds and writes nothing; a call with rows
    assigns [n + 1] in [uint64_t] arithmetic to the item's counter and
    writes only the counter, succeeding when the store takes that write and
    returning the store's failure when it does not.  In all cases the rows
    are handed back as [results.added]. *)
Theorem addNewEvents_same_epoch_counter (q : Query)
    (current : QueryDataTyped) (item : QueryLogItem) (db : Database)
    (raw : string) (n : Z)
    (Hepoch : getPreviousEpoch q db = Ok (epoch item))
    (Hin : isQueryNameInDatabase q db = true)
    (Htext : isNewQuery q db = false)
    (Hraw : table db !! (name_ q +:+ "counter") = Some raw)
    (Hn : stoull raw = Ok n) :
  let item1 :=
    set_results_added current (set_previous_epoch (epoch item) item) in
  addNewEvents q current (db, item)
  = if bool_decide (current = []) then (success, (db, item1))
    else
      match next_write db with
      | Ok _ =>
          (success,
           (written (name_ q +:+ "counter") (to_string (wrap64 (n + 1))) db,
            set_counter (wrap64 (n + 1)) item1))
      | Err f => (Err f, (refused db, set_counter (wrap64 (n + 1)) item1))
      end.
Proof.
  apply isQueryNameInDatabase_lookup in Hin.
  destruct (decide (default EmptyString
                      (table db !! ("query." +:+ name_ q)) = query_ q))
    as [Hsame|Hnew].
  2:{ apply isNewQuery_lookup in Hnew. congruence. }
  run_events.
  rewrite (getQueryStatus_unchanged q (epoch item) db (epoch item)
             Hepoch false false Hin eq_refl Hsame).
  simpl. destruct current as [|row rows]; simpl; [done|].
  assert (getQueryCounter q false false db = Ok (wrap64 (n + 1))) as ->.
  { unfold getQueryCounter, getDatabaseValue. by rewrite Hraw, Hn. }
  simpl. by destruct (next_write db) as [[]|].
Qed.

Lemma addNewEvents_same_epoch_counter_witness :
  let item1 :=
    set_results_added [row_a1] (set_previous_epoch (epoch (item_at 1))
                                  (item_at 1)) in
  addNewEvents q1 [row_a1] (second_commit.2.1, item_at 1)
  = if bool_decide ([row_a1] = []) then (success, (second_commit.2.1, item1))
    else
      match next_write second_commit.2.1 with
      | Ok _ =>
          (success,
           (written (name_ q1 +:+ "counter") (to_string (wrap64 (1 + 1)))
              second_commit.2.1,
            set_counter (wrap64 (1 + 1)) item1))
      | Err f =>
          (Err f,
           (refused second_commit.2.1, set_counter (wrap64 (1 + 1)) item1))
      end.
Proof.
  apply (addNewEvents_same_epoch_counter q1 [row_a1] (item_at 1)
           second_commit.2.1 "1" 1); compute_done.
Defined.

(** A store that refuses the write of the counter: the item has the
    counter all the same, and the counter on record stays behind. *)
Example event_counter_write_refused :
  let db := with_outcomes [Err (StatusError 1 "no space")] second_commit.2.1 in
  let run := addNewEvents q1 [row_a1] (db, item_at 1) in
  run.1 = Err (StatusError 1 "no space")
  ∧ counter run.2.2 = 2
  ∧ table run.2.1 !! "q1counter" = Some "1".
Proof. cbv zeta. compute_done. Qed.

(** X14.  [getStoredQueryNames] returns book-keeping keys along with
    names.  After a successful [addNewResults] that wrote, the name, the
    name followed by "epoch" and the name followed by "counter" are all
    among the stored names; hence a query whose name is the name of another
    followed by "epoch" or "counter" is found by [isQueryNameInDatabase]
    although it never ran. *)
Theorem addNewResults_stored_names (q : Query) (current : QueryDataTyped)
    (calculate_diff : bool) (item : QueryLogItem) (db db' : Database)
    (item' : QueryLogItem)
    (Hrun : addNewResults q current calculate_diff (db, item)
            = (success, (db', item')))
    (Hwrote : db' ≠ db) :
  (∀ key,
     key ∈ [name_ q; name_ q +:+ "epoch"; name_ q +:+ "counter"] →
     key ∈ getStoredQueryNames db')
  ∧ ∀ q' : Query,
      name_ q' ∈ [name_ q +:+ "epoch"; name_ q +:+ "counter"] →
      isQueryNameInDatabase q' db' = true.
Proof.
  destruct (addNewResults_success_writes _ _ _ _ _ _ _ Hrun)
    as (json & Hjson & [(? & _) | (db0 & _ & -> & _)]); [done|].
  destruct (commit_writes_lookups q item json (text_written q item db)
              (flush_written q item db item') (counter item') db0)
    as (Hname & Hepoch & Hcounter & _).
  split.
  - intros key Hkey. apply getStoredQueryNames_lookup.
    rewrite !elem_of_cons, elem_of_nil in Hkey.
    destruct Hkey as [->|[->|[->|[]]]]; by eexists.
  - intros q' Hq'. apply isQueryNameInDatabase_lookup.
    rewrite !elem_of_cons, elem_of_nil in Hq'.
    destruct Hq' as [->|[->|[]]]; by eexists.
Qed.

Lemma addNewResults_stored_names_witness :
  (∀ key,
     key ∈ [name_ q1; name_ q1 +:+ "epoch"; name_ q1 +:+ "counter"] →
     key ∈ getStoredQueryNames first_commit.2.1)
  ∧ ∀ q' : Query,
      name_ q' ∈ [name_ q1 +:+ "epoch"; name_ q1 +:+ "counter"] →
      isQueryNameInDatabase q' first_commit.2.1 = true.
Proof.
  apply (addNewResults_stored_names q1 [row_a1] true (item_at 1)
           (holding ∅) first_commit.2.1 first_commit.2.2).
  - compute_done.
  - intros H. apply (f_equal writes) in H. by vm_compute in H.
Defined.

(* ===================================================================== *)
(** ** The events of an item, decorations, and reading documents back *)
(* ===================================================================== *)

(** ** Members added under fresh names *)

Lemma remove_member_fresh (key : string) (obj : Members) :
  key ∉ obj.*1 → remove_member key obj = obj.
Proof.
  unfold remove_member. induction obj as [|[k v] obj IH]; [done|].
  intros Hkey. rewrite filter_cons. simpl.
  case_decide as Hk.
  - f_equal. apply IH. set_solver.
  - exfalso. apply Hkey. simpl in *. set_solver.
Qed.

(** Members added under names that are new and distinct are appended, in
    the order they are added. *)
Lemma foldl_add_distinct {A} (f : A → JSONValue) (l : list (string * A))
    (obj : Members) :
  NoDup l.*1 → (∀ k, k ∈ l.*1 → k ∉ obj.*1) →
  foldl (λ o kv, add kv.1 (f kv.2) o) obj l
  = obj ++ map (λ kv, (kv.1, f kv.2)) l.
Proof.
  revert obj. induction l as [|[k a] l IH]; intros obj Hnodup Hfresh; simpl.
  - by rewrite app_nil_r.
  - apply NoDup_cons in Hnodup as [Hk Hnodup].
    rewrite IH; [|done|].
    + unfold add. simpl. rewrite remove_member_fresh by set_solver.
      by rewrite <- app_assoc.
    + intros k' Hk'. unfold add. simpl.
      rewrite remove_member_fresh by set_solver.
      rewrite fmap_app. simpl. set_solver.
Qed.

Lemma in_key_order_NoDup {A} (m : gmap string A) :
  NoDup (in_key_order m).*1.
Proof.
  unfold in_key_order. rewrite merge_sort_Permutation.
  apply NoDup_fst_map_to_list.
Qed.

(** Entries inserted under distinct keys, over what a map held. *)
Lemma foldl_insert_union {A} (l : list (string * A)) (d : gmap string A) :
  NoDup l.*1 →
  foldl (λ m kv, <[kv.1 := kv.2]> m) d l = list_to_map l ∪ d.
Proof.
  revert d. induction l as [|[k a] l IH]; intros d Hnodup; simpl.
  - by rewrite (left_id_L ∅ (∪)).
  - apply NoDup_cons in Hnodup as [Hk Hnodup].
    rewrite IH by done. rewrite <- insert_union_l.
    symmetry. apply insert_union_r. by apply not_elem_of_list_to_map_1.
Qed.

Lemma list_to_map_in_key_order {A} (m : gmap string A) :
  list_to_map (in_key_order m) = m.
Proof.
  rewrite <- (list_to_map_to_list m) at 2.
  apply list_to_map_proper; [apply in_key_order_NoDup|].
  unfold in_key_order. apply merge_sort_Permutation.
Qed.

Lemma pass_events_length (numerics top_level is_previous_remaining : bool)
    (item : QueryLogItem) :
  List.length (pass_events numerics top_level is_previous_remaining item)
  = rows_reported is_previous_remaining item.
Proof.
  unfold pass_events, rows_reported. destruct (diff_is_empty _).
  - by rewrite !length_map.
  - by rewrite length_app, !length_map.
Qed.

Lemma serializeQueryLogItemAsEvents_run (numerics top_level : bool)
    (item : QueryLogItem) (doc0 doc : list JSONValue) :
  serializeQueryLogItemAsEvents numerics top_level item doc0
  = (success, doc) →
  doc = doc0 ++ pass_events numerics top_level true item
             ++ pass_events numerics top_level false item.
Proof.
  unfold serializeQueryLogItemAsEvents, mbind, M_bind.
  rewrite _serializeQueryLogItemAsEvents_run.
  destruct (_ && _); [done|].
  rewrite _serializeQueryLogItemAsEvents_run.
  destruct (_ && _); [done|].
  intros [= <-]. by rewrite <- app_assoc.
Qed.

(** X15.  [serializeQueryLogItemAsEventsJSON] appends one text per
    reported row: on success the output vector is extended by as many
    entries as the previous-remaining pass and the current pass report rows
    (the removed and added rows of the differential, or the snapshot rows
    when the differential is empty); on failure the vector is returned as
    it was. *)
Theorem serializeQueryLogItemAsEventsJSON_count (numerics top_level : bool)
    (item : QueryLogItem) (items items' : list string) (r : Status)
    (Hrun : serializeQueryLogItemAsEventsJSON numerics top_level item items
            = (r, items')) :
  match r with
  | Ok _ =>
      ∃ events,
        items' = items ++ events
        ∧ List.length events
          = (rows_reported true item + rows_reported false item)%nat
  | Err _ => items' = items
  end.
Proof.
  revert Hrun. unfold serializeQueryLogItemAsEventsJSON.
  destruct (serializeQueryLogItemAsEvents numerics top_level item getArray)
    as [[[]|err] doc] eqn:Hdoc; intros [= <- <-]; [|done].
  apply serializeQueryLogItemAsEvents_run in Hdoc as ->.
  eexists. split; [reflexivity|].
  by rewrite length_map, !length_app, !pass_events_length.
Qed.

Lemma serializeQueryLogItemAsEventsJSON_count_witness :
  ∃ events,
    (serializeQueryLogItemAsEventsJSON true false epoch_change.2.2 []).2
    = [] ++ events
    ∧ List.length events
      = (rows_reported true epoch_change.2.2
         + rows_reported false epoch_change.2.2)%nat.
Proof.
  apply (serializeQueryLogItemAsEventsJSON_count true false
           epoch_change.2.2 [] _ success).
  compute_done.
Defined.

Lemma columns_NoDup (r : RowTyped) : NoDup (columns r).*1.
Proof.
  unfold columns. rewrite merge_sort_Permutation.
  apply NoDup_fst_map_to_list.
Qed.

(** A row document lists the columns of the row, in the order of their
    names. *)
Lemma row_document_members (numerics : bool) (r : RowTyped) :
  row_document numerics r
  = JObject (map (λ kv, (kv.1, serializeValue numerics kv.2)) (columns r)).
Proof.
  unfold row_document. f_equal.
  rewrite foldl_add_distinct; [done|apply columns_NoDup|].
  intros k _. unfold getObject. set_solver.
Qed.

(** The columns of a row are copied as they are into an event. *)
Lemma event_document_members (numerics top_level is_previous_remaining : bool)
    (item : QueryLogItem) (action : string) (r : RowTyped) :
  ∃ members,
    event_document numerics top_level is_previous_remaining item action
      (row_document numerics r)
    = JObject members
    ∧ find_member "action" members = Some (JString action)
    ∧ find_member "columns" members = Some (row_document numerics r).
Proof.
  unfold event_document, serializeEvent. eexists. split; [reflexivity|].
  split; [apply find_member_add_eq|].
  rewrite find_member_add_ne by done. rewrite find_member_add_eq.
  f_equal. rewrite row_document_members. f_equal.
  rewrite (foldl_add_distinct (λ v, v)).
  - simpl. rewrite map_map. simpl. apply map_ext. by intros [].
  - rewrite <- list_fmap_compose.
    replace (fst ∘ _) with (@fst string RowDataTyped) by done.
    apply columns_NoDup.
  - intros k _. unfold getObject. set_solver.
Qed.

(** X16.  Every document that [serializeQueryLogItemAsEvents] appends is
    an event: it has the member "action", which is "removed", "added" or
    "snapshot", and the member "columns", which holds the document of a row
    of the item reported by that action, member for member.  Both are set
    after the decorations, so no decoration replaces them. *)
Theorem serializeQueryLogItemAsEvents_events (numerics top_level : bool)
    (item : QueryLogItem) (doc0 doc : list JSONValue)
    (Hrun : serializeQueryLogItemAsEvents numerics top_level item doc0
            = (success, doc)) :
  ∃ events, doc = doc0 ++ events ∧ Forall (event_of numerics item) events.
Proof.
  apply serializeQueryLogItemAsEvents_run in Hrun as ->.
  eexists. split; [reflexivity|].
  assert (∀ ipr action rows,
            (∀ r, r ∈ rows →
               (action = "removed"
                ∧ r ∈ removed (previous_remaining item)
                      ++ removed (results item))
               ∨ (action = "added"
                  ∧ r ∈ added (previous_remaining item)
                        ++ added (results item))
               ∨ (action = "snapshot" ∧ r ∈ snapshot_results item)) →
            Forall (event_of numerics item)
              (map (event_document numerics top_level ipr item action)
                 (map (row_document numerics) rows))) as Hrows.
  { intros ipr action rows Hin. apply Forall_forall. intros d Hd.
    apply list_elem_of_fmap in Hd as (row & -> & Hrow).
    apply list_elem_of_fmap in Hrow as (r & -> & Hr).
    destruct (event_document_members numerics top_level ipr item action r)
      as (members & -> & Haction & Hcolumns).
    exists members, action, r. split_and!; [done..|]. by apply Hin. }
  apply Forall_app. split.
  - unfold pass_events. destruct (diff_is_empty _).
    + apply Hrows. intros r Hr. right. right. done.
    + apply Forall_app. split; apply Hrows; intros r Hr.
      * left. split; [done|]. set_solver.
      * right. left. split; [done|]. set_solver.
  - unfold pass_events. destruct (diff_is_empty _).
    + apply Hrows. intros r Hr. right. right. done.
    + apply Forall_app. split; apply Hrows; intros r Hr.
      * left. split; [done|]. set_solver.
      * right. left. split; [done|]. set_solver.
Qed.

Lemma serializeQueryLogItemAsEvents_events_witness :
  ∃ events,
    (serializeQueryLogItemAsEvents true false epoch_change.2.2 []).2
    = [] ++ events
    ∧ Forall (event_of true epoch_change.2.2) events.
Proof.
  apply (serializeQueryLogItemAsEvents_events true false epoch_change.2.2 []).
  compute_done.
Defined.

(** Of members added under distinct names, each is found as it was
    added, whatever the object held under its name. *)
Lemma find_member_foldl_add_in {A} (key : string) (a : A) (f : A → JSONValue)
    (l : list (string * A)) (obj : Members) :
  NoDup l.*1 → (key, a) ∈ l →
  find_member key (foldl (λ o kv, add kv.1 (f kv.2) o) obj l) = Some (f a).
Proof.
  revert obj. induction l as [|[k a'] l IH]; intros obj Hnodup Hin.
  - by apply elem_of_nil in Hin.
  - apply NoDup_cons in Hnodup as [Hk Hnodup]. simpl.
    apply elem_of_cons in Hin as [[= <- <-]|Hin]; [|by apply IH].
    rewrite find_member_foldl_add; [apply find_member_add_eq|].
    apply Forall_forall. intros kv Hkv Heq. apply Hk.
    apply list_elem_of_fmap. by exists kv.
Qed.

Lemma in_key_order_elem_of {A} (m : gmap string A) (k : string) (a : A) :
  m !! k = Some a → (k, a) ∈ in_key_order m.
Proof.
  intros Hk. unfold in_key_order. rewrite merge_sort_Permutation.
  by apply elem_of_map_to_list.
Qed.

(** X17.  With [decorations_top_level], a decoration wins over whatever
    the legacy document holds under its name: after [serializeQueryLogItem]
    the member named as the decoration is the decoration's text, also when
    the name is that of a legacy field such as "name", "epoch" or "counter",
    or of the results ("diffResults", "snapshot"). *)
Theorem decorations_top_level_override (numerics is_previous_remaining : bool)
    (item : QueryLogItem) (doc0 : Members) (key value : string)
    (Hdecoration : decorations item !! key = Some value) :
  ∃ doc,
    serializeQueryLogItem numerics true is_previous_remaining item doc0
    = (success, doc)
    ∧ find_member key doc = Some (JString value).
Proof.
  assert (decorations item ≠ ∅) as Hsome.
  { intros Hempty. rewrite Hempty in Hdecoration. done. }
  assert (∀ obj,
            find_member key
              (addLegacyFieldsAndDecorations numerics true
                 is_previous_remaining item obj)
            = Some (JString value)) as Hfind.
  { intros obj. unfold addLegacyFieldsAndDecorations.
    rewrite bool_decide_eq_false_2 by done.
    apply (find_member_foldl_add_in key value JString);
      [apply in_key_order_NoDup | by apply in_key_order_elem_of]. }
  unfold serializeQueryLogItem, mbind, M_bind, reading, modify.
  destruct (_ || _); simpl.
  - rewrite serializeDiffResults_members. simpl. eexists. by split.
  - rewrite serializeQueryData_rows. simpl. eexists. by split.
Qed.

Lemma decorations_top_level_override_witness :
  ∃ doc,
    serializeQueryLogItem true true false decorated_item getObject
    = (success, doc)
    ∧ find_member "name" doc = Some (JString "spoofed").
Proof.
  apply (decorations_top_level_override true false decorated_item getObject
           "name" "spoofed").
  compute_done.
Defined.

(** ** Reading a document back *)

Lemma read_decorations_run (l : list (string * string)) (item : QueryLogItem) :
  read_decorations (map (λ kv, (kv.1, JString kv.2)) l) item
  = (Ok tt,
     set_decorations
       (foldl (λ m kv, <[kv.1 := kv.2]> m) (decorations item) l) item).
Proof.
  revert item. induction l as [|[k v] l IH]; intros item; simpl.
  - by destruct item.
  - unfold mbind, M_bind, reading, modify. simpl. by rewrite IH.
Qed.

(** The four legacy fields that are read back, as they are written. *)
Lemma legacy_fields_members (numerics top_level is_previous_remaining : bool)
    (item : QueryLogItem) (obj : Members) :
  (top_level = true →
   decorations item !! "name" = None
   ∧ decorations item !! "hostIdentifier" = None
   ∧ decorations item !! "calendarTime" = None
   ∧ decorations item !! "unixTime" = None) →
  let doc := addLegacyFieldsAndDecorations numerics top_level
               is_previous_remaining item obj in
  find_member "name" doc = Some (JString (name item))
  ∧ find_member "hostIdentifier" doc = Some (JString (identifier item))
  ∧ find_member "calendarTime" doc = Some (JString (calendar_time item))
  ∧ find_member "unixTime" doc = Some (JInt (time item)).
Proof.
  intros Hapart doc. unfold doc, addLegacyFieldsAndDecorations.
  set (fields :=
         add "numerics" (JBool numerics)
           (if is_previous_remaining then _ else _)).
  assert (find_member "name" fields = Some (JString (name item))
          ∧ find_member "hostIdentifier" fields
            = Some (JString (identifier item))
          ∧ find_member "calendarTime" fields
            = Some (JString (calendar_time item))
          ∧ find_member "unixTime" fields = Some (JInt (time item)))
    as (Hn & Hi & Hc & Ht).
  { unfold fields.
    destruct is_previous_remaining;
      rewrite ?find_member_add_ne by done;
      split_and!;
      rewrite ?find_member_add_ne by done; apply find_member_add_eq. }
  destruct (bool_decide (decorations item = ∅)); [done|].
  destruct top_level.
  - destruct (Hapart eq_refl) as (Hdn & Hdi & Hdc & Hdt).
    by rewrite !find_member_foldl_add by by apply in_key_order_other.
  - by rewrite !find_member_add_ne by done.
Qed.

(** Nested decorations are written as an object, in the order of their
    names, and only when there are any. *)
Lemma legacy_decorations_member (numerics is_previous_remaining : bool)
    (item : QueryLogItem) (obj : Members) :
  find_member "decorations"
    (addLegacyFieldsAndDecorations numerics false is_previous_remaining
       item obj)
  = if bool_decide (decorations item = ∅)
    then find_member "decorations" obj
    else Some (JObject (map (λ kv, (kv.1, JString kv.2))
                          (in_key_order (decorations item)))).
Proof.
  unfold addLegacyFieldsAndDecorations.
  destruct (bool_decide (decorations item = ∅)).
  - by destruct is_previous_remaining; rewrite !find_member_add_ne by done.
  - rewrite find_member_add_eq. do 2 f_equal.
    rewrite (foldl_add_distinct JString); [done|apply in_key_order_NoDup|].
    intros k _. unfold getObject. set_solver.
Qed.

(** X18.  [getLegacyFieldsAndDecorations] reads back what
    [addLegacyFieldsAndDecorations] wrote with nested decorations: the name,
    the host identifier, the calendar time, the time when it fits a
    [uint64_t], and the decorations, which are added to those the output
    item already has.  The epoch and the counter are written but not read
    back.  (The document must not already hold "decorations"; the accessors
    of a JSON value are modelled.) *)
Theorem getLegacyFieldsAndDecorations_round_trip
    (numerics is_previous_remaining : bool) (item : QueryLogItem)
    (obj : Members) (item0 : QueryLogItem)
    (Htime : 0 ≤ time item ≤ ULLONG_MAX)
    (Hfresh : find_member "decorations" obj = None) :
  ∃ item',
    getLegacyFieldsAndDecorations
      (addLegacyFieldsAndDecorations numerics false is_previous_remaining
         item obj) item0
    = (Ok tt, item')
    ∧ name item' = name item
    ∧ identifier item' = identifier item
    ∧ calendar_time item' = calendar_time item
    ∧ time item' = time item
    ∧ decorations item' = decorations item ∪ decorations item0
    ∧ epoch item' = epoch item0
    ∧ counter item' = counter item0
    ∧ results item' = results item0.
Proof.
  destruct (legacy_fields_members numerics false is_previous_remaining item
              obj) as (Hn & Hi & Hc & Ht); [done|].
  unfold getLegacyFieldsAndDecorations, member.
  rewrite legacy_decorations_member, Hn, Hi, Hc, Ht.
  assert (GetUint64 (JInt (time item)) = Ok (time item)) as Huint.
  { unfold GetUint64.
    destruct (Z.leb_spec 0 (time item)); [|lia].
    destruct (Z.leb_spec (time item) ULLONG_MAX); [done|lia]. }
  case_bool_decide as Hempty.
  - rewrite Hfresh.
    unfold mbind, M_bind, Result_bind, reading, modify, mret, M_ret.
    rewrite Huint.
    eexists. split; [reflexivity|]. simpl.
    rewrite Hempty. by rewrite (left_id_L ∅ (∪)).
  - unfold mbind at 1. unfold M_bind at 1.
    rewrite read_decorations_run.
    unfold mbind, M_bind, Result_bind, reading, modify.
    rewrite Huint.
    eexists. split; [reflexivity|]. simpl.
    rewrite foldl_insert_union by apply in_key_order_NoDup.
    by rewrite list_to_map_in_key_order.
Qed.

Lemma getLegacyFieldsAndDecorations_round_trip_witness :
  ∃ item',
    getLegacyFieldsAndDecorations
      (addLegacyFieldsAndDecorations true false false decorated_item
         getObject) (default_item false 0)
    = (Ok tt, item')
    ∧ name item' = name decorated_item
    ∧ identifier item' = identifier decorated_item
    ∧ calendar_time item' = calendar_time decorated_item
    ∧ time item' = time decorated_item
    ∧ decorations item'
      = decorations decorated_item ∪ decorations (default_item false 0)
    ∧ epoch item' = epoch (default_item false 0)
    ∧ counter item' = counter (default_item false 0)
    ∧ results item' = results (default_item false 0).
Proof.
  apply (getLegacyFieldsAndDecorations_round_trip true false decorated_item
           getObject (default_item false 0)).
  - by vm_compute.
  - done.
Defined.

Lemma columns_lookup (r : RowTyped) (kv : string * RowDataTyped) :
  kv ∈ columns r → r !! kv.1 = Some kv.2.
Proof.
  unfold columns. rewrite merge_sort_Permutation.
  destruct kv as [k a]. apply elem_of_map_to_list.
Qed.

Lemma list_to_map_columns (r : RowTyped) : list_to_map (columns r) = r.
Proof.
  rewrite <- (list_to_map_to_list r) at 2.
  apply list_to_map_proper; [apply columns_NoDup|].
  unfold columns. apply merge_sort_Permutation.
Qed.

(** A row written with numeric syntax reads back as it was, provided no
    column has the empty name. *)
Lemma deserializeRow_row_document (r : RowTyped) :
  r !! EmptyString = None → deserializeRow (row_document true r) = Ok r.
Proof.
  intros Hnames. rewrite row_document_members. unfold deserializeRow.
  f_equal. rewrite <- (list_to_map_columns r) at 2.
  rewrite <- (right_id_L ∅ (∪) (list_to_map (columns r))).
  rewrite <- foldl_insert_union by apply columns_NoDup.
  assert (Forall (λ kv, kv.1 ≠ EmptyString) (columns r)) as Hall.
  { apply Forall_forall. intros kv Hkv Heq. apply columns_lookup in Hkv.
    rewrite Heq in Hkv. congruence. }
  generalize (∅ : RowTyped).
  induction Hall as [|[k v] l Hk Hall IH]; intros d; simpl; [done|].
  rewrite IH. f_equal. simpl in Hk.
  case_decide; [done|]. by destruct v.
Qed.

Lemma deserializeRows_vector_rows (rows qd : QueryDataTyped) :
  Forall (λ r : RowTyped, r !! EmptyString = None) rows →
  deserializeRows_vector (map (row_document true) rows) qd
  = (Ok tt, qd ++ rows).
Proof.
  intros Hall. revert qd.
  induction Hall as [|r rows Hr Hall IH]; intros qd;
    cbn [List.map deserializeRows_vector].
  - by rewrite app_nil_r.
  - unfold mbind, M_bind, reading, modify.
    rewrite deserializeRow_row_document by done.
    rewrite IH. by rewrite <- app_assoc.
Qed.

(** X19.  [deserializeDiffResults] reads back what [serializeDiffResults]
    wrote with numeric syntax: the removed rows are appended to
    [dr.removed] and the added rows to [dr.added], in order, provided no
    column has the empty name.  (The coding of rows is modelled.) *)
Theorem deserializeDiffResults_round_trip (dr dr0 : DiffResults)
    (doc : Members)
    (Hdoc : serializeDiffResults dr getObject true = Ok doc)
    (Hnames : Forall (λ r : RowTyped, r !! EmptyString = None)
                (removed dr ++ added dr)) :
  deserializeDiffResults (JObject doc) dr0
  = (success,
     {| added := added dr0 ++ added dr;
        removed := removed dr0 ++ removed dr |}).
Proof.
  rewrite serializeDiffResults_members in Hdoc. injection Hdoc as <-.
  apply Forall_app in Hnames as [Hremoved Hadded].
  unfold deserializeDiffResults. simpl.
  unfold mbind, M_bind, on_removed, on_added, deserializeQueryData_vector.
  rewrite deserializeRows_vector_rows by done. simpl.
  by rewrite deserializeRows_vector_rows by done.
Qed.

Lemma deserializeDiffResults_round_trip_witness :
  deserializeDiffResults
    (JObject [("removed", JArray [row_document true row_a2]);
              ("added", JArray [row_document true row_a1])])
    no_results
  = (success,
     {| added := added no_results
                 ++ added {| added := [row_a1]; removed := [row_a2] |};
        removed := removed no_results
                   ++ removed {| added := [row_a1]; removed := [row_a2] |} |}).
Proof.
  apply (deserializeDiffResults_round_trip
           {| added := [row_a1]; removed := [row_a2] |} no_results).
  - by rewrite serializeDiffResults_members.
  - repeat constructor.
Defined.

(* ===================================================================== *)
(** ** What a commit leaves in the item *)
(* ===================================================================== *)

(** Every path through a commit, failing ones included, and the item it
    hands back. *)
Lemma addNewResults_item (q : Query) (current : QueryDataTyped)
    (calculate_diff : bool) (item : QueryLogItem) (db : Database)
    (r : Status) (db' : Database) (item' : QueryLogItem) :
  addNewResults q current calculate_diff (db, item) = (r, (db', item')) →
  same_subject item item'
  ∧ (r = success →
     (added (results item') = current
      ∧ removed (results item') = removed (results item))
     ∨ (calculate_diff = true
        ∧ ∃ previous_qd,
            getPreviousQueryResults q ∅ db = Ok previous_qd
            ∧ results item' = diff previous_qd current
            ∧ previous_remaining item' = previous_remaining item
            ∧ getPreviousEpoch q db = Ok (epoch item))).
Proof.
  destruct (serializeQueryDataJSON_ok current true) as [json Hjson].
  run_commit.
  by_status q item db; repeat walk; intros [= <- <- <-]; simpl;
    (split; [done|]); intros Hok;
    first [ discriminate Hok
          | by left
          | right; split; [done|]; eexists; split_and!;
            [ reflexivity | done | done | congruence ] ].
Qed.

(** X20.  [addNewResults] fills in results and counters only.  Whether it
    succeeds or fails, the item it hands back has the [isSnapshot],
    [snapshot_results], [name], [identifier], [time], [epoch],
    [calendar_time] and [decorations] it was given; in particular a commit
    never produces snapshot rows. *)
Theorem addNewResults_keeps_subject (q : Query) (current : QueryDataTyped)
    (calculate_diff : bool) (item : QueryLogItem) (db : Database)
    (r : Status) (db' : Database) (item' : QueryLogItem)
    (Hrun : addNewResults q current calculate_diff (db, item)
            = (r, (db', item'))) :
  same_subject item item'.
Proof. by destruct (addNewResults_item _ _ _ _ _ _ _ _ Hrun). Qed.

Lemma addNewResults_keeps_subject_witness :
  same_subject decorated_item
    (addNewResults q1 [row_a1; row_a2] true (stored_q1, decorated_item)).2.2.
Proof.
  apply (addNewResults_keeps_subject q1 [row_a1; row_a2] true decorated_item
           stored_q1 success
           (addNewResults q1 [row_a1; row_a2] true
              (stored_q1, decorated_item)).2.1).
  compute_done.
Defined.



(** The legacy fields and nested decorations leave the other members of a
    document alone. *)
Lemma legacy_fields_other (numerics is_previous_remaining : bool)
    (item : QueryLogItem) (obj : Members) (key : string) :
  key ∉ ["name"; "hostIdentifier"; "calendarTime"; "unixTime"; "epoch";
         "previous_epoch"; "counter"; "numerics"; "decorations"] →
  find_member key
    (addLegacyFieldsAndDecorations numerics false is_previous_remaining
       item obj)
  = find_member key obj.
Proof.
  intros Hkey. unfold addLegacyFieldsAndDecorations.
  destruct (bool_decide (decorations item = ∅)), is_previous_remaining;
    rewrite !find_member_add_ne; try done; set_solver.
Qed.

(** X22.  A legacy document with nested decorations carries its rows in
    one of two ways, never both: when the differential is empty, the member
    "snapshot" with the snapshot rows and the action "snapshot", and no
    "diffResults"; otherwise the member "diffResults" with the removed rows
    and then the added rows, and neither "snapshot" nor "action". *)
Theorem serializeQueryLogItem_content (numerics is_previous_remaining : bool)
    (item : QueryLogItem) :
  let dr := if is_previous_remaining
            then previous_remaining item else results item in
  ∃ doc,
    serializeQueryLogItem numerics false is_previous_remaining item getObject
    = (success, doc)
    ∧ if diff_is_empty dr then
        find_member "snapshot" doc
        = Some (JArray (map (row_document numerics) (snapshot_results item)))
        ∧ find_member "action" doc = Some (JString "snapshot")
        ∧ find_member "diffResults" doc = None
      else
        find_member "diffResults" doc
        = Some (JObject
                  [("removed",
                    JArray (map (row_document numerics) (removed dr)));
                   ("added",
                    JArray (map (row_document numerics) (added dr)))])
        ∧ find_member "snapshot" doc = None
        ∧ find_member "action" doc = None.
Proof.
  intros dr.
  unfold serializeQueryLogItem, mbind, M_bind, reading, modify. fold dr.
  destruct (diff_is_empty dr) eqn:Hempty.
  - destruct (has_rows_empty dr Hempty) as [-> _]. simpl.
    rewrite serializeQueryData_rows. simpl.
    eexists. split; [reflexivity|].
    by rewrite !legacy_fields_other by set_solver.
  - destruct (has_rows_not_empty dr Hempty) as [-> _]. simpl.
    rewrite serializeDiffResults_members. simpl.
    eexists. split; [reflexivity|].
    by rewrite !legacy_fields_other by set_solver.
Qed.
